(** * dcrps: process listing and process-tree rendering

    A shallow embedding of [main.go] of dcrps (the Decred variant of gops)
    and the properties of its tree renderer, its summary table, its
    name table and its command-line dispatch.

    Conventions of the embedding.
    - Go [int] values (PIDs) are integers in [Z]; the program does no
      arithmetic on them, so no wrap-around is involved.
    - Go maps are finite maps ([gmap]); reading a missing key gives the zero
      value of the element type, as in Go.
    - [goprocess.FindAll()] is the external process provider: its result is
      an explicit argument (a snapshot, [list P]) of the function that
      calls it.
    - The [treeprint] tree is a pointer structure that the program mutates;
      it is modelled as a store of nodes addressed by their allocation
      index. *)

From Stdlib Require Import ZArith Ascii String DecimalString DecimalPos.
From stdpp Require Import gmap strings list fin_maps.

Open Scope Z_scope.

(** ** Process records (goprocess.P) *)

Record P := mkP {
  PID : Z;
  PPID : Z;
  Exec : string;
  Path : string;
  BuildVersion : string;
  Agent : bool
}.

Global Instance P_eq_dec : EqDecision P.
Proof. solve_decision. Defined.

(** ** Library functions used by the program *)

(** [strconv.Itoa]: the decimal representation, with a leading minus sign
    for negative numbers. *)
Definition Itoa (n : Z) : string := NilZero.string_of_int (Z.to_int n).

(** [strings.HasPrefix s prefix]. *)
Definition HasPrefix (s prefix : string) : bool := String.prefix prefix s.

(** [len(s)] of a Go string: its number of bytes. *)
Definition len (s : string) : Z := Z.of_nat (String.length s).

Definition dcrPrefix : string := "dcr".

(** ** The treeprint store

    [treeprint.New()] allocates a root node; [AddBranch] and
    [AddMetaBranch] allocate a child node, append it to the [Nodes] of the
    receiver and return the child. A tree value in the Go program is a
    pointer to a node; here it is the index of the node in the store. *)

Inductive Value :=
| VInt (n : Z)
| VStr (s : string).

Global Instance Value_eq_dec : EqDecision Value.
Proof. solve_decision. Defined.

Definition ptr := nat.

Record node := mkNode {
  Root : option ptr;          (* the parent, nil for the root *)
  Meta : option string;       (* MetaValue, nil when absent *)
  Val : Value;
  Nodes : list ptr
}.

Definition addChild (b : ptr) (n : node) : node :=
  {| Root := Root n; Meta := Meta n; Val := Val n; Nodes := Nodes n ++ [b] |}.

Definition setValue (v : Value) (n : node) : node :=
  {| Root := Root n; Meta := Meta n; Val := v; Nodes := Nodes n |}.

(** The state the renderer works on: the [seen] map created by
    [displayProcessTree] (every call receives a reference to this one map),
    the node store, and a ghost log [visits] of the calls of
    [constructProcessTree] that got past the guard, in order. The program
    never reads the log; it is there to state how often a key is
    expanded. *)
Record RSt := mkRSt {
  seen : gmap Z bool;
  heap : list node;
  visits : list (Z * P)
}.

(** A state monad with failure; [None] only arises from running out of
    fuel. *)
Definition M (A : Type) : Type := RSt → option (A * RSt).

Global Instance M_ret : MRet M := λ A a s, Some (a, s).
Global Instance M_bind : MBind M := λ A B f m s,
  match m s with
  | Some (a, s') => f a s'
  | None => None
  end.

Definition out_of_fuel {A} : M A := λ _, None.

(** [seen[k]] *)
Definition seen_get (k : Z) : M bool :=
  λ s, Some (default false (seen s !! k), s).

(** [seen[k] = b] *)
Definition seen_set (k : Z) (b : bool) : M unit :=
  λ s, Some (tt, {| seen := <[k := b]> (seen s); heap := heap s; visits := visits s |}).

Definition branch (n : ptr) (meta : option string) (v : Value) : M ptr :=
  λ s, let b := length (heap s) in
       Some (b, {| seen := seen s;
                   heap := alter (addChild b) n (heap s)
                             ++ [{| Root := Some n; Meta := meta; Val := v; Nodes := [] |}];
                   visits := visits s |}).

Definition AddBranch (n : ptr) (v : Value) : M ptr := branch n None v.
Definition AddMetaBranch (n : ptr) (meta : string) (v : Value) : M ptr :=
  branch n (Some meta) v.

(** Ghost: log a call that got past the guard. *)
Definition visit (k : Z) (p : P) : M unit :=
  λ s, Some (tt, {| seen := seen s; heap := heap s; visits := visits s ++ [(k, p)] |}).

(** [for index := range l { body(l[index]) }] *)
Fixpoint forEach {A} (l : list A) (body : A → M unit) : M unit :=
  match l with
  | [] => mret tt
  | x :: l' => _ ← body x; forEach l' body
  end.

(** ** The snapshot index *)

(** The first loop of [displayProcessTree]: the value of the global
    [pstree] after it. [pstree[k]] of a missing key is the nil slice. *)
Definition buildIndex (ps : list P) : gmap Z (list P) :=
  foldl (λ pstree p,
           if negb (HasPrefix (Exec p) dcrPrefix) then pstree
           else <[PPID p := (pstree !!! PPID p) ++ [p]]> pstree)
        ∅ ps.

(** ** The tree renderer *)

(** The label of a branch that is not the bare number. *)
Definition output (ppid : Z) (process : P) : string :=
  Itoa ppid +:+ " (" +:+ Exec process +:+ ")" +:+ " {" +:+ BuildVersion process +:+ "}".

(** [constructProcessTree]. The global [pstree] is only read here and is
    an argument. The recursion of the Go function is bounded by [fuel];
    [construct_total] shows which fuel is enough. *)
Fixpoint constructProcessTree (fuel : nat) (pstree : gmap Z (list P))
    (ppid : Z) (process : P) (tree : ptr) : M unit :=
  match fuel with
  | O => out_of_fuel
  | S fuel =>
    s ← seen_get ppid;
    if s : bool then mret tt
    else
      _ ← seen_set ppid true;
      _ ← visit ppid process;
      tree ← (if negb (ppid =? PPID process) then
                if Agent process then AddMetaBranch tree "*" (VStr (output ppid process))
                else AddBranch tree (VStr (output ppid process))
              else AddBranch tree (VInt ppid));
      forEach (pstree !!! ppid)
        (λ process, constructProcessTree fuel pstree (PID process) process tree)
  end.

(** [treeprint.New()] followed by [tree.SetValue("...")]: a store with the
    root alone. *)
Definition newTree : list node :=
  [setValue (VStr "...") {| Root := None; Meta := None; Val := VStr "."; Nodes := [] |}].

Definition rootPtr : ptr := 0%nat.

Definition initRSt : RSt := {| seen := ∅; heap := newTree; visits := [] |}.

(** The second loop of [displayProcessTree]. *)
Definition renderLoop (fuel : nat) (pstree : gmap Z (list P)) (ps : list P) : M unit :=
  forEach ps (λ p,
    if negb (HasPrefix (Exec p) dcrPrefix) then mret tt
    else constructProcessTree fuel pstree (PPID p) p rootPtr).

(** Fuel that is enough for a snapshot: one more than the number of keys a
    call can mark. *)
Definition treeFuel (ps : list P) : nat := S (2 * length ps).

Definition seen_of (s : RSt) (k : Z) : bool := default false (seen s !! k).

(** The mark [*] of a branch and its value, as [constructProcessTree]
    chooses them for a call with key [ppid] and record [process]. *)
Definition nodeMeta (ppid : Z) (process : P) : option string :=
  if negb (ppid =? PPID process) then
    if Agent process then Some "*"%string else None
  else None.

Definition nodeValue (ppid : Z) (process : P) : Value :=
  if negb (ppid =? PPID process) then VStr (output ppid process) else VInt ppid.

(** The state after the guard has been passed, the key marked and the
    branch added under [tree]. *)
Definition enter (ppid : Z) (process : P) (tree : ptr) (s : RSt) : RSt :=
  {| seen := <[ppid := true]> (seen s);
     heap := alter (addChild (length (heap s))) tree (heap s)
               ++ [{| Root := Some tree; Meta := nodeMeta ppid process;
                      Val := nodeValue ppid process; Nodes := [] |}];
     visits := visits s ++ [(ppid, process)] |}.

(** What a node shows: its mark and its value. *)
Definition content (n : node) : option string * Value := (Meta n, Val n).

Definition rootContent : option string * Value := (None, VStr "...").

Definition callContent (c : Z * P) : option string * Value :=
  (nodeMeta c.1 c.2, nodeValue c.1 c.2).

(** The family records of a snapshot, in enumeration order. *)
Definition dcrOnly (ps : list P) : list P :=
  filter (λ p, HasPrefix (Exec p) dcrPrefix = true) ps.

(** The relation a loop over a bucket builds from the relation [Q] of its
    calls. *)
Fixpoint loopRel (Q : Z → P → ptr → RSt → RSt → Prop)
    (l : list P) (b : ptr) (s s' : RSt) : Prop :=
  match l with
  | [] => s' = s
  | c :: l' => ∃ s1, Q (PID c) c b s s1 ∧ loopRel Q l' b s1 s'
  end.

(** The state in which [displayProcessTree] leaves the renderer, when the
    fuel is enough. *)
Definition renderRun (fuel : nat) (ps : list P) : option RSt :=
  match renderLoop fuel (buildIndex ps) ps initRSt with
  | Some (_, s) => Some s
  | None => None
  end.

Definition nl : string := String "010"%char EmptyString.

Section Display.

(** [tree.String()] of treeprint: the text of the tree below a node. It is
    a function of the store and the node. *)
Variable treeString : list node → ptr → string.

(** [displayProcessTree]. [pstree0] is the value of the global [pstree]
    before the call; the result is its value after the call and the text
    written to standard output. *)
Definition displayProcessTree (fuel : nat) (ps : list P)
    (pstree0 : gmap Z (list P)) : option (gmap Z (list P) * string) :=
  let pstree := buildIndex ps in
  match renderLoop fuel pstree ps initRSt with
  | Some (_, s) => Some (pstree, treeString (heap s) rootPtr +:+ nl)
  | None => None
  end.

End Display.

(** ** Predicates of the specification on snapshots *)

(** Every record stands after its parent: no record at its own position or
    later has the PID that the record names as its parent. *)
Fixpoint parentFirst (fs : list P) : bool :=
  match fs with
  | [] => true
  | r :: rest => bool_decide (PPID r ∉ PID <$> (r :: rest)) && parentFirst rest
  end.

(** The parent identifiers that are not the PID of a record, without
    repetition, in enumeration order. *)
Definition rootKeys (fs : list P) : list Z :=
  remove_dups (filter (λ k, k ∉ PID <$> fs) (PPID <$> fs)).

(** What the labelled node of a record shows, and what the bare node of a
    parent identifier shows. *)
Definition recordContent (r : P) : option string * Value :=
  (if Agent r then Some "*"%string else None, VStr (output (PID r) r)).

Definition bareContent (k : Z) : option string * Value := (None, VInt k).

(** No cycle among the parent references: from every record, following
    the parent reference leaves the list after at most its length many
    steps. *)
Fixpoint leavesAfter (n : nat) (fs : list P) (k : Z) : bool :=
  match n with
  | O => false
  | S n =>
    match list_find (λ c, PID c = k) fs with
    | None => true
    | Some (_, c) => leavesAfter n fs (PPID c)
    end
  end.

Definition acyclic (fs : list P) : bool :=
  forallb (λ r, leavesAfter (S (length fs)) fs (PPID r)) fs.

(** ** List mode *)

(** The closure [max] of [processes]. *)
Definition max (i j : Z) : Z := if i >? j then i else j.

Record widths := mkWidths {
  maxPID : Z;
  maxPPID : Z;
  maxExec : Z;
  maxVersion : Z
}.

(** The loop of [processes] that computes the column widths. *)
Definition columnWidths (dcrPs : list P) : widths :=
  foldl (λ w p,
           {| maxPID := max (maxPID w) (len (Itoa (PID p)));
              maxPPID := max (maxPPID w) (len (Itoa (PPID p)));
              maxExec := max (maxExec w) (len (Exec p));
              maxVersion := max (maxVersion w) (len (BuildVersion p)) |})
        {| maxPID := 0; maxPPID := 0; maxExec := 0; maxVersion := 0 |}
        dcrPs.

Definition fmtString (w : widths) : string :=
  "%" +:+ Itoa (maxPID w) +:+ "d %" +:+ Itoa (maxPPID w) +:+ "d" +:+
  " %" +:+ Itoa (maxExec w) +:+ "s %1s %" +:+ Itoa (maxVersion w) +:+ "s %s" +:+ nl.

Fixpoint spaces (n : nat) : string :=
  match n with
  | O => EmptyString
  | S n => String " " (spaces n)
  end.

(** [utf8.RuneCountInString], which [fmt] uses to measure a text against
    a width, with the tables [first] and [acceptRanges] of package
    [utf8]. A byte that starts no well-formed encoding is one rune. *)
Definition byteOf (c : ascii) : Z := Z.of_nat (nat_of_ascii c).

Definition RuneSelf : Z := 128.
Definition locb : Z := 128.
Definition hicb : Z := 191.

(** The entry of [first] for a byte: the high four bits are an index into
    [acceptRanges], the low three bits the length of the encoding; [xx]
    (241) marks a byte that starts no encoding. *)
Definition xx : Z := 241.

Definition utf8_first (c : Z) : Z :=
  if c <? 128 then 240
  else if c <? 194 then xx
  else if c <? 224 then 2
  else if c =? 224 then 19
  else if c <? 237 then 3
  else if c =? 237 then 35
  else if c <? 240 then 3
  else if c =? 240 then 52
  else if c <? 244 then 4
  else if c =? 244 then 68
  else xx.

Definition utf8_acceptRanges (i : Z) : Z * Z :=
  match i with
  | 0 => (locb, hicb)
  | 1 => (160, hicb)
  | 2 => (locb, 159)
  | 3 => (144, hicb)
  | 4 => (locb, 143)
  | _ => (0, 0)
  end.

(** The number of bytes that the loop of [RuneCountInString] steps over
    at the byte [c] followed by [rest]. *)
Definition runeSize (c : ascii) (rest : string) : nat :=
  if byteOf c <? RuneSelf then 1%nat
  else
    let x := utf8_first (byteOf c) in
    if x =? xx then 1%nat
    else
      let size := Z.land x 7 in
      if 1 + len rest <? size then 1%nat
      else
        let accept := utf8_acceptRanges (Z.shiftr x 4) in
        match rest with
        | String c1 rest1 =>
          if (byteOf c1 <? accept.1) || (accept.2 <? byteOf c1) then 1%nat
          else if size =? 2 then 2%nat
          else
            match rest1 with
            | String c2 rest2 =>
              if (byteOf c2 <? locb) || (hicb <? byteOf c2) then 1%nat
              else if size =? 3 then 3%nat
              else
                match rest2 with
                | String c3 _ =>
                  if (byteOf c3 <? locb) || (hicb <? byteOf c3) then 1%nat else 4%nat
                | EmptyString => 1%nat
                end
            | EmptyString => 1%nat
            end
        | EmptyString => 1%nat
        end.

(** The loop of [RuneCountInString]; [skip] counts the bytes of the
    current rune that are still to be stepped over. *)
Fixpoint runeCountFrom (skip : nat) (s : string) : Z :=
  match s with
  | EmptyString => 0
  | String c rest =>
    match skip with
    | S k => runeCountFrom k rest
    | O => 1 + runeCountFrom (pred (runeSize c rest)) rest
    end
  end.

Definition RuneCountInString (s : string) : Z := runeCountFrom 0 s.

(** What [fmt] writes for an operand under a width that it has accepted:
    the text, with spaces on the left while it has fewer runes than the
    width. The text is never cut. *)
Definition padLeft (w : Z) (s : string) : string :=
  spaces (Z.to_nat (w - RuneCountInString s)) +:+ s.

(** The operands of [fmt.Printf] in [processes]: numbers, under the verb
    [%d], and texts, under [%s]. *)
Inductive arg :=
| AInt (n : Z)
| AStr (s : string).

Definition argVerb (a : arg) : string :=
  match a with
  | AInt _ => "d"
  | AStr _ => "s"
  end.

Definition argType (a : arg) : string :=
  match a with
  | AInt _ => "int"
  | AStr _ => "string"
  end.

Definition argText (a : arg) : string :=
  match a with
  | AInt n => Itoa n
  | AStr s => s
  end.

(** One verb of a format with the operand it takes: the width written
    before the verb, if any, and the literal text that follows it. *)
Record directive := mkDirective {
  width : option Z;
  operand : arg;
  after : string
}.

Definition widthText (w : option Z) : string :=
  match w with
  | Some n => Itoa n
  | None => EmptyString
  end.

(** The format that a list of directives spells. *)
Definition formatOf (ds : list directive) : string :=
  foldr (λ d r, "%" +:+ widthText (width d) +:+ argVerb (operand d) +:+ after d +:+ r)
        EmptyString ds.

(** [tooLarge] of package [fmt]. *)
Definition tooLarge (x : Z) : bool := (1000000 <? x) || (x <? -1000000).

(** [parsenum] of package [fmt] reads the width digit by digit,
    [num = num*10 + digit], and tests before each digit the number read so
    far: [if tooLarge(num) { return 0, false, end }]. On the decimal text
    of [w] the largest number so tested is [w / 10]. When the test
    succeeds, the position returned is the end of the format: no verb is
    left, [%!(NOVERB)] is written and the operands not yet used are listed
    (so [fmt.Sprintf("%2147483648d", 42)] is [%!(NOVERB)%!(EXTRA int=42)]). *)
Definition widthRefused (w : Z) : bool := tooLarge (w / 10).

(** The list [%!(EXTRA type=value, ...)] of the operands that the format
    has not used. *)
Fixpoint extraList (a : list arg) : string :=
  match a with
  | [] => EmptyString
  | x :: r =>
    argType x +:+ "=" +:+ argText x +:+
    match r with
    | [] => EmptyString
    | _ => ", " +:+ extraList r
    end
  end.

Definition extra (a : list arg) : string :=
  match a with
  | [] => EmptyString
  | _ => "%!(EXTRA " +:+ extraList a +:+ ")"
  end.

(** [fmt.Sprintf] on the format of a list of directives. A leading [0] of
    a width is a flag, so that the width [0] is no width. *)
Fixpoint Sprintf (ds : list directive) : string :=
  match ds with
  | [] => EmptyString
  | d :: rest =>
    match width d with
    | Some w =>
      if widthRefused w then "%!(NOVERB)" +:+ extra (operand <$> ds)
      else padLeft w (argText (operand d)) +:+ after d +:+ Sprintf rest
    | None => argText (operand d) +:+ after d +:+ Sprintf rest
    end
  end.

(** The verbs of [fmtString] with the operands of the call
    [fmt.Printf(fmtString, p.PID, p.PPID, p.Exec, agentStar,
    p.BuildVersion, p.Path)]. *)
Definition rowDirectives (w : widths) (p : P) : list directive :=
  let agentStar := if Agent p then "*"%string else " "%string in
  [ mkDirective (Some (maxPID w)) (AInt (PID p)) " ";
    mkDirective (Some (maxPPID w)) (AInt (PPID p)) " ";
    mkDirective (Some (maxExec w)) (AStr (Exec p)) " ";
    mkDirective (Some 1) (AStr agentStar) " ";
    mkDirective (Some (maxVersion w)) (AStr (BuildVersion p)) " ";
    mkDirective None (AStr (Path p)) nl ].

(** What the call of [fmt.Printf] writes for a record. *)
Definition printRow (w : widths) (p : P) : string :=
  Sprintf (rowDirectives w p).

(** [processes]: the writes to standard output. *)
Definition processes (ps : list P) : list string :=
  let dcrPs := dcrOnly ps in
  let w := columnWidths dcrPs in
  printRow w <$> dcrPs.

(** A text of ASCII bytes only. *)
Fixpoint isAscii (s : string) : bool :=
  match s with
  | EmptyString => true
  | String c rest => (byteOf c <? RuneSelf) && isAscii rest
  end.

(** The column widths as the specification words them: for each column
    the largest display length of its values, a display length being a
    number of runes. *)
Definition displayWidths (dcrPs : list P) : widths :=
  foldl (λ w p,
           {| maxPID := max (maxPID w) (RuneCountInString (Itoa (PID p)));
              maxPPID := max (maxPPID w) (RuneCountInString (Itoa (PPID p)));
              maxExec := max (maxExec w) (RuneCountInString (Exec p));
              maxVersion := max (maxVersion w) (RuneCountInString (BuildVersion p)) |})
        {| maxPID := 0; maxPPID := 0; maxExec := 0; maxVersion := 0 |}
        dcrPs.

Definition widths_are_display_lengths (ps : list P) : Prop :=
  columnWidths (dcrOnly ps) = displayWidths (dcrOnly ps).

(** No width of the row format is refused by [fmt]. *)
Definition widthsAccepted (w : widths) : bool :=
  negb (widthRefused (maxPID w)) && negb (widthRefused (maxPPID w)) &&
  negb (widthRefused (maxExec w)) && negb (widthRefused (maxVersion w)).

(** ** The name table *)

(** [init]: the value of the global [nameToPid] after it. *)
Definition init (ps : list P) : gmap string Z :=
  foldl (λ nameToPid p,
           if negb (HasPrefix (Exec p) dcrPrefix) then nameToPid
           else match nameToPid !! Exec p with
                | Some _ => <[Exec p := -1]> nameToPid
                | None => <[Exec p := PID p]> nameToPid
                end)
        ∅ ps.

(** ** The command line *)

(** [strconv.Atoi]: an optional sign and then decimal digits, at least
    one, with a value in the range of [int]. *)
Definition digitValue (c : ascii) : option Z :=
  let n := Z.of_nat (nat_of_ascii c) in
  if (48 <=? n) && (n <=? 57) then Some (n - 48) else None.

Fixpoint parseDigits (s : string) (acc : Z) : option Z :=
  match s with
  | EmptyString => Some acc
  | String c s' =>
    match digitValue c with
    | Some d => parseDigits s' (acc * 10 + d)
    | None => None
    end
  end.

Definition Atoi (s : string) : option Z :=
  match s with
  | EmptyString => None
  | String c rest =>
    let neg := Ascii.eqb c "-" in
    let body := if neg || Ascii.eqb c "+" then rest else s in
    match body with
    | EmptyString => None
    | _ =>
      match parseDigits body 0 with
      | Some n =>
        let v := if neg then - n else n in
        if (- 2 ^ 63 <=? v) && (v <=? 2 ^ 63 - 1) then Some v else None
      | None => None
      end
    end
  end.

Definition dq : string := String "034"%char EmptyString.
Definition tab : string := String "009"%char EmptyString.

Definition helpText : string :=
  "dcrps is a tool to list and diagnose Decred Go processes." +:+ nl +:+
  nl +:+
  "dcrps <" +:+ dq +:+ "help" +:+ dq +:+ "|" +:+ dq +:+ "tree" +:+ dq +:+ ">" +:+ nl +:+
  "dcrps <cmd> <exec|pid|addr> ..." +:+ nl +:+
  "dcrps <exec|pid> # displays process info" +:+ nl +:+
  nl +:+
  "Commands with no argument:" +:+ nl +:+
  "    help        Displays this message." +:+ nl +:+
  "    tree        Displays process tree." +:+ nl +:+
  nl +:+
  "Commands with <exec|pid|addr> argument:" +:+ nl +:+
  "    stack       Prints the stack trace." +:+ nl +:+
  "    gc          Runs the garbage collector and blocks until successful." +:+ nl +:+
  "    setgc" +:+ tab +:+ "    Sets the garbage collection target percentage." +:+ nl +:+
  "    memstats    Prints the allocation and garbage collection stats." +:+ nl +:+
  "    version     Prints the Go version used to build the program." +:+ nl +:+
  "    stats       Prints the vital runtime stats." +:+ nl +:+
  "    trace       Runs the runtime tracer for 5 secs and launches " +:+ dq +:+ "go tool trace" +:+ dq +:+ "." +:+ nl +:+
  "    pprof-heap  Reads the heap profile and launches " +:+ dq +:+ "go tool pprof" +:+ dq +:+ "." +:+ nl +:+
  "    pprof-cpu   Reads the CPU profile and launches " +:+ dq +:+ "go tool pprof" +:+ dq +:+ "." +:+ nl +:+
  nl +:+
  "All commands with a <exec|pid|addr> argument require the agent running on the Go" +:+ nl +:+
  "process. The symbol " +:+ dq +:+ "*" +:+ dq +:+ " next to the process name indicates the process runs the" +:+ nl +:+
  "agent.".

(** What the program does to the outside: writes to the two streams and
    calls of the functions that are not followed further here. *)
Inductive event (Addr : Type) :=
| Stdout (s : string)
| Stderr (s : string)
| CallProcesses
| CallDisplayProcessTree
| CallCmd (cmd : string) (addr : Addr) (params : list string).

Arguments Stdout {Addr} s.
Arguments Stderr {Addr} s.
Arguments CallProcesses {Addr}.
Arguments CallDisplayProcessTree {Addr}.
Arguments CallCmd {Addr} cmd addr params.

(** A computation either goes on with a value or has left the program
    through [os.Exit]. *)
Inductive result (A : Type) :=
| Done (a : A)
| Exited (code : Z).

Arguments Done {A} a.
Arguments Exited {A} code.

Definition IO (Addr A : Type) : Type := list (event Addr) → result A * list (event Addr).

Global Instance IO_ret Addr : MRet (IO Addr) := λ A a t, (Done a, t).
Global Instance IO_bind Addr : MBind (IO Addr) := λ A B f m t,
  match m t with
  | (Done a, t') => f a t'
  | (Exited code, t') => (Exited code, t')
  end.

Definition emit {Addr} (e : event Addr) : IO Addr unit := λ t, (Done tt, t ++ [e]).

Definition os_Exit {Addr A} (code : Z) : IO Addr A := λ t, (Exited code, t).

(** [usage] *)
Definition usage {Addr} (msg : string) : IO Addr unit :=
  _ ← (if negb (String.eqb msg "") then emit (Stdout ("dcrps: " +:+ msg +:+ nl))
       else mret tt);
  _ ← emit (Stderr (helpText +:+ nl));
  os_Exit 1.

(** ** The inspector of one process *)

(** The conversion [int32(pid)] of a Go [int]: the low 32 bits, read as a
    signed number. *)
Definition int32 (n : Z) : Z := (n + 2 ^ 31) mod 2 ^ 32 - 2 ^ 31.

(** The addresses and the connections of gopsutil, with the fields that
    [processInfo] prints. *)
Record NetAddr := mkNetAddr {
  IP : string;
  Port : Z
}.

Record ConnectionStat := mkConnectionStat {
  Laddr : NetAddr;
  Raddr : NetAddr;
  Status : string
}.

(** [for _, x := range l { body(x) }] in a computation that writes. *)
Fixpoint forEachIO {Addr A} (l : list A) (body : A → IO Addr unit) : IO Addr unit :=
  match l with
  | [] => mret tt
  | x :: l' => _ ← body x; forEachIO l' body
  end.

(** [if v, err := q; err == nil { fmt.Printf(...) }]: the line is written
    when the query has a value. *)
Definition printIf {Addr A} (q : option A) (line : A → string) : IO Addr unit :=
  match q with
  | Some v => emit (Stdout (line v))
  | None => mret tt
  end.

Section ProcessInfo.

(** The percentages are floating-point numbers; their type and the text
    that the verb [%.3f] gives for them are taken as they come. *)
Variable float32 float64 : Type.
Variable fmt3f32 : float32 → string.
Variable fmt3f64 : float64 → string.

(** What gopsutil answers about a process: each query gives a value or
    fails. [Parent] is the PID of the parent. *)
Record Process := mkProcess {
  Parent : option Z;
  NumThreads : option Z;
  MemoryPercent : option float32;
  CPUPercent : option float64;
  Username : option string;
  Cmdline : option string;
  Connections : option (list ConnectionStat)
}.

(** [process.NewProcess]: the process of a PID, or an error. *)
Variable NewProcess : Z → Process + string.

(** What the standard logger writes before a message (date and time). *)
Variable logPrefix : string.

Variable Addr : Type.

Definition connectionLine (conn : ConnectionStat) : string :=
  "local/remote:" +:+ tab +:+
  IP (Laddr conn) +:+ ":" +:+ Itoa (Port (Laddr conn)) +:+ " <-> " +:+
  IP (Raddr conn) +:+ ":" +:+ Itoa (Port (Raddr conn)) +:+
  " (" +:+ Status conn +:+ ")" +:+ nl.

(** [processInfo] *)
Definition processInfo (pid : Z) : IO Addr unit :=
  match NewProcess (int32 pid) with
  | inr err =>
    _ ← emit (Stderr (logPrefix +:+ "Cannot read process info: " +:+ err +:+ nl));
    os_Exit 1
  | inl p =>
    _ ← printIf (Parent p) (λ v, "parent PID:" +:+ tab +:+ Itoa v +:+ nl);
    _ ← printIf (NumThreads p) (λ v, "threads:" +:+ tab +:+ Itoa v +:+ nl);
    _ ← printIf (MemoryPercent p)
          (λ v, "memory usage:" +:+ tab +:+ fmt3f32 v +:+ "%" +:+ nl);
    _ ← printIf (CPUPercent p)
          (λ v, "cpu usage:" +:+ tab +:+ fmt3f64 v +:+ "%" +:+ nl);
    _ ← printIf (Username p) (λ v, "username:" +:+ tab +:+ v +:+ nl);
    _ ← printIf (Cmdline p) (λ v, "cmd+args:" +:+ tab +:+ v +:+ nl);
    match Connections p with
    | Some v =>
      if Z.of_nat (length v) >? 0 then
        forEachIO v (λ conn, emit (Stdout (connectionLine conn)))
      else mret tt
    | None => mret tt
    end
  end.

(** The number of queries of a process that have a value, a connection
    counting as one. *)
Definition answers (p : Process) : nat :=
  (length (option_list (Parent p)) + length (option_list (NumThreads p)) +
   length (option_list (MemoryPercent p)) + length (option_list (CPUPercent p)) +
   length (option_list (Username p)) + length (option_list (Cmdline p)) +
   length (default [] (Connections p)))%nat.

End ProcessInfo.

(** An event that is a write to standard output. *)
Definition isStdout {Addr} (e : event Addr) : Prop :=
  match e with
  | Stdout _ => True
  | _ => False
  end.

Section Main.

(** The process library that [processInfo] asks. *)
Variable float32 float64 : Type.
Variable fmt3f32 : float32 → string.
Variable fmt3f64 : float64 → string.
Variable NewProcess : Z → Process float32 float64 + string.
Variable logPrefix : string.

(** [net.TCPAddr], the table [cmds] and [targetToAddr] are declared
    outside [main.go]. A handler of [cmds] returns its error, if any. *)
Variable Addr : Type.
Variable cmds : gmap string (Addr → list string → option string).
Variable targetToAddr : string → Addr + string.

(** The global [nameToPid], as [init] has left it. *)
Variable nameToPid : gmap string Z.

(** [main] from the check of the second argument on. [fn] is the handler
    found in [cmds], nil when there is none; a call of the nil handler
    panics, which ends the program with status 2. *)
Definition dispatch (cmd : string) (fn : option (Addr → list string → option string))
    (Args : list string) : IO Addr unit :=
  _ ← (if Z.of_nat (length Args) <? 3 then
         _ ← usage "Missing PID or address."; os_Exit 1
       else mret tt);
  match targetToAddr (default EmptyString (Args !! 2%nat)) with
  | inr err =>
    _ ← emit (Stderr ("Couldn't resolve addr or pid " +:+ default EmptyString (Args !! 2%nat)
                      +:+ " to TCPAddress: " +:+ err +:+ nl));
    os_Exit 1
  | inl addr =>
    let params := drop 3 Args in
    match fn with
    | None => os_Exit 2
    | Some f =>
      _ ← emit (CallCmd cmd addr params);
      match f addr params with
      | Some err => _ ← emit (Stderr (err +:+ nl)); os_Exit 1
      | None => mret tt
      end
    end
  end.

(** [main]; [Args] is [os.Args]. [processes] and [displayProcessTree]
    always return to [main], and their calls are recorded as events;
    [processInfo] may leave the program, so that it is run in place. *)
Definition main (Args : list string) : IO Addr unit :=
  let processInfo := processInfo float32 float64 fmt3f32 fmt3f64 NewProcess logPrefix Addr in
  if Z.of_nat (length Args) <? 2 then emit CallProcesses
  else
    let cmd := default EmptyString (Args !! 1%nat) in
    match Atoi cmd with
    | Some pid => processInfo pid
    | None =>
      _ ← (if String.eqb cmd "help" then usage "" else mret tt);
      if String.eqb cmd "tree" then emit CallDisplayProcessTree
      else
        match cmds !! cmd with
        | Some fn => dispatch cmd (Some fn) Args
        | None =>
          match nameToPid !! cmd with
          | Some pid => processInfo pid
          | None => _ ← usage "unknown subcommand"; dispatch cmd None Args
          end
        end
    end.

End Main.

(** ** Notions used to state the properties of the renderer *)

(** Every key marked in [s] is marked in [s']. *)
Definition seen_sub (s s' : RSt) : Prop :=
  ∀ k, seen_of s k = true → seen_of s' k = true.

(** The keys a call can receive for a snapshot: the parent identifiers and
    the PIDs of its family records. *)
Definition keysOf (ps : list P) : gset Z :=
  list_to_set ((PID <$> dcrOnly ps) ++ (PPID <$> dcrOnly ps)).

(** The number of keys of [U] that are not yet marked: what decreases
    along the recursion. *)
Definition unseen (U : gset Z) (s : RSt) : nat :=
  size (filter (λ k, seen_of s k = false) U).

(** The log and the store agree with the marks: no key is logged twice,
    the logged keys are the marked ones, and the store holds the root
    followed by one node for each logged call, in the order of the calls,
    showing what the call chose. *)
Record consistent (s : RSt) : Prop := {
  visits_nodup : NoDup (visits s).*1;
  visits_seen : ∀ k, seen_of s k = true ↔ k ∈ (visits s).*1;
  heap_visits : content <$> heap s = rootContent :: (callContent <$> visits s)
}.

(** A call logged for a snapshot: the record is a family record of the
    snapshot and the key is its parent identifier or its PID. *)
Definition visitOf (fs : list P) (c : Z * P) : Prop :=
  c.2 ∈ fs ∧ (c.1 = PPID c.2 ∨ c.1 = PID c.2).

(** The reading of the label rule by self-parenting: in a final state, the
    node of a logged call shows a bare number exactly when the record of
    the call is its own parent. *)
Definition bare_iff_self_parented (s : RSt) : Prop :=
  ∀ i k p nd, visits s !! i = Some (k, p) → heap s !! S i = Some nd →
    ((∃ n, Val nd = VInt n) ↔ PPID p = PID p).

(** The reading of the mark rule by the agent flag alone: in a final
    state, the node of a logged call is starred exactly when the record of
    the call has the agent flag. *)
Definition star_iff_agent (s : RSt) : Prop :=
  ∀ i k p nd, visits s !! i = Some (k, p) → heap s !! S i = Some nd →
    (Meta nd = Some "*"%string ↔ Agent p = true).

(** The marks are closed under the index: the PIDs of the records in the
    bucket of a marked key are marked. *)
Definition closed (pstree : gmap Z (list P)) (s : RSt) : Prop :=
  ∀ k, seen_of s k = true → ∀ c, c ∈ pstree !!! k → seen_of s (PID c) = true.

(** What a call returns with: more marks, its own key among them, and the
    buckets of the keys it has marked all marked. *)
Definition expands (pstree : gmap Z (list P)) (k : Z) (s s' : RSt) : Prop :=
  seen_sub s s' ∧ seen_of s' k = true ∧
  ∀ k', seen_of s k' = false → seen_of s' k' = true →
        ∀ c, c ∈ pstree !!! k' → seen_of s' (PID c) = true.

(** A logged call of a parent-first snapshot: the call of a record with
    its own PID, or the call with a parent identifier that is not the PID
    of a record. *)
Definition ownOrRoot (fs : list P) (c : Z * P) : Prop :=
  c.2 ∈ fs ∧ (c.1 = PID c.2 ∨ (c.1 = PPID c.2 ∧ c.1 ∉ PID <$> fs)).

(** What the node of a key shows in a parent-first snapshot. *)
Definition keyContent (fs : list P) (k : Z) : option string * Value :=
  match list_find (λ r, PID r = k) fs with
  | Some (_, r) => recordContent r
  | None => bareContent k
  end.

(** The invariant of the loop of [displayProcessTree] over a parent-first
    snapshot, when the records [done] have had their top-level call. *)
Record topInv (pstree : gmap Z (list P)) (fs done : list P) (s : RSt) : Prop := {
  top_consistent : consistent s;
  top_closed : closed pstree s;
  top_done : ∀ r, r ∈ done → seen_of s (PPID r) = true;
  top_visits : Forall (ownOrRoot fs) (visits s)
}.

(** A logged call whose key is not the PID of its record is the
    top-level call of the first record of [done] with this parent
    identifier. *)
Definition firstOf (done : list P) (c : Z * P) : Prop :=
  c.1 = PID c.2 ∨
  ∃ d1 d2, done = d1 ++ c.2 :: d2 ∧ c.1 = PPID c.2 ∧ ∀ r, r ∈ d1 → PPID r ≠ c.1.

(** The records below an identifier [k]: the records with the parent
    identifier [k] and the records whose parent is below [k]. *)
Inductive below (fs : list P) (k : Z) : P → Prop :=
| below_child c : c ∈ fs → PPID c = k → below fs k c
| below_parent c d : below fs k c → d ∈ fs → PPID d = PID c → below fs k d.

(** The rule of the shared parent as the specification words it: two
    family records with the same parent identifier, which is not the PID
    of a family record, have their labelled nodes under one bare node of
    this identifier. *)
Definition siblings_rendered (ps : list P) (s : RSt) : Prop :=
  ∀ a b, a ∈ dcrOnly ps → b ∈ dcrOnly ps → PID a ≠ PID b → PPID a = PPID b →
    PPID a ∉ PID <$> dcrOnly ps →
    ∃ j ia ib nk na nb,
      heap s !! j = Some nk ∧ content nk = bareContent (PPID a) ∧
      heap s !! ia = Some na ∧ content na = recordContent a ∧ Root na = Some j ∧
      heap s !! ib = Some nb ∧ content nb = recordContent b ∧ Root nb = Some j.

(** The count of the completeness property as the specification words it:
    as many nodes below the root as family records. *)
Definition nodes_match_records (ps : list P) (s : RSt) : Prop :=
  length (tail (heap s)) = length (dcrOnly ps).

(** ** Snapshots used as examples *)

(** Scenario A of the specification: a daemon and its wallet child. *)
Definition scenarioA : list P :=
  [ mkP 1 0 "dcrd" "/usr/bin/dcrd" "v1.4.0" false;
    mkP 2 1 "dcrwallet" "/usr/bin/dcrwallet" "v1.4.0" true ].

(** One family record whose parent is outside the snapshot. *)
Definition loneRecord : P := mkP 1 0 "dcrd" "/usr/bin/dcrd" "v1.4.0" false.

(** Scenario B of the specification: a record that is its own parent, here
    with the agent. *)
Definition selfParented : P := mkP 5 5 "dcrd" "/usr/bin/dcrd" "v1.4.0" true.

(** A child enumerated before its parent. *)
Definition childFirst : list P :=
  [ mkP 2 1 "dcrwallet" "/usr/bin/dcrwallet" "v1.4.0" false;
    mkP 1 5 "dcrd" "/usr/bin/dcrd" "v1.4.0" false ].

(** Two records that name each other as parent, and a process outside the
    family. *)
Definition cyclicPair : list P :=
  [ mkP 3 4 "dcrd" "/usr/bin/dcrd" "v1.4.0" false;
    mkP 9 1 "bash" "/bin/bash" "" false;
    mkP 4 3 "dcrwallet" "/usr/bin/dcrwallet" "v1.4.0" true ].

(** Two records with the parent identifier 0, the first of them with a
    child: listed parent first, and with the child listed first. *)
Definition siblingsWithChild : list P :=
  [ mkP 1 0 "dcrd" "/usr/bin/dcrd" "v1.4.0" false;
    mkP 3 1 "dcrctl" "/usr/bin/dcrctl" "v1.4.0" false;
    mkP 2 0 "dcrwallet" "/usr/bin/dcrwallet" "v1.4.0" true ].

Definition childBeforeSiblings : list P :=
  [ mkP 3 1 "dcrctl" "/usr/bin/dcrctl" "v1.4.0" false;
    mkP 1 0 "dcrd" "/usr/bin/dcrd" "v1.4.0" false;
    mkP 2 0 "dcrwallet" "/usr/bin/dcrwallet" "v1.4.0" true ].

(** A family process whose name ends in a letter of two bytes (U+00E9),
    next to one with a plain name. *)
Definition accentedName : list P :=
  [ mkP 7 1 ("dcrd" +:+ String "195" (String "169" EmptyString)) "/usr/bin/dcrd" "v1.4.0" false;
    mkP 1234 1 "dcrd" "/usr/local/bin/dcrd" "v1.4.0" true ].

(** The final state of the render of a snapshot, with the fuel of
    [treeFuel]. *)
Definition finalState (ps : list P) : RSt :=
  default initRSt (renderRun (treeFuel ps) ps).

(** ** Further notions for the renderer *)

(** The store is a tree below node 0: the parent of a node is an earlier
    node, node 0 alone has none, and the children list of a node holds, in
    increasing order, exactly the nodes that name it as parent. *)
Definition storeWf (h : list node) : Prop :=
  ∀ i nd, h !! i = Some nd →
    match Root nd with
    | None => i = 0%nat
    | Some par => (par < i)%nat
    end ∧
    Nodes nd = filter (λ j, h !! j ≫= Root = Some i) (seq 0 (length h)).

(** The node reached from node [i] by [n] steps to the parent. *)
Fixpoint ancestorAt (n : nat) (h : list node) (i : nat) : option nat :=
  match n with
  | O => Some i
  | S n =>
    match h !! i ≫= Root with
    | Some par => ancestorAt n h par
    | None => None
    end
  end.

(** How a call is made: a top-level call, under the top node with the
    parent identifier of its record as key, or a call from the bucket loop
    of the [j]-th logged call, under the node of that call, with the PID of
    its record as key, the key of that call being the parent identifier of
    the record. *)
Definition calledFor (k : Z) (p : P) (t : ptr) (s : RSt) : Prop :=
  (t = 0%nat ∧ k = PPID p) ∨
  (∃ j kp pp, t = S j ∧ visits s !! j = Some (kp, pp) ∧
              kp = PPID p ∧ k = PID p ∧ seen_of s kp = true).

(** Where the node of a logged call hangs: under the top node when the key
    is the parent identifier of the record, and else under the node of the
    logged call whose key is the parent identifier of the record. *)
Definition hangsRight (s : RSt) : Prop :=
  ∀ i k p r, visits s !! i = Some (k, p) → (Root <$> heap s) !! S i = Some r →
    (r = Some 0%nat ∧ k = PPID p) ∨
    (∃ j kp pp, r = Some (S j) ∧ visits s !! j = Some (kp, pp) ∧
                kp = PPID p ∧ k = PID p ∧ k ≠ PPID p).

(** ** The order of the children *)

(** The logged calls, each with the parent of its node. *)
Definition pairs (s : RSt) : list ((Z * P) * option ptr) :=
  zip (visits s) (tail (Root <$> heap s)).

(** The calls of [ext] whose nodes hang under node [m], in the order in
    which the nodes were added. *)
Definition kidsOf (m : nat) (ext : list ((Z * P) * option ptr)) : list (Z * P) :=
  (filter (λ e, e.2 = Some m) ext).*1.

(** The relation that a sequence of calls under the node [b] builds from
    the relation [Q] of the calls. *)
Fixpoint callsRel (Q : Z → P → ptr → RSt → RSt → Prop)
    (calls : list (Z * P)) (b : ptr) (s s' : RSt) : Prop :=
  match calls with
  | [] => s' = s
  | c :: l => ∃ s1, Q c.1 c.2 b s s1 ∧ callsRel Q l b s1 s'
  end.

(** What a call with key [k] and record [p] under node [t] adds to the
    log: nothing, or first its own call under [t]; parents that precede
    their children; among the nodes that were there before, a child for
    [t] alone; and for each node it adds, children that are calls of
    records of the bucket of the key of the node, in the order of the
    bucket. *)
Definition callOutcome (pstree : gmap Z (list P)) (k : Z) (p : P) (t : ptr)
    (s s' : RSt) : Prop :=
  ∃ ext,
    pairs s' = pairs s ++ ext ∧ consistent s' ∧
    (ext = [] ∨ ∃ rest, ext = ((k, p), Some t) :: rest) ∧
    (∀ q e, ext !! q = Some e →
       ∃ m, e.2 = Some m ∧ (m < length (heap s) + q)%nat) ∧
    (∀ m, (m < length (heap s))%nat →
       kidsOf m ext = if decide (m = t) then take 1 ext.*1 else []) ∧
    (∀ i c r, ext !! i = Some (c, r) →
       ∃ cs, cs `sublist_of` (pstree !!! c.1) ∧
             kidsOf (length (heap s) + i) ext = (λ x, (PID x, x)) <$> cs).

(** The same for a sequence of calls under node [b]. *)
Definition callsOutcome (pstree : gmap Z (list P)) (calls : list (Z * P)) (b : ptr)
    (s s' : RSt) : Prop :=
  ∃ ext,
    pairs s' = pairs s ++ ext ∧ consistent s' ∧
    (∀ q e, ext !! q = Some e →
       ∃ m, e.2 = Some m ∧ (m < length (heap s) + q)%nat) ∧
    (∀ m, (m < length (heap s))%nat → m ≠ b → kidsOf m ext = []) ∧
    kidsOf b ext `sublist_of` calls ∧
    (∀ i c r, ext !! i = Some (c, r) →
       ∃ cs, cs `sublist_of` (pstree !!! c.1) ∧
             kidsOf (length (heap s) + i) ext = (λ x, (PID x, x)) <$> cs).

(** * Properties *)

Section Renderer.

Variable pstree : gmap Z (list P).

Lemma construct_unfold fuel ppid process tree s :
  constructProcessTree (S fuel) pstree ppid process tree s =
  if seen_of s ppid then Some (tt, s)
  else forEach (pstree !!! ppid)
         (λ c, constructProcessTree fuel pstree (PID c) c (length (heap s)))
         (enter ppid process tree s).
Proof.
  unfold seen_of. simpl. unfold mbind, M_bind, seen_get. simpl.
  destruct (default false (seen s !! ppid)); [reflexivity|].
  unfold enter, nodeMeta, nodeValue.
  destruct (negb (ppid =? PPID process)); [destruct (Agent process)|]; reflexivity.
Qed.

(** Induction over the calls of [constructProcessTree]: a relation that
    holds for a skipped call, and for a call that passes the guard whenever
    it holds for the calls of its loop, holds for every call that
    returns. *)
Lemma construct_rule (Q : Z → P → ptr → RSt → RSt → Prop) :
  (∀ k p t s, seen_of s k = true → Q k p t s s) →
  (∀ k p t s s', seen_of s k = false →
     loopRel Q (pstree !!! k) (length (heap s)) (enter k p t s) s' →
     Q k p t s s') →
  ∀ fuel k p t s s',
    constructProcessTree fuel pstree k p t s = Some (tt, s') → Q k p t s s'.
Proof.
  intros Hskip Hpass. induction fuel as [|fuel IH]; intros k p t s s' Hrun.
  - discriminate.
  - rewrite construct_unfold in Hrun.
    destruct (seen_of s k) eqn:Hk.
    + injection Hrun as <-. by apply Hskip.
    + apply Hpass; [done|].
      generalize dependent (enter k p t s). generalize (length (heap s)).
      induction (pstree !!! k) as [|c l IHl]; intros b s0 Hrun; simpl in *.
      * by injection Hrun as <-.
      * unfold mbind, M_bind in Hrun.
        destruct (constructProcessTree fuel pstree (PID c) c b s0) as [[[] s1]|] eqn:Hc;
          [|discriminate].
        exists s1. split; [by apply IH|by apply IHl].
Qed.

End Renderer.

(** ** The snapshot index *)

Lemma dcrOnly_cons p ps :
  dcrOnly (p :: ps) =
  if HasPrefix (Exec p) dcrPrefix then p :: dcrOnly ps else dcrOnly ps.
Proof.
  unfold dcrOnly. rewrite filter_cons.
  destruct (HasPrefix (Exec p) dcrPrefix); by case_decide.
Qed.

Lemma elem_of_dcrOnly p ps :
  p ∈ dcrOnly ps ↔ p ∈ ps ∧ HasPrefix (Exec p) dcrPrefix = true.
Proof. unfold dcrOnly. rewrite list_elem_of_filter. tauto. Qed.

Lemma dcrOnly_idemp ps : dcrOnly (dcrOnly ps) = dcrOnly ps.
Proof.
  induction ps as [|p ps IH]; [done|].
  rewrite dcrOnly_cons. destruct (HasPrefix (Exec p) dcrPrefix) eqn:Hp; [|done].
  by rewrite dcrOnly_cons, Hp, IH.
Qed.

(** The loop that fills [pstree], started from any map [m]. *)
Lemma buildIndex_from (ps : list P) (m : gmap Z (list P)) (k : Z) :
  foldl (λ pstree p,
           if negb (HasPrefix (Exec p) dcrPrefix) then pstree
           else <[PPID p := (pstree !!! PPID p) ++ [p]]> pstree) m ps !! k =
  match filter (λ p, PPID p = k) (dcrOnly ps) with
  | [] => m !! k
  | l => Some ((m !!! k) ++ l)
  end.
Proof.
  revert m. induction ps as [|p ps IH]; intros m; [done|].
  simpl. rewrite IH, dcrOnly_cons. clear IH.
  destruct (HasPrefix (Exec p) dcrPrefix); simpl; [|done].
  rewrite filter_cons. case_decide as Hk.
  - subst k. rewrite lookup_insert_eq, lookup_total_insert_eq.
    destruct (filter _ (dcrOnly ps)); [done|]. by rewrite <- app_assoc.
  - by rewrite lookup_insert_ne, lookup_total_insert_ne.
Qed.

Lemma buildIndex_lookup (ps : list P) (k : Z) :
  buildIndex ps !! k =
  match filter (λ p, PPID p = k) (dcrOnly ps) with
  | [] => None
  | l => Some l
  end.
Proof. unfold buildIndex. rewrite buildIndex_from. by destruct (filter _ _). Qed.

Lemma buildIndex_bucket (ps : list P) (k : Z) :
  buildIndex ps !!! k = filter (λ p, PPID p = k) (dcrOnly ps).
Proof.
  rewrite lookup_total_alt, buildIndex_lookup. by destruct (filter _ _).
Qed.

Lemma elem_of_bucket (ps : list P) (k : Z) (p : P) :
  p ∈ buildIndex ps !!! k ↔ p ∈ dcrOnly ps ∧ PPID p = k.
Proof. rewrite buildIndex_bucket, list_elem_of_filter. tauto. Qed.

Lemma buildIndex_dcrOnly (ps : list P) : buildIndex (dcrOnly ps) = buildIndex ps.
Proof. apply map_eq. intros k. by rewrite !buildIndex_lookup, dcrOnly_idemp. Qed.

(** C6. The index of a snapshot: the bucket of a key holds exactly the
    family records with that parent identifier, in enumeration order (and
    a key without such a record has no bucket); a record is in the bucket
    of its own parent identifier and in no other; a record whose
    executable name lacks the prefix is in no bucket; the empty snapshot
    gives the empty map. *)
Theorem snapshot_index_buckets :
  (∀ (ps : list P) (k : Z),
     buildIndex ps !! k =
     match filter (λ p, PPID p = k) (dcrOnly ps) with
     | [] => None
     | l => Some l
     end) ∧
  (∀ (ps : list P) (k : Z) (p : P),
     p ∈ buildIndex ps !!! k ↔
     p ∈ ps ∧ HasPrefix (Exec p) dcrPrefix = true ∧ PPID p = k) ∧
  (∀ (ps : list P) (k : Z) (l : list P) (p : P),
     buildIndex ps !! k = Some l → p ∈ l →
     HasPrefix (Exec p) dcrPrefix = true ∧ PPID p = k) ∧
  buildIndex [] = ∅.
Proof.
  split; [exact buildIndex_lookup|]. split; [|split; [|done]].
  - intros ps k p. rewrite elem_of_bucket, elem_of_dcrOnly. tauto.
  - intros ps k l p Hl Hp.
    assert (p ∈ buildIndex ps !!! k) as Hin
      by (by rewrite lookup_total_alt, Hl).
    apply elem_of_bucket in Hin as [Hin ?]. apply elem_of_dcrOnly in Hin. tauto.
Qed.

(** ** Termination of the renderer *)

Lemma seen_of_enter k p t s x :
  seen_of (enter k p t s) x = if decide (k = x) then true else seen_of s x.
Proof.
  unfold seen_of, enter. simpl. rewrite lookup_insert.
  by case_decide.
Qed.

Lemma seen_sub_refl s : seen_sub s s.
Proof. by intros k. Qed.

Lemma seen_sub_trans s1 s2 s3 : seen_sub s1 s2 → seen_sub s2 s3 → seen_sub s1 s3.
Proof. intros H1 H2 k Hk. by apply H2, H1. Qed.

Lemma seen_sub_enter k p t s : seen_sub s (enter k p t s).
Proof. intros x Hx. rewrite seen_of_enter. by case_decide. Qed.

Lemma unseen_mono U s s' : seen_sub s s' → (unseen U s' ≤ unseen U s)%nat.
Proof.
  intros Hsub. unfold unseen. apply subseteq_size.
  intros k. rewrite !elem_of_filter. intros [Hk ?]. split; [|done].
  destruct (seen_of s k) eqn:Hs; [|done]. apply Hsub in Hs. congruence.
Qed.

Lemma unseen_enter U k p t s :
  k ∈ U → seen_of s k = false → (unseen U (enter k p t s) < unseen U s)%nat.
Proof.
  intros HkU Hk. unfold unseen. apply subset_size.
  apply strict_spec_alt. split.
  - intros x. rewrite !elem_of_filter, seen_of_enter.
    intros [Hx ?]. split; [|done]. by case_decide.
  - intros Heq. assert (k ∈ filter (λ k, seen_of s k = false) U) as Hin
      by (by apply elem_of_filter).
    rewrite <- Heq in Hin. apply elem_of_filter in Hin as [Hin _].
    rewrite seen_of_enter in Hin. by case_decide.
Qed.

Lemma size_list_to_set_le (l : list Z) :
  (size (list_to_set l : gset Z) ≤ length l)%nat.
Proof.
  induction l as [|x l IH].
  - by rewrite list_to_set_nil, size_empty.
  - rewrite list_to_set_cons, size_union_alt, size_singleton.
    assert (size (list_to_set l ∖ {[x]} : gset Z) ≤ size (list_to_set l : gset Z))%nat
      by (apply subseteq_size; intros y [Hy _]%elem_of_difference; exact Hy).
    cbn [length]. lia.
Qed.

Lemma unseen_keysOf_lt ps s : (unseen (keysOf ps) s < treeFuel ps)%nat.
Proof.
  unfold unseen, treeFuel, keysOf.
  pose proof (size_list_to_set_le ((PID <$> dcrOnly ps) ++ (PPID <$> dcrOnly ps))) as Hle.
  rewrite length_app, !length_fmap in Hle.
  pose proof (length_filter (λ p, HasPrefix (Exec p) dcrPrefix = true) ps) as Hf.
  fold (dcrOnly ps) in Hf.
  match goal with |- (size (filter ?Q ?X) < _)%nat =>
    assert (size (filter Q X) ≤ size X)%nat
      by (apply subseteq_size; intros y [_ Hy]%elem_of_filter; exact Hy)
  end.
  lia.
Qed.

Section Termination.

Variable pstree : gmap Z (list P).
Variable U : gset Z.
Hypothesis bucket_keys : ∀ k c, c ∈ pstree !!! k → PID c ∈ U.

(** A call with a key of [U] returns when the fuel exceeds the number of
    unmarked keys of [U]; it only adds marks. *)
Lemma construct_total fuel :
  ∀ k p t s, k ∈ U → (unseen U s < fuel)%nat →
    ∃ s', constructProcessTree fuel pstree k p t s = Some (tt, s') ∧ seen_sub s s'.
Proof.
  induction fuel as [|fuel IH]; intros k p t s HkU Hfuel; [lia|].
  rewrite construct_unfold. destruct (seen_of s k) eqn:Hk.
  { exists s. split; [done|apply seen_sub_refl]. }
  pose proof (unseen_enter U k p t s HkU Hk) as Hlt.
  pose proof (seen_sub_enter k p t s) as Hsub.
  assert (unseen U (enter k p t s) < fuel)%nat as Hfuel0 by lia.
  assert (∀ c, c ∈ pstree !!! k → PID c ∈ U) as Hl by (intros; by eapply bucket_keys).
  clear Hlt Hfuel Hk.
  revert Hsub Hfuel0. generalize (enter k p t s). generalize (length (heap s)).
  induction (pstree !!! k) as [|c l IHl]; intros b s0 Hsub Hfuel0; simpl.
  - by exists s0.
  - destruct (IH (PID c) c b s0) as (s1 & Hrun & Hsub1);
      [apply Hl; by left|done|].
    unfold mbind, M_bind. rewrite Hrun.
    apply IHl.
    + intros c' Hc'. apply Hl. by right.
    + by eapply seen_sub_trans.
    + pose proof (unseen_mono U s0 s1 Hsub1). lia.
Qed.

End Termination.

(** More fuel does not change the result of a call that returns. *)
Lemma construct_fuel_S pstree fuel :
  ∀ k p t s r, constructProcessTree fuel pstree k p t s = Some r →
    constructProcessTree (S fuel) pstree k p t s = Some r.
Proof.
  induction fuel as [|fuel IH]; intros k p t s r Hrun; [discriminate|].
  rewrite construct_unfold in *. destruct (seen_of s k); [done|].
  revert Hrun. generalize (enter k p t s). generalize (length (heap s)).
  induction (pstree !!! k) as [|c l IHl]; intros b s0 Hrun; simpl in *; [done|].
  unfold mbind, M_bind in *.
  destruct (constructProcessTree fuel pstree (PID c) c b s0) as [[[] s1]|] eqn:Hc;
    [|discriminate].
  rewrite (IH _ _ _ _ _ Hc). by apply IHl.
Qed.

Lemma construct_fuel_le pstree fuel fuel' k p t s r :
  (fuel ≤ fuel')%nat →
  constructProcessTree fuel pstree k p t s = Some r →
  constructProcessTree fuel' pstree k p t s = Some r.
Proof.
  induction 1 as [|fuel' _ IH]; [done|]. intros Hrun.
  by apply construct_fuel_S, IH.
Qed.

(** ** Loops *)

Lemma forEach_mono {A} (l : list A) (body1 body2 : A → M unit) :
  (∀ x s r, x ∈ l → body1 x s = Some r → body2 x s = Some r) →
  ∀ s r, forEach l body1 s = Some r → forEach l body2 s = Some r.
Proof.
  induction l as [|x l IH]; intros Hb s r Hrun; simpl in *; [done|].
  unfold mbind, M_bind in *.
  destruct (body1 x s) as [[[] s1]|] eqn:Hx; [|discriminate].
  rewrite (Hb x s _ (list_elem_of_here _ _) Hx).
  apply IH; [|done]. intros y s' r' Hy. apply Hb. by right.
Qed.

Lemma forEach_inv {A} (I : RSt → Prop) (l : list A) (body : A → M unit) :
  (∀ x s s', x ∈ l → I s → body x s = Some (tt, s') → I s') →
  ∀ s s', I s → forEach l body s = Some (tt, s') → I s'.
Proof.
  induction l as [|x l IH]; intros Hb s s' HI Hrun; simpl in *.
  - by injection Hrun as <-.
  - unfold mbind, M_bind in Hrun.
    destruct (body x s) as [[[] s1]|] eqn:Hx; [|discriminate].
    eapply IH; [|eapply Hb; [left|done..]|done].
    intros y s2 s3 Hy. apply Hb. by right.
Qed.

Lemma loopRel_inv (I : RSt → Prop) l b s s' :
  loopRel (λ _ _ _ s s', I s → I s') l b s s' → I s → I s'.
Proof.
  revert s. induction l as [|c l IH]; intros s Hl HI; simpl in *.
  - by subst.
  - destruct Hl as (s1 & Hc & Hl). eauto.
Qed.

(** ** The log, the marks and the store *)

Lemma content_addChild b n : content (addChild b n) = content n.
Proof. done. Qed.

Lemma fmap_content_alter b t (h : list node) :
  content <$> alter (addChild b) t h = content <$> h.
Proof.
  rewrite (list_fmap_alter content (addChild b) id).
  - by apply list_alter_id.
  - by apply Forall_true.
Qed.

Lemma consistent_init : consistent initRSt.
Proof.
  split; simpl.
  - constructor.
  - intros k. unfold seen_of. simpl. rewrite lookup_empty. simpl.
    split; [done|]. by intros ?%elem_of_nil.
  - done.
Qed.

Lemma heap_enter k p t s :
  heap (enter k p t s) =
  alter (addChild (length (heap s))) t (heap s)
    ++ [{| Root := Some t; Meta := nodeMeta k p; Val := nodeValue k p; Nodes := [] |}].
Proof. done. Qed.

Lemma visits_enter k p t s : visits (enter k p t s) = visits s ++ [(k, p)].
Proof. done. Qed.

Lemma consistent_enter k p t s :
  seen_of s k = false → consistent s → consistent (enter k p t s).
Proof.
  intros Hk [Hnd Hseen Hheap]. split.
  - rewrite visits_enter, fmap_app. apply NoDup_app. split; [done|].
    split; [|apply NoDup_singleton].
    intros x Hx Hx2%list_elem_of_singleton. subst x.
    apply (proj2 (Hseen k)) in Hx. congruence.
  - intros x. rewrite seen_of_enter, visits_enter, fmap_app, elem_of_app.
    change ([(k, p)].*1) with [k]. rewrite list_elem_of_singleton, <- Hseen.
    case_decide; [subst; tauto|]. split; [tauto|]. intros [?|?]; congruence.
  - rewrite heap_enter, visits_enter, !fmap_app, fmap_content_alter, Hheap. done.
Qed.

Lemma construct_consistent pstree fuel k p t s s' :
  constructProcessTree fuel pstree k p t s = Some (tt, s') →
  consistent s → consistent s'.
Proof.
  revert fuel k p t s s'.
  apply (construct_rule pstree (λ _ _ _ s s', consistent s → consistent s')).
  - done.
  - intros k p t s s' Hk Hloop Hs.
    eapply loopRel_inv; [exact Hloop|]. by apply consistent_enter.
Qed.

Lemma renderLoop_consistent fuel pstree ps s s' :
  renderLoop fuel pstree ps s = Some (tt, s') → consistent s → consistent s'.
Proof.
  intros Hrun Hs. unfold renderLoop in Hrun.
  eapply (forEach_inv consistent); [|exact Hs|exact Hrun].
  intros p s1 s2 _ Hs1 Hp. simpl in Hp.
  destruct (negb (HasPrefix (Exec p) dcrPrefix)).
  - by injection Hp as <-.
  - by eapply construct_consistent.
Qed.

(** ** The whole render *)

Lemma bucket_keysOf ps k c : c ∈ buildIndex ps !!! k → PID c ∈ keysOf ps.
Proof.
  intros [Hc _]%elem_of_bucket. unfold keysOf.
  rewrite elem_of_list_to_set, elem_of_app. left.
  apply list_elem_of_fmap. eauto.
Qed.

Lemma renderLoop_total ps fuel :
  (treeFuel ps ≤ fuel)%nat →
  ∀ l s, l ⊆ ps → ∃ s', renderLoop fuel (buildIndex ps) l s = Some (tt, s').
Proof.
  intros Hfuel. unfold renderLoop.
  induction l as [|p l IH]; intros s Hl; simpl; [by eexists|].
  unfold mbind, M_bind.
  destruct (HasPrefix (Exec p) dcrPrefix) eqn:Hp; simpl.
  - destruct (construct_total (buildIndex ps) (keysOf ps) (bucket_keysOf ps)
                fuel (PPID p) p rootPtr s) as (s1 & -> & _).
    + unfold keysOf. rewrite elem_of_list_to_set, elem_of_app. right.
      apply list_elem_of_fmap. exists p. split; [done|].
      apply elem_of_dcrOnly. split; [|done]. apply Hl. by left.
    + pose proof (unseen_keysOf_lt ps s). lia.
    + apply IH. intros x Hx. apply Hl. by right.
  - apply IH. intros x Hx. apply Hl. by right.
Qed.

Lemma renderLoop_fuel_le pstree fuel fuel' l s r :
  (fuel ≤ fuel')%nat →
  renderLoop fuel pstree l s = Some r → renderLoop fuel' pstree l s = Some r.
Proof.
  intros Hle. unfold renderLoop. apply forEach_mono.
  intros p s1 r1 _. simpl. destruct (negb (HasPrefix (Exec p) dcrPrefix)); [done|].
  by apply construct_fuel_le.
Qed.

Lemma renderRun_total ps fuel :
  (treeFuel ps ≤ fuel)%nat →
  ∃ s, renderRun fuel ps = Some s ∧ renderRun (treeFuel ps) ps = Some s.
Proof.
  intros Hfuel. unfold renderRun.
  destruct (renderLoop_total ps (treeFuel ps) (le_n _) ps initRSt) as (s & Hs); [done|].
  exists s. by rewrite (renderLoop_fuel_le _ _ _ _ _ _ Hfuel Hs), Hs.
Qed.

Lemma renderRun_consistent fuel ps s : renderRun fuel ps = Some s → consistent s.
Proof.
  unfold renderRun. intros Hrun.
  destruct (renderLoop fuel (buildIndex ps) ps initRSt) as [[[] s']|] eqn:Hl;
    [|discriminate].
  injection Hrun as <-.
  eapply renderLoop_consistent; [exact Hl|apply consistent_init].
Qed.

(** C1. The render of any snapshot returns, whatever its parent references
    (self-referential and cyclic ones included), as soon as the fuel is
    [treeFuel]; the result does not depend on the fuel; and no key is
    expanded twice: the keys whose bucket loop was entered are pairwise
    distinct, and they are the keys marked in [seen]. *)
Theorem render_terminates_once (ps : list P) (fuel : nat) :
  (treeFuel ps ≤ fuel)%nat →
  ∃ s, renderRun fuel ps = Some s ∧
       renderRun (treeFuel ps) ps = Some s ∧
       NoDup (visits s).*1 ∧
       (∀ k, seen_of s k = true ↔ k ∈ (visits s).*1).
Proof.
  intros Hfuel. destruct (renderRun_total ps fuel Hfuel) as (s & Hs & Hs').
  exists s. pose proof (renderRun_consistent _ _ _ Hs) as [? ? _]. done.
Qed.

(** ** What the logged calls are *)

Lemma loopRel_inv_args (I : RSt → Prop) (V : Z * P → Prop) l b s s' :
  loopRel (λ k p _ s s', (seen_of s k = false → V (k, p)) → I s → I s') l b s s' →
  (∀ c, c ∈ l → V (PID c, c)) → I s → I s'.
Proof.
  revert s. induction l as [|c l IH]; intros s Hl HV HI; simpl in *.
  - by subst.
  - destruct Hl as (s1 & Hc & Hl). apply (IH s1); [done| |].
    + intros c' Hc'. apply HV. by right.
    + apply Hc; [|done]. intros _. apply HV. by left.
Qed.

(** A property of calls that holds for the calls made from the buckets
    holds for every logged call, once it holds for the first one. *)
Lemma construct_visits pstree (V : Z * P → Prop) :
  (∀ k c, c ∈ pstree !!! k → V (PID c, c)) →
  ∀ fuel k p t s s',
    constructProcessTree fuel pstree k p t s = Some (tt, s') →
    (seen_of s k = false → V (k, p)) →
    Forall V (visits s) → Forall V (visits s').
Proof.
  intros Hbucket.
  apply (construct_rule pstree
           (λ k p _ s s', (seen_of s k = false → V (k, p)) →
                          Forall V (visits s) → Forall V (visits s'))).
  - done.
  - intros k p t s s' Hk Hloop HV Hs.
    eapply (loopRel_inv_args (λ s, Forall V (visits s)) V); [exact Hloop| |].
    + intros c Hc. by eapply Hbucket.
    + rewrite visits_enter. apply Forall_app. split; [done|].
      apply Forall_singleton. by apply HV.
Qed.

Lemma renderRun_visitOf fuel ps s :
  renderRun fuel ps = Some s → Forall (visitOf (dcrOnly ps)) (visits s).
Proof.
  unfold renderRun. intros Hrun.
  destruct (renderLoop fuel (buildIndex ps) ps initRSt) as [[[] s']|] eqn:Hl;
    [|discriminate].
  injection Hrun as <-. unfold renderLoop in Hl.
  refine (forEach_inv (λ s, Forall (visitOf (dcrOnly ps)) (visits s))
            _ _ _ initRSt s' _ Hl); [|by constructor].
  intros p s1 s2 Hp Hs1 Hbody. simpl in Hbody.
  destruct (HasPrefix (Exec p) dcrPrefix) eqn:Hfam; simpl in Hbody.
  - eapply construct_visits; [|exact Hbody| |done].
    + intros k c [Hc _]%elem_of_bucket. split; [done|by right].
    + intros _. split; [|by left]. by apply elem_of_dcrOnly.
  - by injection Hbody as <-.
Qed.

(** The node of the [i]-th logged call. *)
Lemma consistent_node s i c :
  consistent s → visits s !! i = Some c →
  ∃ nd, heap s !! S i = Some nd ∧ Meta nd = nodeMeta c.1 c.2 ∧ Val nd = nodeValue c.1 c.2.
Proof.
  intros [_ _ Hheap] Hi.
  assert ((content <$> heap s) !! S i = Some (callContent c)) as Hc
    by (rewrite Hheap; simpl; by rewrite list_lookup_fmap, Hi).
  rewrite list_lookup_fmap in Hc.
  destruct (heap s !! S i) as [nd|]; [|done].
  exists nd. injection Hc as Hm Hv. done.
Qed.

Lemma consistent_length s : consistent s → length (heap s) = S (length (visits s)).
Proof.
  intros [_ _ Hheap].
  apply (f_equal length) in Hheap. by rewrite length_fmap in Hheap; simpl in Hheap;
    rewrite length_fmap in Hheap.
Qed.

Lemma renderRun_labels (fuel : nat) (ps : list P) (s : RSt) :
  renderRun fuel ps = Some s →
  length (heap s) = S (length (visits s)) ∧
  ∀ i k p, visits s !! i = Some (k, p) →
    p ∈ dcrOnly ps ∧
    ∃ nd, heap s !! S i = Some nd ∧
      ((k = PPID p ∧ Val nd = VInt k) ∨
       (k ≠ PPID p ∧ k = PID p ∧ Val nd = VStr (output k p))).
Proof.
  intros Hrun. pose proof (renderRun_consistent _ _ _ Hrun) as Hcons.
  pose proof (renderRun_visitOf _ _ _ Hrun) as Hvis.
  split; [by apply consistent_length|].
  intros i k p Hi.
  destruct (consistent_node s i (k, p) Hcons Hi) as (nd & Hnd & _ & Hval).
  rewrite Forall_lookup in Hvis. destruct (Hvis i (k, p) Hi) as [Hp Hk].
  simpl in *. split; [done|]. exists nd. split; [done|].
  unfold nodeValue in Hval. destruct (Z.eqb_spec k (PPID p)) as [Heq|Hne]; simpl in Hval.
  - by left.
  - right. destruct Hk; done.
Qed.

(** C3, as the code has it. The render returns, and every node below the
    root is the node of one logged call, for a family record of the
    snapshot. The node shows the bare number [k] exactly when the key [k]
    of the call is the parent identifier of the record of the call,
    self-parented or not; otherwise [k] is the PID of the record and the
    node shows ["<k> (<Exec>) {<BuildVersion>}"]. *)
Theorem label_by_key (fuel : nat) (ps : list P) :
  (treeFuel ps ≤ fuel)%nat →
  ∃ s, renderRun fuel ps = Some s ∧
    length (heap s) = S (length (visits s)) ∧
    ∀ i k p, visits s !! i = Some (k, p) →
      p ∈ dcrOnly ps ∧
      ∃ nd, heap s !! S i = Some nd ∧
        ((k = PPID p ∧ Val nd = VInt k) ∨
         (k ≠ PPID p ∧ k = PID p ∧ Val nd = VStr (output k p))).
Proof.
  intros Hfuel. destruct (renderRun_total ps fuel Hfuel) as (s & Hs & _).
  exists s. split; [done|]. by apply (renderRun_labels fuel ps).
Qed.

Lemma renderRun_stars (fuel : nat) (ps : list P) (s : RSt) :
  renderRun fuel ps = Some s →
  ∀ i k p, visits s !! i = Some (k, p) →
    ∃ nd, heap s !! S i = Some nd ∧
      (Meta nd = Some "*"%string ↔ Agent p = true ∧ k ≠ PPID p) ∧
      (k = PPID p → Meta nd = None) ∧
      (k ≠ PPID p → Meta nd = if Agent p then Some "*"%string else None).
Proof.
  intros Hrun i k p Hi. pose proof (renderRun_consistent _ _ _ Hrun) as Hcons.
  destruct (consistent_node s i (k, p) Hcons Hi) as (nd & Hnd & Hmeta & _).
  exists nd. split; [done|]. simpl in Hmeta. rewrite Hmeta. unfold nodeMeta.
  destruct (Z.eqb_spec k (PPID p)) as [Heq|Hne]; simpl.
  - split; [|done]. split; [done|]. by intros [_ ?].
  - destruct (Agent p); split; try done; split; try done; by intros [? _].
Qed.

(** C4, as the code has it. The render returns, and the node of a logged
    call is starred exactly when the record of the call has the agent flag
    and the key of the call is not the parent identifier of the record;
    the bare node of a key that is the parent identifier of the record
    carries no mark, whatever the agent flag. *)
Theorem star_by_agent_and_key (fuel : nat) (ps : list P) :
  (treeFuel ps ≤ fuel)%nat →
  ∃ s, renderRun fuel ps = Some s ∧
    ∀ i k p, visits s !! i = Some (k, p) →
      ∃ nd, heap s !! S i = Some nd ∧
        (Meta nd = Some "*"%string ↔ Agent p = true ∧ k ≠ PPID p) ∧
        (k = PPID p → Meta nd = None) ∧
        (k ≠ PPID p → Meta nd = if Agent p then Some "*"%string else None).
Proof.
  intros Hfuel. destruct (renderRun_total ps fuel Hfuel) as (s & Hs & _).
  exists s. split; [done|]. by apply (renderRun_stars fuel ps).
Qed.

(** The index of scenario A, and a snapshot with a foreign process. *)
Lemma snapshot_index_buckets_witness :
  buildIndex scenarioA !! 0 = Some [mkP 1 0 "dcrd" "/usr/bin/dcrd" "v1.4.0" false] ∧
  buildIndex cyclicPair !! 1 = None.
Proof.
  destruct snapshot_index_buckets as (Hbucket & _).
  split; rewrite Hbucket; reflexivity.
Defined.

(** The render of a cyclic snapshot returns. *)
Lemma render_terminates_once_witness :
  ∃ s, renderRun 7 cyclicPair = Some s ∧
       renderRun (treeFuel cyclicPair) cyclicPair = Some s ∧
       NoDup (visits s).*1 ∧
       (∀ k, seen_of s k = true ↔ k ∈ (visits s).*1).
Proof. apply (render_terminates_once cyclicPair 7). vm_compute. lia. Defined.

Lemma label_by_key_witness :
  ∃ s, renderRun 5 scenarioA = Some s ∧
    length (heap s) = S (length (visits s)) ∧
    ∀ i k p, visits s !! i = Some (k, p) →
      p ∈ dcrOnly scenarioA ∧
      ∃ nd, heap s !! S i = Some nd ∧
        ((k = PPID p ∧ Val nd = VInt k) ∨
         (k ≠ PPID p ∧ k = PID p ∧ Val nd = VStr (output k p))).
Proof. apply (label_by_key 5 scenarioA). vm_compute. lia. Defined.

(** C3 as stated fails: the record with PID 1 and parent 0 is not its own
    parent, and the first node of the render, made for the top-level call
    with this record, shows the bare number 0. *)
Lemma bare_iff_self_parented_fails :
  renderRun (treeFuel [loneRecord]) [loneRecord] = Some (finalState [loneRecord]) ∧
  visits (finalState [loneRecord]) !! 0%nat = Some (0, loneRecord) ∧
  Val <$> heap (finalState [loneRecord]) !! 1%nat = Some (VInt 0) ∧
  PPID loneRecord ≠ PID loneRecord ∧
  ¬ bare_iff_self_parented (finalState [loneRecord]).
Proof.
  split; [vm_compute; reflexivity|]. split; [vm_compute; reflexivity|].
  split; [vm_compute; reflexivity|]. split; [done|].
  intros H.
  assert (PPID loneRecord = PID loneRecord) as Heq; [|done].
  eapply (H 0%nat 0 loneRecord); [vm_compute; reflexivity..|].
  by exists 0.
Qed.

Lemma star_by_agent_and_key_witness :
  ∃ s, renderRun 5 scenarioA = Some s ∧
    ∀ i k p, visits s !! i = Some (k, p) →
      ∃ nd, heap s !! S i = Some nd ∧
        (Meta nd = Some "*"%string ↔ Agent p = true ∧ k ≠ PPID p) ∧
        (k = PPID p → Meta nd = None) ∧
        (k ≠ PPID p → Meta nd = if Agent p then Some "*"%string else None).
Proof. apply (star_by_agent_and_key 5 scenarioA). vm_compute. lia. Defined.

(** C4 as stated fails: the self-parented record has the agent flag, its
    only node is the bare number 5, and this node is not starred. *)
Lemma star_iff_agent_fails :
  renderRun (treeFuel [selfParented]) [selfParented] = Some (finalState [selfParented]) ∧
  visits (finalState [selfParented]) = [(5, selfParented)] ∧
  content <$> heap (finalState [selfParented]) = [rootContent; (None, VInt 5)] ∧
  Agent selfParented = true ∧
  ¬ star_iff_agent (finalState [selfParented]).
Proof.
  split; [vm_compute; reflexivity|]. split; [vm_compute; reflexivity|].
  split; [vm_compute; reflexivity|]. split; [done|].
  intros H.
  assert (None = Some "*"%string) as Heq; [|done].
  refine (proj2 (H 0%nat 5 selfParented
                   {| Root := Some 0%nat; Meta := None; Val := VInt 5; Nodes := [] |}
                   _ _) _); [vm_compute; reflexivity..|done].
Qed.

(** ** Completeness on parent-first snapshots *)

Section Closed.

Variable pstree : gmap Z (list P).

Lemma loop_expands l b :
  ∀ s s', loopRel (λ k _ _ s s', expands pstree k s s') l b s s' →
    seen_sub s s' ∧
    (∀ c, c ∈ l → seen_of s' (PID c) = true) ∧
    (∀ k', seen_of s k' = false → seen_of s' k' = true →
           ∀ c, c ∈ pstree !!! k' → seen_of s' (PID c) = true).
Proof.
  induction l as [|c l IH]; intros s s' Hl; simpl in Hl.
  - subst s'. split; [apply seen_sub_refl|]. split.
    + by intros c ?%elem_of_nil.
    + intros k' H1 H2. congruence.
  - destruct Hl as (s1 & (Hsub1 & Hc & Hnew1) & Hl).
    destruct (IH _ _ Hl) as (Hsub & Hall & Hnew).
    split; [by eapply seen_sub_trans|]. split.
    + intros c' [->|Hc']%elem_of_cons; [by apply Hsub|by apply Hall].
    + intros k' Hk Hk' c' Hc'.
      destruct (seen_of s1 k') eqn:Hk1.
      * apply Hsub. by eapply Hnew1.
      * by eapply Hnew.
Qed.

Lemma construct_expands fuel k p t s s' :
  constructProcessTree fuel pstree k p t s = Some (tt, s') → expands pstree k s s'.
Proof.
  revert fuel k p t s s'.
  apply (construct_rule pstree (λ k _ _ s s', expands pstree k s s')).
  - intros k p t s Hk. split; [apply seen_sub_refl|]. split; [done|].
    intros k' H1 H2. congruence.
  - intros k p t s s' Hk Hloop.
    destruct (loop_expands _ _ _ _ Hloop) as (Hsub & Hall & Hnew).
    assert (seen_of (enter k p t s) k = true) as Hk0
      by (rewrite seen_of_enter; by case_decide).
    split; [eapply seen_sub_trans; [apply seen_sub_enter|done]|].
    split; [by apply Hsub|].
    intros k' Hk1 Hk2 c Hc. destruct (decide (k = k')) as [<-|Hne].
    + by apply Hall.
    + eapply Hnew; [|done..]. rewrite seen_of_enter. by case_decide.
Qed.

Lemma expands_closed k s s' : expands pstree k s s' → closed pstree s → closed pstree s'.
Proof.
  intros (Hsub & _ & Hnew) Hcl k' Hk' c Hc.
  destruct (seen_of s k') eqn:Hk1.
  - apply Hsub. by eapply Hcl.
  - by eapply Hnew.
Qed.

End Closed.

Lemma parentFirst_app l1 l2 : parentFirst (l1 ++ l2) = true → parentFirst l2 = true.
Proof.
  induction l1 as [|r l1 IH]; [done|]. simpl.
  intros [_ ?]%andb_prop. by apply IH.
Qed.

Lemma parentFirst_parent_before done r todo c :
  parentFirst (done ++ r :: todo) = true →
  c ∈ done ++ r :: todo → PID c = PPID r → c ∈ done.
Proof.
  intros Hpf Hc Heq. apply parentFirst_app in Hpf. simpl in Hpf.
  apply andb_prop in Hpf as [Hr%bool_decide_eq_true _].
  apply elem_of_app in Hc as [Hc|Hc]; [done|]. exfalso. apply Hr.
  rewrite <- Heq. change (PID c ∈ PID <$> (r :: todo)).
  apply list_elem_of_fmap. eauto.
Qed.

Lemma parentFirst_not_self fs r :
  parentFirst fs = true → r ∈ fs → PID r ≠ PPID r.
Proof.
  intros Hpf Hr Heq. apply list_elem_of_split in Hr as (l1 & l2 & ->).
  assert (r ∈ l1 ++ r :: l2) as Hin by (apply elem_of_app; right; left).
  pose proof (parentFirst_parent_before _ _ _ _ Hpf Hin Heq) as Hr.
  apply list_elem_of_split in Hr as (l3 & l4 & ->).
  rewrite <- app_assoc in Hpf. apply parentFirst_app in Hpf. simpl in Hpf.
  apply andb_prop in Hpf as [Hr%bool_decide_eq_true _]. apply Hr.
  rewrite <- Heq. left.
Qed.

Lemma NoDup_PID_inj (fs : list P) x y :
  NoDup (PID <$> fs) → x ∈ fs → y ∈ fs → PID x = PID y → x = y.
Proof.
  induction fs as [|r fs IH]; [by intros _ ?%elem_of_nil|].
  rewrite fmap_cons, NoDup_cons. intros [Hr Hnd].
  intros [->|Hx]%elem_of_cons [->|Hy]%elem_of_cons Heq; [done| | |by apply IH].
  - exfalso. apply Hr. rewrite Heq. apply list_elem_of_fmap. eauto.
  - exfalso. apply Hr. rewrite <- Heq. apply list_elem_of_fmap. eauto.
Qed.

Lemma renderLoop_dcrOnly fuel pstree ps s :
  renderLoop fuel pstree (dcrOnly ps) s = renderLoop fuel pstree ps s.
Proof.
  unfold renderLoop. revert s. induction ps as [|p ps IH]; intros s; [done|].
  rewrite dcrOnly_cons. simpl.
  destruct (HasPrefix (Exec p) dcrPrefix) eqn:Hp; simpl.
  - rewrite Hp. simpl. unfold mbind, M_bind.
    destruct (constructProcessTree _ _ _ _ _ _) as [[[] s1]|]; [apply IH|done].
  - unfold mbind, M_bind. simpl. apply IH.
Qed.

Section ParentFirst.

Variable ps : list P.
Hypothesis pids_distinct : NoDup (PID <$> dcrOnly ps).
Hypothesis parents_first : parentFirst (dcrOnly ps) = true.

Lemma topInv_init : topInv (buildIndex ps) (dcrOnly ps) [] initRSt.
Proof.
  split.
  - apply consistent_init.
  - intros k Hk. unfold seen_of in Hk. simpl in Hk. by rewrite lookup_empty in Hk.
  - by intros r ?%elem_of_nil.
  - constructor.
Qed.

Lemma topInv_step fuel done r todo s s' :
  dcrOnly ps = done ++ r :: todo →
  topInv (buildIndex ps) (dcrOnly ps) done s →
  constructProcessTree fuel (buildIndex ps) (PPID r) r rootPtr s = Some (tt, s') →
  topInv (buildIndex ps) (dcrOnly ps) (done ++ [r]) s'.
Proof.
  intros Hfs [Hcons Hclosed Hdone Hvis] Hrun.
  pose proof (construct_expands _ _ _ _ _ _ _ Hrun) as Hexp.
  assert (r ∈ dcrOnly ps) as Hr by (rewrite Hfs, elem_of_app; right; left).
  split.
  - by eapply construct_consistent.
  - by eapply expands_closed.
  - destruct Hexp as (Hsub & Hk & _).
    intros r' [Hr'|Hr']%elem_of_app;
      [|apply list_elem_of_singleton in Hr'; by subst r'].
    by apply Hsub, Hdone.
  - eapply construct_visits; [|exact Hrun| |exact Hvis].
    + intros k c [Hc _]%elem_of_bucket. split; [done|by left].
    + intros Hunseen. split; [done|]. right. split; [done|]. simpl.
      intros (c & Hpid & Hc)%list_elem_of_fmap.
      assert (c ∈ done) as Hcd.
      { eapply parentFirst_parent_before; [by rewrite <- Hfs|by rewrite <- Hfs|done]. }
      assert (seen_of s (PID c) = true) as Hseen.
      { apply (Hclosed (PPID c)); [by apply Hdone|]. by apply elem_of_bucket. }
      congruence.
Qed.

Lemma topInv_loop fuel todo :
  ∀ done s s',
    dcrOnly ps = done ++ todo →
    topInv (buildIndex ps) (dcrOnly ps) done s →
    renderLoop fuel (buildIndex ps) todo s = Some (tt, s') →
    topInv (buildIndex ps) (dcrOnly ps) (dcrOnly ps) s'.
Proof.
  unfold renderLoop.
  induction todo as [|r todo IH]; intros done s s' Hfs Hinv Hrun; simpl in Hrun.
  - injection Hrun as <-. rewrite app_nil_r in Hfs. by rewrite <- Hfs in Hinv.
  - assert (r ∈ dcrOnly ps) as Hr by (rewrite Hfs, elem_of_app; right; left).
    apply elem_of_dcrOnly in Hr as [_ Hfam]. rewrite Hfam in Hrun. simpl in Hrun.
    unfold mbind, M_bind in Hrun.
    destruct (constructProcessTree _ _ _ _ _ _) as [[[] s1]|] eqn:Hc; [|discriminate].
    apply (IH (done ++ [r]) s1 s'); [by rewrite <- app_assoc| |done].
    by eapply topInv_step.
Qed.

Lemma topInv_prefix fuel todo :
  ∀ done rest s s',
    dcrOnly ps = done ++ todo ++ rest →
    topInv (buildIndex ps) (dcrOnly ps) done s →
    renderLoop fuel (buildIndex ps) todo s = Some (tt, s') →
    topInv (buildIndex ps) (dcrOnly ps) (done ++ todo) s'.
Proof.
  unfold renderLoop.
  induction todo as [|r todo IH]; intros done rest s s' Hfs Hinv Hrun; simpl in Hrun.
  - injection Hrun as <-. by rewrite app_nil_r.
  - assert (r ∈ dcrOnly ps) as Hr by (rewrite Hfs, elem_of_app; right; left).
    apply elem_of_dcrOnly in Hr as [_ Hfam]. rewrite Hfam in Hrun. simpl in Hrun.
    unfold mbind, M_bind in Hrun.
    destruct (constructProcessTree _ _ _ _ _ _) as [[[] s1]|] eqn:Hc; [|discriminate].
    replace (done ++ r :: todo) with ((done ++ [r]) ++ todo) by (by rewrite <- app_assoc).
    apply (IH (done ++ [r]) rest s1 s'); [by rewrite <- app_assoc| |done].
    by eapply (topInv_step fuel done r (todo ++ rest)).
Qed.

Lemma renderRun_topInv fuel s :
  renderRun fuel ps = Some s → topInv (buildIndex ps) (dcrOnly ps) (dcrOnly ps) s.
Proof.
  unfold renderRun. rewrite <- renderLoop_dcrOnly. intros Hrun.
  destruct (renderLoop fuel (buildIndex ps) (dcrOnly ps) initRSt) as [[[] s']|] eqn:Hl;
    [|discriminate].
  injection Hrun as <-.
  eapply (topInv_loop fuel (dcrOnly ps) []); [done|apply topInv_init|exact Hl].
Qed.

End ParentFirst.

Section Complete.

Variable ps : list P.
Variable s : RSt.
Hypothesis pids_distinct : NoDup (PID <$> dcrOnly ps).
Hypothesis parents_first : parentFirst (dcrOnly ps) = true.
Hypothesis final : topInv (buildIndex ps) (dcrOnly ps) (dcrOnly ps) s.

Lemma keyContent_record r :
  r ∈ dcrOnly ps → keyContent (dcrOnly ps) (PID r) = recordContent r.
Proof.
  intros Hr. unfold keyContent.
  destruct (list_find_elem_of (λ x, PID x = PID r) (dcrOnly ps) r Hr eq_refl)
    as [[i x] Hfind].
  rewrite Hfind. apply list_find_Some in Hfind as (Hx & Heq & _).
  apply list_elem_of_lookup_2 in Hx.
  by rewrite (NoDup_PID_inj _ _ _ pids_distinct Hx Hr Heq).
Qed.

Lemma keyContent_root k :
  k ∉ PID <$> dcrOnly ps → keyContent (dcrOnly ps) k = bareContent k.
Proof.
  intros Hk. unfold keyContent.
  destruct (list_find _ _) as [[i x]|] eqn:Hfind; [|done].
  apply list_find_Some in Hfind as (Hx & Heq & _).
  apply list_elem_of_lookup_2 in Hx. exfalso. apply Hk.
  apply list_elem_of_fmap. eauto.
Qed.

Lemma callContent_own r :
  r ∈ dcrOnly ps → callContent (PID r, r) = recordContent r.
Proof.
  intros Hr. pose proof (parentFirst_not_self _ _ parents_first Hr) as Hne.
  unfold callContent, nodeMeta, nodeValue, recordContent. simpl.
  by destruct (Z.eqb_spec (PID r) (PPID r)).
Qed.

Lemma callContent_keyContent c :
  ownOrRoot (dcrOnly ps) c → callContent c = keyContent (dcrOnly ps) c.1.
Proof.
  destruct c as [k x]. intros [Hx [Hk|[Hk Hroot]]]; simpl in *.
  - subst k. by rewrite keyContent_record, callContent_own.
  - rewrite keyContent_root by done. subst k.
    unfold callContent, nodeMeta, nodeValue, bareContent. simpl.
    by rewrite Z.eqb_refl.
Qed.

Lemma own_call_logged r : r ∈ dcrOnly ps → (PID r, r) ∈ visits s.
Proof.
  intros Hr. destruct final as [[_ Hseen _] Hclosed Hdone Hvis].
  assert (seen_of s (PID r) = true) as Hpid.
  { apply (Hclosed (PPID r)); [by apply Hdone|]. by apply elem_of_bucket. }
  apply Hseen in Hpid. apply list_elem_of_fmap in Hpid as ([k x] & Hk & Hc).
  simpl in Hk. subst k.
  rewrite Forall_forall in Hvis. destruct (Hvis _ Hc) as [Hx [Hk|[_ Hroot]]]; simpl in *.
  - assert (r = x) as -> by (by eapply NoDup_PID_inj). done.
  - exfalso. apply Hroot. apply list_elem_of_fmap. eauto.
Qed.

Lemma elem_of_rootKeys k :
  k ∈ rootKeys (dcrOnly ps) ↔
  (k ∉ PID <$> dcrOnly ps) ∧ (∃ r, r ∈ dcrOnly ps ∧ k = PPID r).
Proof.
  unfold rootKeys. rewrite elem_of_remove_dups, list_elem_of_filter.
  split.
  - intros [Hk (r & -> & Hr)%list_elem_of_fmap]. split; [done|]. eauto.
  - intros [Hk (r & Hr & ->)]. split; [done|]. apply list_elem_of_fmap. eauto.
Qed.

Lemma logged_keys :
  (visits s).*1 ≡ₚ (PID <$> dcrOnly ps) ++ rootKeys (dcrOnly ps).
Proof.
  destruct final as [[Hnd Hseen _] Hclosed Hdone Hvis].
  apply NoDup_Permutation; [done| |].
  - apply NoDup_app. split; [done|]. split; [|apply NoDup_remove_dups].
    intros k Hk Hroot. by apply elem_of_rootKeys in Hroot as [? _].
  - intros k. rewrite elem_of_app. split.
    + intros ([k' x] & -> & Hc)%list_elem_of_fmap.
      rewrite Forall_forall in Hvis. destruct (Hvis _ Hc) as [Hx [Hk|[Hk Hroot]]]; simpl in *.
      * left. apply list_elem_of_fmap. eauto.
      * right. apply elem_of_rootKeys. eauto.
    + intros [(r & -> & Hr)%list_elem_of_fmap|Hroot].
      * apply list_elem_of_fmap. exists (PID r, r). split; [done|].
        by apply own_call_logged.
      * apply elem_of_rootKeys in Hroot as (_ & r & Hr & ->).
        apply Hseen. by apply Hdone.
Qed.

Lemma logged_contents :
  content <$> tail (heap s) ≡ₚ
  (recordContent <$> dcrOnly ps) ++ (bareContent <$> rootKeys (dcrOnly ps)).
Proof.
  destruct final as [[Hnd Hseen Hheap] Hclosed Hdone Hvis].
  assert (content <$> tail (heap s) = callContent <$> visits s) as ->.
  { destruct (heap s) as [|n h]; [done|]. simpl in *. by injection Hheap. }
  assert (callContent <$> visits s = keyContent (dcrOnly ps) <$> (visits s).*1) as ->.
  { rewrite <- list_fmap_compose. apply Forall_fmap_ext.
    eapply Forall_impl; [exact Hvis|]. intros c Hc. by apply callContent_keyContent. }
  rewrite logged_keys, fmap_app, <- list_fmap_compose.
  assert (keyContent (dcrOnly ps) ∘ PID <$> dcrOnly ps = recordContent <$> dcrOnly ps)
    as ->.
  { apply Forall_fmap_ext, Forall_forall. intros r Hr. by apply keyContent_record. }
  assert (keyContent (dcrOnly ps) <$> rootKeys (dcrOnly ps)
          = bareContent <$> rootKeys (dcrOnly ps)) as ->; [|done].
  apply Forall_fmap_ext, Forall_forall. intros k Hk. apply keyContent_root.
  by apply elem_of_rootKeys in Hk as [? _].
Qed.

End Complete.

(** C2, as the code has it. The render returns, and for a snapshot whose family records have
    distinct PIDs and stand after their parents (so that no record is its
    own parent and there is no cycle), the nodes below the root are, up to
    order, one labelled node for each family record and one bare node for
    each parent identifier that is not the PID of a family record; their
    number is the number of family records plus the number of these parent
    identifiers; and every family record has exactly one logged call with
    its own PID as key, whose node is its labelled node. *)
Theorem complete_parent_first (fuel : nat) (ps : list P) :
  NoDup (PID <$> dcrOnly ps) →
  parentFirst (dcrOnly ps) = true →
  (treeFuel ps ≤ fuel)%nat →
  ∃ s, renderRun fuel ps = Some s ∧
    content <$> tail (heap s) ≡ₚ
      (recordContent <$> dcrOnly ps) ++ (bareContent <$> rootKeys (dcrOnly ps)) ∧
    length (tail (heap s)) = (length (dcrOnly ps) + length (rootKeys (dcrOnly ps)))%nat ∧
    ∀ r, r ∈ dcrOnly ps →
      ∃ i nd, visits s !! i = Some (PID r, r) ∧
              heap s !! S i = Some nd ∧ content nd = recordContent r ∧
              ∀ j p, visits s !! j = Some (PID r, p) → j = i.
Proof.
  intros Hnd Hpf Hfuel.
  destruct (renderRun_total ps fuel Hfuel) as (s & Hrun & _).
  exists s. split; [done|].
  pose proof (renderRun_topInv ps Hpf fuel s Hrun) as Hinv.
  pose proof (logged_contents ps s Hnd Hpf Hinv) as Hperm.
  split; [done|]. split.
  - apply Permutation_length in Hperm.
    by rewrite length_app, !length_fmap in Hperm.
  - intros r Hr.
    pose proof (own_call_logged ps s Hnd Hinv r Hr) as Hc.
    apply list_elem_of_lookup in Hc as [i Hi].
    destruct (consistent_node s i _ (top_consistent _ _ _ _ Hinv) Hi)
      as (nd & Hnode & Hmeta & Hval).
    exists i, nd. split; [done|]. split; [done|]. split.
    + rewrite <- (callContent_own ps Hpf r Hr). unfold content, callContent.
      by rewrite Hmeta, Hval.
    + intros j p Hj.
      eapply (NoDup_lookup _ j i (PID r));
        [exact (visits_nodup _ (top_consistent _ _ _ _ Hinv))|..];
        rewrite list_lookup_fmap; [by rewrite Hj|by rewrite Hi].
Qed.

Lemma complete_parent_first_witness :
  ∃ s, renderRun 5 scenarioA = Some s ∧
    content <$> tail (heap s) ≡ₚ
      (recordContent <$> dcrOnly scenarioA)
        ++ (bareContent <$> rootKeys (dcrOnly scenarioA)) ∧
    length (tail (heap s))
      = (length (dcrOnly scenarioA) + length (rootKeys (dcrOnly scenarioA)))%nat ∧
    ∀ r, r ∈ dcrOnly scenarioA →
      ∃ i nd, visits s !! i = Some (PID r, r) ∧
              heap s !! S i = Some nd ∧ content nd = recordContent r ∧
              ∀ j p, visits s !! j = Some (PID r, p) → j = i.
Proof.
  apply (complete_parent_first 5 scenarioA).
  - apply (bool_decide_unpack _). vm_compute. exact I.
  - vm_compute. reflexivity.
  - vm_compute. lia.
Defined.

(** C2 as stated fails. The snapshot lists a child before its parent and
    has no cycle. Its render has three nodes below the root for two
    records: the bare nodes 1 and 5 and the labelled node of the child; no
    node shows the label of the parent record, whose PID 1 had been marked
    as the parent identifier of the child before the bucket of 5 was
    expanded. *)
Lemma nodes_match_records_fails :
  acyclic childFirst = true ∧
  renderRun (treeFuel childFirst) childFirst = Some (finalState childFirst) ∧
  content <$> tail (heap (finalState childFirst)) =
    [(None, VInt 1); (None, VStr "2 (dcrwallet) {v1.4.0}"); (None, VInt 5)] ∧
  ¬ nodes_match_records childFirst (finalState childFirst).
Proof.
  split; [vm_compute; reflexivity|]. split; [vm_compute; reflexivity|].
  split; [vm_compute; reflexivity|].
  unfold nodes_match_records. vm_compute. discriminate.
Qed.

(** ** Two records with the same parent *)

Lemma forEach_nil {A} (body : A → M unit) s : forEach [] body s = Some (tt, s).
Proof. done. Qed.

Lemma forEach_cons {A} (x : A) l (body : A → M unit) s :
  forEach (x :: l) body s =
  match body x s with
  | Some (_, s') => forEach l body s'
  | None => None
  end.
Proof. done. Qed.

(** The render of a snapshot of two family records with the same parent
    identifier, different PIDs, neither its own parent. *)
Lemma two_siblings_render (a b : P) (fuel : nat) :
  HasPrefix (Exec a) dcrPrefix = true →
  HasPrefix (Exec b) dcrPrefix = true →
  PPID a = PPID b → PID a ≠ PPID a → PID b ≠ PPID b → PID a ≠ PID b →
  (2 ≤ fuel)%nat →
  ∃ s1,
    constructProcessTree fuel (buildIndex [a; b]) (PPID a) a rootPtr initRSt
      = Some (tt, s1) ∧
    constructProcessTree fuel (buildIndex [a; b]) (PPID b) b rootPtr s1
      = Some (tt, s1) ∧
    renderRun fuel [a; b] = Some s1 ∧
    visits s1 = [(PPID a, a); (PID a, a); (PID b, b)] ∧
    heap s1 =
      [ {| Root := None; Meta := None; Val := VStr "..."; Nodes := [1%nat] |};
        {| Root := Some 0%nat; Meta := None; Val := VInt (PPID a);
           Nodes := [2%nat; 3%nat] |};
        {| Root := Some 1%nat; Meta := if Agent a then Some "*"%string else None;
           Val := VStr (output (PID a) a); Nodes := [] |};
        {| Root := Some 1%nat; Meta := if Agent b then Some "*"%string else None;
           Val := VStr (output (PID b) b); Nodes := [] |} ].
Proof.
  intros Ha Hb Hpp Hna Hnb Hab Hfuel.
  set (pstree := buildIndex [a; b]).
  assert (dcrOnly [a; b] = [a; b]) as Hfs
    by (by rewrite !dcrOnly_cons, Ha, Hb).
  assert (pstree !!! PPID a = [a; b]) as Hroot.
  { unfold pstree. rewrite buildIndex_bucket, Hfs, !filter_cons, filter_nil.
    rewrite decide_True by done. by rewrite decide_True by done. }
  assert (pstree !!! PID a = []) as Hba.
  { unfold pstree. rewrite buildIndex_bucket, Hfs, !filter_cons, filter_nil.
    rewrite decide_False by done. by rewrite decide_False by congruence. }
  assert (pstree !!! PID b = []) as Hbb.
  { unfold pstree. rewrite buildIndex_bucket, Hfs, !filter_cons, filter_nil.
    rewrite decide_False by congruence. by rewrite decide_False by done. }
  set (s1 := enter (PID b) b 1%nat (enter (PID a) a 1%nat (enter (PPID a) a 0%nat initRSt))).
  assert (∀ k, seen_of initRSt k = false) as Hinit.
  { intros k. unfold seen_of. simpl. by rewrite lookup_empty. }
  assert (∀ c t s, pstree !!! PID c = [] → seen_of s (PID c) = false →
            constructProcessTree 1 pstree (PID c) c t s
            = Some (tt, enter (PID c) c t s)) as Hleaf.
  { intros c t s Hc Hs. by rewrite construct_unfold, Hs, Hc. }
  assert (constructProcessTree 2 pstree (PPID a) a rootPtr initRSt = Some (tt, s1)) as Hfirst.
  { rewrite construct_unfold, Hinit, Hroot, forEach_cons.
    rewrite Hleaf; [|done|by rewrite seen_of_enter, decide_False, Hinit].
    rewrite forEach_cons.
    rewrite Hleaf; [done|done|].
    rewrite !seen_of_enter, decide_False by done.
    by rewrite decide_False, Hinit by congruence. }
  assert (seen_of s1 (PPID b) = true) as Hseen.
  { unfold s1. rewrite !seen_of_enter, decide_False by congruence.
    rewrite decide_False by congruence. by rewrite decide_True by done. }
  assert (constructProcessTree 2 pstree (PPID b) b rootPtr s1 = Some (tt, s1)) as Hsecond
    by (by rewrite construct_unfold, Hseen).
  exists s1.
  apply (construct_fuel_le _ _ fuel) in Hfirst; [|done].
  apply (construct_fuel_le _ _ fuel) in Hsecond; [|done].
  split; [done|]. split; [done|]. split; [|split].
  - unfold renderRun, renderLoop. fold pstree.
    rewrite forEach_cons, Ha. change (negb true) with false. cbv beta iota.
    rewrite Hfirst, forEach_cons, Hb. change (negb true) with false. cbv beta iota.
    by rewrite Hsecond, forEach_nil.
  - reflexivity.
  - unfold s1. rewrite !heap_enter. simpl.
    unfold nodeMeta, nodeValue.
    destruct (Z.eqb_spec (PID a) (PPID a)); [done|].
    destruct (Z.eqb_spec (PID b) (PPID b)); [done|].
    by rewrite Z.eqb_refl.
Qed.

Lemma forEach_app {A} (l1 l2 : list A) (body : A → M unit) s :
  forEach (l1 ++ l2) body s =
  match forEach l1 body s with
  | Some (_, s1) => forEach l2 body s1
  | None => None
  end.
Proof.
  revert s. induction l1 as [|x l1 IH]; intros s; [done|].
  rewrite <- app_comm_cons, !forEach_cons.
  destruct (body x s) as [[[] s1]|]; [apply IH|done].
Qed.

Lemma renderLoop_seen_sub fuel pstree l s s' :
  renderLoop fuel pstree l s = Some (tt, s') → seen_sub s s'.
Proof.
  intros Hrun. unfold renderLoop in Hrun.
  refine (forEach_inv (seen_sub s) _ _ _ s s' (seen_sub_refl s) Hrun).
  intros p s1 s2 _ Hs1 Hbody. simpl in Hbody.
  destruct (negb (HasPrefix (Exec p) dcrPrefix)).
  - by injection Hbody as <-.
  - eapply seen_sub_trans; [exact Hs1|].
    by destruct (construct_expands _ _ _ _ _ _ _ Hbody) as [? _].
Qed.

(** A top-level call for a record whose parent identifier an earlier
    family record of the enumeration has as well finds the parent marked
    and returns the state as it is. *)
Lemma later_sibling_skipped fuel pstree l1 a l2 b s0 s :
  HasPrefix (Exec a) dcrPrefix = true → PPID a = PPID b → (1 ≤ fuel)%nat →
  renderLoop fuel pstree (l1 ++ a :: l2) s0 = Some (tt, s) →
  constructProcessTree fuel pstree (PPID b) b rootPtr s = Some (tt, s).
Proof.
  intros Ha Hpp Hfuel Hrun. unfold renderLoop in Hrun.
  rewrite forEach_app in Hrun.
  destruct (forEach l1 _ s0) as [[[] s1]|]; [|discriminate].
  rewrite forEach_cons, Ha in Hrun. change (negb true) with false in Hrun.
  cbv beta iota in Hrun.
  destruct (constructProcessTree fuel pstree (PPID a) a rootPtr s1) as [[[] s2]|] eqn:Hcall;
    [|discriminate].
  destruct (construct_expands _ _ _ _ _ _ _ Hcall) as (_ & Hseen & _).
  apply (renderLoop_seen_sub fuel pstree l2 s2 s Hrun) in Hseen.
  destruct fuel as [|fuel]; [lia|].
  by rewrite construct_unfold, <- Hpp, Hseen.
Qed.

(** ** Determinism of tree mode *)

(** C7. With enough fuel, [displayProcessTree] writes a text that is
    determined by the snapshot alone: it is the same for every sufficient
    fuel and for every earlier value of the global [pstree], in
    particular in a second run that starts from the [pstree] the first run
    has left. *)
Theorem display_deterministic (treeString : list node → ptr → string)
    (ps : list P) (fuel1 fuel2 : nat) (pstree0 : gmap Z (list P)) :
  (treeFuel ps ≤ fuel1)%nat →
  (treeFuel ps ≤ fuel2)%nat →
  ∃ pstree out,
    displayProcessTree treeString fuel1 ps pstree0 = Some (pstree, out) ∧
    displayProcessTree treeString fuel2 ps pstree = Some (pstree, out) ∧
    ∀ pstree1, displayProcessTree treeString fuel2 ps pstree1 = Some (pstree, out).
Proof.
  intros Hfuel1 Hfuel2. unfold displayProcessTree.
  destruct (renderLoop_total ps (treeFuel ps) (le_n _) ps initRSt) as (s & Hs); [done|].
  pose proof (renderLoop_fuel_le _ _ _ _ _ _ Hfuel1 Hs) as H1.
  pose proof (renderLoop_fuel_le _ _ _ _ _ _ Hfuel2 Hs) as H2.
  rewrite H1, H2. by eexists _, _.
Qed.

Lemma display_deterministic_witness :
  ∃ pstree out,
    displayProcessTree (λ h t, Itoa (Z.of_nat (length h))) 7 cyclicPair ∅
      = Some (pstree, out) ∧
    displayProcessTree (λ h t, Itoa (Z.of_nat (length h))) 9 cyclicPair pstree
      = Some (pstree, out).
Proof.
  destruct (display_deterministic (λ h t, Itoa (Z.of_nat (length h))) cyclicPair 7 9 ∅)
    as (pstree & out & H1 & H2 & _); [vm_compute; lia..|].
  exists pstree, out. split; [exact H1|exact H2].
Defined.

(** ** The column widths of list mode *)

Lemma max_spec i j : max i j = Z.max i j.
Proof. unfold max. destruct (Z.gtb_spec i j); lia. Qed.

Lemma foldl_max_spec (f : P → Z) (l : list P) (m0 : Z) :
  let m := foldl (λ m p, max m (f p)) m0 l in
  m0 ≤ m ∧ (∀ p, p ∈ l → f p ≤ m) ∧ (m = m0 ∨ ∃ p, p ∈ l ∧ m = f p).
Proof.
  revert m0. induction l as [|p l IH]; intros m0; simpl.
  - split; [lia|]. split; [by intros p ?%elem_of_nil|by left].
  - destruct (IH (max m0 (f p))) as (Hle & Hub & Hatt). rewrite max_spec in *.
    split; [lia|]. split.
    + intros q [->|Hq]%elem_of_cons; [lia|by apply Hub].
    + destruct Hatt as [->|(q & Hq & ->)].
      * destruct (Z.max_spec m0 (f p)) as [[_ ->]|[_ ->]]; [right|by left].
        exists p. split; [left|done].
      * right. exists q. split; [by right|done].
Qed.

Lemma columnWidths_fold (l : list P) (w0 : widths) :
  let w := foldl (λ w p,
                    {| maxPID := max (maxPID w) (len (Itoa (PID p)));
                       maxPPID := max (maxPPID w) (len (Itoa (PPID p)));
                       maxExec := max (maxExec w) (len (Exec p));
                       maxVersion := max (maxVersion w) (len (BuildVersion p)) |})
                 w0 l in
  maxPID w = foldl (λ m p, max m (len (Itoa (PID p)))) (maxPID w0) l ∧
  maxPPID w = foldl (λ m p, max m (len (Itoa (PPID p)))) (maxPPID w0) l ∧
  maxExec w = foldl (λ m p, max m (len (Exec p))) (maxExec w0) l ∧
  maxVersion w = foldl (λ m p, max m (len (BuildVersion p))) (maxVersion w0) l.
Proof.
  revert w0. induction l as [|p l IH]; intros w0; simpl; [done|]. apply IH.
Qed.

Lemma len_nonneg s : 0 ≤ len s.
Proof. unfold len. lia. Qed.

(** A column: every value fits, and the width is the length of one of the
    values when there is one. *)
Lemma column_spec (f : P → Z) (l : list P) :
  (∀ p, 0 ≤ f p) →
  let m := foldl (λ m p, max m (f p)) 0 l in
  (∀ p, p ∈ l → f p ≤ m) ∧ (l ≠ [] → ∃ p, p ∈ l ∧ m = f p) ∧ (l = [] → m = 0).
Proof.
  intros Hf m. destruct (foldl_max_spec f l 0) as (Hle & Hub & Hatt). fold m in Hle, Hub, Hatt.
  split; [done|]. split; [|by intros ->].
  intros Hne. destruct Hatt as [Hm|?]; [|done].
  destruct l as [|p l]; [done|]. exists p. split; [left|].
  pose proof (Hub p (list_elem_of_here _ _)). pose proof (Hf p). lia.
Qed.

Lemma length_spaces n : String.length (spaces n) = n.
Proof. induction n as [|n IH]; simpl; [done|by rewrite IH]. Qed.

Lemma string_length_app (s1 s2 : string) :
  String.length (s1 +:+ s2) = (String.length s1 + String.length s2)%nat.
Proof. induction s1 as [|c s1 IH]; simpl; [done|by rewrite IH]. Qed.

Lemma string_app_assoc (a b c : string) : (a +:+ b) +:+ c = a +:+ (b +:+ c).
Proof.
  induction a as [|x a IH]; [done|].
  change (String x ((a +:+ b) +:+ c) = String x (a +:+ (b +:+ c))). by rewrite IH.
Qed.

Lemma len_app (a b : string) : len (a +:+ b) = len a + len b.
Proof. unfold len. rewrite string_length_app. lia. Qed.

Lemma get_after (a : string) (c : ascii) (r : string) :
  String.get (String.length a) (a +:+ String c r) = Some c.
Proof.
  induction a as [|x a IH]; [done|].
  change (String.get (String.length a) (a +:+ String c r) = Some c). exact IH.
Qed.

Lemma columnWidths_fit (l : list P) (p : P) :
  p ∈ l →
  len (Itoa (PID p)) ≤ maxPID (columnWidths l) ∧
  len (Itoa (PPID p)) ≤ maxPPID (columnWidths l) ∧
  len (Exec p) ≤ maxExec (columnWidths l) ∧
  len (BuildVersion p) ≤ maxVersion (columnWidths l).
Proof.
  intros Hp.
  destruct (columnWidths_fold l
              {| maxPID := 0; maxPPID := 0; maxExec := 0; maxVersion := 0 |})
    as (E1 & E2 & E3 & E4).
  fold (columnWidths l) in E1, E2, E3, E4. simpl in E1, E2, E3, E4.
  rewrite E1, E2, E3, E4.
  destruct (column_spec (λ p, len (Itoa (PID p))) l (λ p, len_nonneg _)) as (U1 & _).
  destruct (column_spec (λ p, len (Itoa (PPID p))) l (λ p, len_nonneg _)) as (U2 & _).
  destruct (column_spec (λ p, len (Exec p)) l (λ p, len_nonneg _)) as (U3 & _).
  destruct (column_spec (λ p, len (BuildVersion p)) l (λ p, len_nonneg _)) as (U4 & _).
  auto.
Qed.

(** *** Runes and bytes *)

Lemma runeCountFrom_bounds (k : nat) (s : string) : 0 ≤ runeCountFrom k s ≤ len s.
Proof.
  revert k. induction s as [|c s IH]; intros k; [done|].
  cbn [runeCountFrom]. unfold len in *. cbn [String.length].
  destruct k as [|k].
  - specialize (IH (pred (runeSize c s))). lia.
  - specialize (IH k). lia.
Qed.

Lemma RuneCount_le_len (s : string) : 0 ≤ RuneCountInString s ≤ len s.
Proof. apply runeCountFrom_bounds. Qed.

Lemma RuneCount_ascii (s : string) : isAscii s = true → RuneCountInString s = len s.
Proof.
  unfold RuneCountInString. induction s as [|c s IH]; [done|].
  cbn [isAscii runeCountFrom]. intros [Hc Hs]%andb_true_iff.
  unfold runeSize. rewrite Hc. cbn [pred]. rewrite IH by done.
  unfold len. cbn [String.length]. lia.
Qed.

Lemma isAscii_uint (d : Decimal.uint) : isAscii (NilEmpty.string_of_uint d) = true.
Proof.
  induction d as [|d IH|d IH|d IH|d IH|d IH|d IH|d IH|d IH|d IH|d IH];
    [done|..]; cbn [NilEmpty.string_of_uint isAscii]; by rewrite IH.
Qed.

Lemma isAscii_Itoa (n : Z) : isAscii (Itoa n) = true.
Proof.
  unfold Itoa. destruct (Z.to_int n) as [d|d]; cbn [NilZero.string_of_int].
  - destruct d; [done|..]; apply isAscii_uint.
  - cbn [isAscii]. destruct d; [done|..]; apply isAscii_uint.
Qed.

Lemma RuneCount_Itoa (n : Z) : RuneCountInString (Itoa n) = len (Itoa n).
Proof. apply RuneCount_ascii, isAscii_Itoa. Qed.

(** A padded text takes exactly the width when it has as many runes as
    bytes and fits. *)
Lemma len_padLeft w s :
  RuneCountInString s = len s → len s ≤ w → len (padLeft w s) = w.
Proof.
  intros Hrunes Hfit. unfold padLeft. rewrite Hrunes.
  unfold len in *. rewrite string_length_app, length_spaces. lia.
Qed.

(** *** The widths by runes *)

Lemma displayWidths_fold (l : list P) (w0 : widths) :
  let w := foldl (λ w p,
                    {| maxPID := max (maxPID w) (RuneCountInString (Itoa (PID p)));
                       maxPPID := max (maxPPID w) (RuneCountInString (Itoa (PPID p)));
                       maxExec := max (maxExec w) (RuneCountInString (Exec p));
                       maxVersion := max (maxVersion w)
                                         (RuneCountInString (BuildVersion p)) |})
                 w0 l in
  maxPID w = foldl (λ m p, max m (RuneCountInString (Itoa (PID p)))) (maxPID w0) l ∧
  maxPPID w = foldl (λ m p, max m (RuneCountInString (Itoa (PPID p)))) (maxPPID w0) l ∧
  maxExec w = foldl (λ m p, max m (RuneCountInString (Exec p))) (maxExec w0) l ∧
  maxVersion w = foldl (λ m p, max m (RuneCountInString (BuildVersion p))) (maxVersion w0) l.
Proof.
  revert w0. induction l as [|p l IH]; intros w0; simpl; [done|]. apply IH.
Qed.

Lemma foldl_max_le (f g : P → Z) (l : list P) (m0 m0' : Z) :
  m0 ≤ m0' → (∀ p, p ∈ l → f p ≤ g p) →
  foldl (λ m p, max m (f p)) m0 l ≤ foldl (λ m p, max m (g p)) m0' l.
Proof.
  revert m0 m0'. induction l as [|p l IH]; intros m0 m0' Hm Hfg; simpl; [done|].
  apply IH.
  - rewrite !max_spec. pose proof (Hfg p (list_elem_of_here _ _)). lia.
  - intros q Hq. apply Hfg. by right.
Qed.

Lemma foldl_max_ext (f g : P → Z) (l : list P) (m0 : Z) :
  (∀ p, p ∈ l → f p = g p) →
  foldl (λ m p, max m (f p)) m0 l = foldl (λ m p, max m (g p)) m0 l.
Proof.
  intros Hfg. apply Z.le_antisymm; apply foldl_max_le; try lia;
    intros p Hp; rewrite (Hfg p Hp); lia.
Qed.

Lemma widths_eq (w w' : widths) :
  maxPID w = maxPID w' → maxPPID w = maxPPID w' →
  maxExec w = maxExec w' → maxVersion w = maxVersion w' → w = w'.
Proof. destruct w, w'. simpl. by intros -> -> -> ->. Qed.

(** The widths of the code against the widths by runes: the same for the
    two columns of numbers, never smaller for the two columns of texts,
    and the same there as well when the texts are ASCII. *)
Lemma columnWidths_displayWidths (l : list P) :
  maxPID (columnWidths l) = maxPID (displayWidths l) ∧
  maxPPID (columnWidths l) = maxPPID (displayWidths l) ∧
  maxExec (displayWidths l) ≤ maxExec (columnWidths l) ∧
  maxVersion (displayWidths l) ≤ maxVersion (columnWidths l) ∧
  ((∀ p, p ∈ l → isAscii (Exec p) = true ∧ isAscii (BuildVersion p) = true) →
   columnWidths l = displayWidths l).
Proof.
  destruct (columnWidths_fold l
              {| maxPID := 0; maxPPID := 0; maxExec := 0; maxVersion := 0 |})
    as (E1 & E2 & E3 & E4).
  fold (columnWidths l) in E1, E2, E3, E4. simpl in E1, E2, E3, E4.
  destruct (displayWidths_fold l
              {| maxPID := 0; maxPPID := 0; maxExec := 0; maxVersion := 0 |})
    as (D1 & D2 & D3 & D4).
  fold (displayWidths l) in D1, D2, D3, D4. simpl in D1, D2, D3, D4.
  assert (maxPID (columnWidths l) = maxPID (displayWidths l)) as H1.
  { rewrite E1, D1. apply foldl_max_ext. intros p _. by rewrite RuneCount_Itoa. }
  assert (maxPPID (columnWidths l) = maxPPID (displayWidths l)) as H2.
  { rewrite E2, D2. apply foldl_max_ext. intros p _. by rewrite RuneCount_Itoa. }
  split; [done|]. split; [done|]. split; [|split].
  - rewrite E3, D3. apply foldl_max_le; [lia|]. intros p _. apply RuneCount_le_len.
  - rewrite E4, D4. apply foldl_max_le; [lia|]. intros p _. apply RuneCount_le_len.
  - intros Hascii. apply widths_eq; [done|done|..].
    + rewrite E3, D3. apply foldl_max_ext. intros p Hp.
      symmetry. by apply RuneCount_ascii, Hascii.
    + rewrite E4, D4. apply foldl_max_ext. intros p Hp.
      symmetry. by apply RuneCount_ascii, Hascii.
Qed.

(** *** The rows *)

(** The format of [processes] is the format of the directives of a row. *)
Lemma fmtString_directives (w : widths) (p : P) :
  fmtString w = formatOf (rowDirectives w p).
Proof.
  unfold fmtString, formatOf, rowDirectives. cbn [foldr width operand after widthText argVerb].
  reflexivity.
Qed.

(** A row whose widths [fmt] accepts: the cells, each the value with
    spaces before it and with nothing cut, a blank between them, then the
    path and the line end. *)
Lemma printRow_cells (w : widths) (p : P) :
  widthsAccepted w = true →
  printRow w p =
    padLeft (maxPID w) (Itoa (PID p)) +:+ " " +:+
    padLeft (maxPPID w) (Itoa (PPID p)) +:+ " " +:+
    padLeft (maxExec w) (Exec p) +:+ " " +:+
    padLeft 1 (if Agent p then "*" else " ") +:+ " " +:+
    padLeft (maxVersion w) (BuildVersion p) +:+ " " +:+
    Path p +:+ nl.
Proof.
  unfold widthsAccepted. rewrite !andb_true_iff, !negb_true_iff.
  intros [[[H1 H2] H3] H4].
  unfold printRow, rowDirectives. cbn [Sprintf width operand after argText].
  rewrite H1, H2, H3, H4. change (widthRefused 1) with false. cbv iota.
  reflexivity.
Qed.

Lemma columnWidths_nonneg (l : list P) :
  0 ≤ maxPID (columnWidths l) ∧ 0 ≤ maxPPID (columnWidths l) ∧
  0 ≤ maxExec (columnWidths l) ∧ 0 ≤ maxVersion (columnWidths l).
Proof.
  destruct (columnWidths_fold l
              {| maxPID := 0; maxPPID := 0; maxExec := 0; maxVersion := 0 |})
    as (E1 & E2 & E3 & E4).
  fold (columnWidths l) in E1, E2, E3, E4. simpl in E1, E2, E3, E4.
  rewrite E1, E2, E3, E4.
  destruct (foldl_max_spec (λ p, len (Itoa (PID p))) l 0) as (? & _).
  destruct (foldl_max_spec (λ p, len (Itoa (PPID p))) l 0) as (? & _).
  destruct (foldl_max_spec (λ p, len (Exec p)) l 0) as (? & _).
  destruct (foldl_max_spec (λ p, len (BuildVersion p)) l 0) as (? & _).
  done.
Qed.

(** A width from 0 to 10^6 is accepted by [fmt]. *)
Lemma width_accepted (w : Z) : 0 ≤ w ≤ 1000000 → widthRefused w = false.
Proof.
  intros Hw. unfold widthRefused, tooLarge.
  assert (0 ≤ w / 10 ≤ w) as Hdiv.
  { split; [apply Z.div_pos; lia|]. apply Z.div_le_upper_bound; lia. }
  apply orb_false_iff. split; apply Z.ltb_ge; lia.
Qed.

Lemma widths_accepted (l : list P) :
  maxPID (columnWidths l) < 1000000 → maxPPID (columnWidths l) < 1000000 →
  maxExec (columnWidths l) < 1000000 → maxVersion (columnWidths l) < 1000000 →
  widthsAccepted (columnWidths l) = true.
Proof.
  intros H1 H2 H3 H4. destruct (columnWidths_nonneg l) as (N1 & N2 & N3 & N4).
  unfold widthsAccepted. rewrite !width_accepted by lia. reflexivity.
Qed.

(** C8, as the code has it. In list mode the width of each of the four
    measured columns is the largest length in bytes ([len]) among the
    values of the column over the family records: every value fits and the
    width is the length of one of the values. A value never has more runes
    than bytes, so that each column is at least as wide as the display
    length of every value of it; for the two columns of numbers, and for
    the two columns of texts when the texts are ASCII, the width is exactly
    the largest display length. [processes] prints every row with these
    widths, under the format [fmtString]; for widths below 10^6 each cell
    is the value in full, nothing cut, with spaces before it.
    For a snapshot whose family PIDs are 7 and 1234 the PID column is 4
    wide. *)
Theorem column_widths_are_maxima (ps : list P) :
  let dcrPs := dcrOnly ps in
  let w := columnWidths dcrPs in
  (∀ p, p ∈ dcrPs →
     len (Itoa (PID p)) ≤ maxPID w ∧ len (Itoa (PPID p)) ≤ maxPPID w ∧
     len (Exec p) ≤ maxExec w ∧ len (BuildVersion p) ≤ maxVersion w) ∧
  (dcrPs ≠ [] →
     (∃ p, p ∈ dcrPs ∧ maxPID w = len (Itoa (PID p))) ∧
     (∃ p, p ∈ dcrPs ∧ maxPPID w = len (Itoa (PPID p))) ∧
     (∃ p, p ∈ dcrPs ∧ maxExec w = len (Exec p)) ∧
     (∃ p, p ∈ dcrPs ∧ maxVersion w = len (BuildVersion p))) ∧
  (∀ p, p ∈ dcrPs →
     RuneCountInString (Itoa (PID p)) ≤ maxPID w ∧
     RuneCountInString (Itoa (PPID p)) ≤ maxPPID w ∧
     RuneCountInString (Exec p) ≤ maxExec w ∧
     RuneCountInString (BuildVersion p) ≤ maxVersion w) ∧
  (maxPID w = maxPID (displayWidths dcrPs) ∧
   maxPPID w = maxPPID (displayWidths dcrPs) ∧
   maxExec (displayWidths dcrPs) ≤ maxExec w ∧
   maxVersion (displayWidths dcrPs) ≤ maxVersion w ∧
   ((∀ p, p ∈ dcrPs → isAscii (Exec p) = true ∧ isAscii (BuildVersion p) = true) →
    w = displayWidths dcrPs)) ∧
  (processes ps = printRow w <$> dcrPs ∧
   (∀ p, fmtString w = formatOf (rowDirectives w p)) ∧
   (maxPID w < 1000000 → maxPPID w < 1000000 →
    maxExec w < 1000000 → maxVersion w < 1000000 →
    ∀ p, printRow w p =
         padLeft (maxPID w) (Itoa (PID p)) +:+ " " +:+
         padLeft (maxPPID w) (Itoa (PPID p)) +:+ " " +:+
         padLeft (maxExec w) (Exec p) +:+ " " +:+
         padLeft 1 (if Agent p then "*" else " ") +:+ " " +:+
         padLeft (maxVersion w) (BuildVersion p) +:+ " " +:+
         Path p +:+ nl)) ∧
  (PID <$> dcrPs ≡ₚ [7; 1234] → maxPID w = 4).
Proof.
  intros dcrPs w.
  destruct (columnWidths_fold dcrPs
              {| maxPID := 0; maxPPID := 0; maxExec := 0; maxVersion := 0 |})
    as (E1 & E2 & E3 & E4).
  fold (columnWidths dcrPs) in E1, E2, E3, E4. fold w in E1, E2, E3, E4.
  simpl in E1, E2, E3, E4.
  destruct (column_spec (λ p, len (Itoa (PID p))) dcrPs (λ p, len_nonneg _))
    as (U1 & A1 & _).
  destruct (column_spec (λ p, len (Itoa (PPID p))) dcrPs (λ p, len_nonneg _))
    as (U2 & A2 & _).
  destruct (column_spec (λ p, len (Exec p)) dcrPs (λ p, len_nonneg _))
    as (U3 & A3 & _).
  destruct (column_spec (λ p, len (BuildVersion p)) dcrPs (λ p, len_nonneg _))
    as (U4 & A4 & _).
  rewrite <- E1 in U1, A1. rewrite <- E2 in U2, A2.
  rewrite <- E3 in U3, A3. rewrite <- E4 in U4, A4.
  assert (∀ p, p ∈ dcrPs →
            len (Itoa (PID p)) ≤ maxPID w ∧ len (Itoa (PPID p)) ≤ maxPPID w ∧
            len (Exec p) ≤ maxExec w ∧ len (BuildVersion p) ≤ maxVersion w) as Hfit
    by (intros p Hp; auto).
  split; [exact Hfit|]. split; [by auto|]. split; [|split; [|split]].
  - intros p Hp. destruct (Hfit p Hp) as (F1 & F2 & F3 & F4).
    pose proof (RuneCount_le_len (Itoa (PID p))).
    pose proof (RuneCount_le_len (Itoa (PPID p))).
    pose proof (RuneCount_le_len (Exec p)).
    pose proof (RuneCount_le_len (BuildVersion p)). lia.
  - apply columnWidths_displayWidths.
  - split; [reflexivity|]. split; [apply fmtString_directives|].
    intros B1 B2 B3 B4 p. by apply printRow_cells, widths_accepted.
  - intros Hperm.
    assert (dcrPs ≠ []) as Hne
      by (intros Hnil; rewrite Hnil in Hperm; by apply Permutation_nil_cons in Hperm).
    destruct (A1 Hne) as (p & Hp & Hm).
    assert (PID p ∈ [7; 1234]) as Hpid
      by (rewrite <- Hperm; apply list_elem_of_fmap; eauto).
    assert (1234 ∈ PID <$> dcrPs) as Hbig
      by (rewrite Hperm; right; left).
    apply list_elem_of_fmap in Hbig as (q & Hq & Hqin).
    pose proof (U1 q Hqin) as Hle. rewrite <- Hq in Hle.
    change (len (Itoa 1234)) with 4 in Hle.
    apply elem_of_cons in Hpid as [Hpid|Hpid].
    + rewrite Hpid in Hm. change (len (Itoa 7)) with 1 in Hm. lia.
    + apply list_elem_of_singleton in Hpid. rewrite Hm, Hpid. reflexivity.
Qed.

Lemma column_widths_are_maxima_witness :
  PID <$> dcrOnly [mkP 1234 1 "dcrd" "" "v1" false; mkP 1 0 "init" "" "" false;
                   mkP 7 1 "dcrwallet" "" "v1" true] ≡ₚ [7; 1234] ∧
  maxPID (columnWidths (dcrOnly [mkP 1234 1 "dcrd" "" "v1" false; mkP 1 0 "init" "" "" false;
                                 mkP 7 1 "dcrwallet" "" "v1" true])) = 4.
Proof.
  assert (PID <$> dcrOnly [mkP 1234 1 "dcrd" "" "v1" false; mkP 1 0 "init" "" "" false;
                           mkP 7 1 "dcrwallet" "" "v1" true] ≡ₚ [7; 1234]) as Hperm
    by apply perm_swap.
  split; [exact Hperm|].
  exact (proj2 (proj2 (proj2 (proj2 (proj2 (column_widths_are_maxima _))))) Hperm).
Defined.

(** C8 as stated fails. A family process whose name has a letter of two
    bytes and is the longest name: the name has five runes and six bytes,
    the column of the names is six wide, and the row of the process shows
    the name after one blank. *)
Lemma widths_are_display_lengths_fails :
  maxExec (displayWidths (dcrOnly accentedName)) = 5 ∧
  maxExec (columnWidths (dcrOnly accentedName)) = 6 ∧
  processes accentedName =
    [ "   7 1 " +:+ " dcrd" +:+ String "195" (String "169" EmptyString) +:+
      "   v1.4.0 /usr/bin/dcrd" +:+ nl;
      "1234 1 " +:+ "  dcrd" +:+ " * v1.4.0 /usr/local/bin/dcrd" +:+ nl ] ∧
  ¬ widths_are_display_lengths accentedName.
Proof.
  split; [vm_compute; reflexivity|]. split; [vm_compute; reflexivity|].
  split; [vm_compute; reflexivity|].
  unfold widths_are_display_lengths. vm_compute. discriminate.
Qed.

(** ** The command line *)

Lemma two_args (a b : string) (rest : list string) :
  (Z.of_nat (length (a :: b :: rest)) <? 2) = false.
Proof. apply Z.ltb_ge. simpl length. lia. Qed.

Lemma usage_run {Addr} (msg : string) (t : list (event Addr)) :
  usage msg t =
  (Exited 1,
   (if negb (String.eqb msg "") then t ++ [Stdout ("dcrps: " +:+ msg +:+ nl)] else t)
     ++ [Stderr (helpText +:+ nl)]).
Proof.
  unfold usage, mbind, IO_bind, emit, os_Exit.
  by destruct (negb (String.eqb msg "")).
Qed.

(** A name with the family prefix. *)
Lemma has_dcrPrefix (name : string) :
  HasPrefix name dcrPrefix = true →
  ∃ rest, name = String "d" (String "c" (String "r" rest)).
Proof.
  unfold HasPrefix, dcrPrefix. intros H%prefix_correct.
  destruct name as [|c1 [|c2 [|c3 rest]]]; simpl in H; try discriminate.
  injection H as -> -> -> _. by exists rest.
Qed.

Lemma printIf_run {Addr A} (q : option A) (line : A → string) (t : list (event Addr)) :
  printIf q line t = (Done tt, t ++ (Stdout ∘ line <$> option_list q)).
Proof.
  destruct q; simpl; [done|]. unfold mret, IO_ret. by rewrite app_nil_r.
Qed.

Lemma forEachIO_emit {Addr A} (l : list A) (line : A → string) (t : list (event Addr)) :
  forEachIO l (λ x, emit (Stdout (line x))) t = (Done tt, t ++ (Stdout ∘ line <$> l)).
Proof.
  revert t. induction l as [|x l IH]; intros t.
  - simpl. unfold mret, IO_ret. by rewrite app_nil_r.
  - simpl. unfold mbind, IO_bind, emit. rewrite IH. by rewrite <- app_assoc.
Qed.

Section ProcessInfoRuns.

Variable float32 float64 : Type.
Variable fmt3f32 : float32 → string.
Variable fmt3f64 : float64 → string.
Variable NewProcess : Z → Process float32 float64 + string.
Variable logPrefix : string.
Variable Addr : Type.

Lemma processInfo_exits (pid : Z) (err : string) (t : list (event Addr)) :
  NewProcess (int32 pid) = inr err →
  processInfo float32 float64 fmt3f32 fmt3f64 NewProcess logPrefix Addr pid t
  = (Exited 1, t ++ [Stderr (logPrefix +:+ "Cannot read process info: " +:+ err +:+ nl)]).
Proof. intros Hnew. unfold processInfo. by rewrite Hnew. Qed.

Lemma processInfo_returns (pid : Z) (p : Process float32 float64) (t : list (event Addr)) :
  NewProcess (int32 pid) = inl p →
  ∃ out,
    processInfo float32 float64 fmt3f32 fmt3f64 NewProcess logPrefix Addr pid t
    = (Done tt, t ++ out) ∧
    Forall isStdout out ∧
    length out = answers float32 float64 p.
Proof.
  intros Hnew. unfold processInfo. rewrite Hnew.
  unfold mbind, IO_bind. rewrite !printIf_run.
  assert (∀ {A} (f : A → string) (l : list A),
            Forall (@isStdout Addr) (Stdout ∘ f <$> l)) as Hout.
  { intros A f l. apply Forall_fmap, Forall_true. by intros x. }
  destruct (Connections float32 float64 p) as [v|] eqn:Hconn.
  - destruct (Z.of_nat (length v) >? 0) eqn:Hlen.
    + rewrite forEachIO_emit, <- !app_assoc. eexists. split; [reflexivity|].
      split; [repeat (apply Forall_app; split); apply Hout|].
      unfold answers. rewrite Hconn, !length_app, !length_fmap. simpl.
      by rewrite ?Nat.add_0_r, !Nat.add_assoc.
    + assert (v = []) as ->.
      { destruct v; [done|]. exfalso. rewrite Z.gtb_ltb in Hlen.
        apply Z.ltb_ge in Hlen. simpl length in Hlen. lia. }
      unfold mret, IO_ret. rewrite <- !app_assoc. eexists. split; [reflexivity|].
      split; [repeat (apply Forall_app; split); apply Hout|].
      unfold answers. rewrite Hconn, !length_app, !length_fmap. simpl.
      by rewrite ?Nat.add_0_r, !Nat.add_assoc.
  - unfold mret, IO_ret. rewrite <- !app_assoc. eexists. split; [reflexivity|].
    split; [repeat (apply Forall_app; split); apply Hout|].
    unfold answers. rewrite Hconn, !length_app, !length_fmap. simpl.
    by rewrite ?Nat.add_0_r, !Nat.add_assoc.
Qed.

End ProcessInfoRuns.

Section MainProperties.

Variable float32 float64 : Type.
Variable fmt3f32 : float32 → string.
Variable fmt3f64 : float64 → string.
Variable NewProcess : Z → Process float32 float64 + string.
Variable logPrefix : string.
Variable Addr : Type.
Variable cmds : gmap string (Addr → list string → option string).
Variable targetToAddr : string → Addr + string.

(** C9. With ["help"] as first argument, and with a first argument that is
    not a number, not ["help"], not ["tree"], not a command of [cmds] and
    not a name of [nameToPid], [main] writes the help text to standard
    error and exits with status 1; in the second case the line
    ["dcrps: unknown subcommand"] goes to standard output before. *)
Theorem usage_on_help_and_unknown (nameToPid : gmap string Z)
    (prog : string) (rest : list string) :
  main float32 float64 fmt3f32 fmt3f64 NewProcess logPrefix Addr cmds targetToAddr nameToPid
    (prog :: "help"%string :: rest) []
    = (Exited 1, [Stderr (helpText +:+ nl)]) ∧
  ∀ cmd : string,
    Atoi cmd = None → cmd ≠ "help"%string → cmd ≠ "tree"%string →
    cmds !! cmd = None → nameToPid !! cmd = None →
    main float32 float64 fmt3f32 fmt3f64 NewProcess logPrefix Addr cmds targetToAddr nameToPid
      (prog :: cmd :: rest) []
      = (Exited 1, [Stdout ("dcrps: unknown subcommand" +:+ nl);
                    Stderr (helpText +:+ nl)]).
Proof.
  split.
  - unfold main. rewrite two_args. simpl.
    unfold mbind, IO_bind. by rewrite usage_run.
  - intros cmd Hnum Hhelp Htree Hcmd Hname.
    unfold main. rewrite two_args. simpl. rewrite Hnum.
    apply String.eqb_neq in Hhelp, Htree. rewrite Hhelp, Htree, Hcmd, Hname.
    unfold mbind, IO_bind, mret, IO_ret. by rewrite usage_run.
Qed.

(** A name of the table that is no number and no command: [main] runs
    [processInfo] with the PID that the table holds for it. *)
Lemma main_name (nameToPid : gmap string Z) (name prog : string) (rest : list string)
    (pid : Z) (t : list (event Addr)) :
  HasPrefix name dcrPrefix = true →
  cmds !! name = None →
  nameToPid !! name = Some pid →
  main float32 float64 fmt3f32 fmt3f64 NewProcess logPrefix Addr cmds targetToAddr nameToPid
    (prog :: name :: rest) t
  = processInfo float32 float64 fmt3f32 fmt3f64 NewProcess logPrefix Addr pid t.
Proof.
  intros Hfam Hcmd Hname.
  destruct (has_dcrPrefix name Hfam) as (tl & ->).
  unfold main. rewrite two_args. simpl. rewrite Hcmd, Hname. reflexivity.
Qed.

(** C10. When two or more processes of the snapshot that [init] reads
    have the same family executable name, [init] leaves -1 under this
    name in [nameToPid], and [main] with this name as first argument (the
    name not being a command of [cmds]) does what [processInfo] does with
    -1: it asks [process.NewProcess] for the process -1; when this fails
    it logs the error and ends the program with status 1, and otherwise it
    prints what the library answers about this process and returns. No
    ambiguity is reported and none of the processes of the name is
    chosen. *)
Theorem duplicate_name_is_minus_one (ps : list P) (name prog : string)
    (rest : list string) :
  HasPrefix name dcrPrefix = true →
  (2 ≤ length (filter (λ p, Exec p = name) ps))%nat →
  cmds !! name = None →
  init ps !! name = Some (-1) ∧
  main float32 float64 fmt3f32 fmt3f64 NewProcess logPrefix Addr cmds targetToAddr (init ps)
    (prog :: name :: rest) []
  = processInfo float32 float64 fmt3f32 fmt3f64 NewProcess logPrefix Addr (-1) [] ∧
  int32 (-1) = -1 ∧
  match NewProcess (-1) with
  | inr err =>
    main float32 float64 fmt3f32 fmt3f64 NewProcess logPrefix Addr cmds targetToAddr (init ps)
      (prog :: name :: rest) []
    = (Exited 1, [Stderr (logPrefix +:+ "Cannot read process info: " +:+ err +:+ nl)])
  | inl p =>
    ∃ out,
      main float32 float64 fmt3f32 fmt3f64 NewProcess logPrefix Addr cmds targetToAddr (init ps)
        (prog :: name :: rest) []
      = (Done tt, out) ∧
      Forall isStdout out ∧
      length out = answers float32 float64 p
  end.
Proof.
  intros Hfam Hdup Hcmd.
  assert (∀ l (m : gmap string Z),
            foldl (λ nameToPid p,
                     if negb (HasPrefix (Exec p) dcrPrefix) then nameToPid
                     else match nameToPid !! Exec p with
                          | Some _ => <[Exec p := -1]> nameToPid
                          | None => <[Exec p := PID p]> nameToPid
                          end) m l !! name =
            match filter (λ p, Exec p = name) l with
            | [] => m !! name
            | p :: others =>
              match m !! name, others with
              | None, [] => Some (PID p)
              | _, _ => Some (-1)
              end
            end) as Hfold.
  { induction l as [|p l IH]; intros m; [done|].
    simpl foldl. rewrite IH, filter_cons. clear IH.
    case_decide as Hp.
    - rewrite Hp, Hfam. simpl negb. cbv iota.
      destruct (m !! name) eqn:Hm; rewrite lookup_insert_eq;
        by destruct (filter _ l).
    - destruct (negb (HasPrefix (Exec p) dcrPrefix)); [done|].
      destruct (m !! Exec p); by rewrite lookup_insert_ne. }
  assert (init ps !! name = Some (-1)) as Hinit.
  { unfold init. rewrite Hfold, lookup_empty.
    destruct (filter _ ps) as [|p [|q others]]; simpl in Hdup; [lia..|done]. }
  pose proof (main_name (init ps) name prog rest (-1) [] Hfam Hcmd Hinit) as Hmain.
  split; [done|]. split; [done|]. split; [reflexivity|].
  rewrite Hmain. change (-1) with (int32 (-1)) at 1.
  destruct (NewProcess (int32 (-1))) as [p|err] eqn:Hnew.
  - apply (processInfo_returns _ _ _ _ _ _ _ _ _ [] Hnew).
  - apply (processInfo_exits _ _ _ _ _ _ _ _ _ [] Hnew).
Qed.

End MainProperties.

Lemma usage_on_help_and_unknown_witness :
  main unit unit (λ _, ""%string) (λ _, ""%string) (λ _, inr "no process"%string) ""
    unit ∅ (λ _, inr "no agent"%string) ∅ ["dcrps"; "frobnicate"]%string []
  = (Exited 1, [Stdout ("dcrps: unknown subcommand" +:+ nl); Stderr (helpText +:+ nl)]).
Proof.
  apply (proj2 (usage_on_help_and_unknown unit unit (λ _, ""%string) (λ _, ""%string)
                  (λ _, inr "no process"%string) "" unit ∅ (λ _, inr "no agent"%string) ∅
                  "dcrps" [])); [reflexivity|discriminate|discriminate|reflexivity..].
Defined.

Lemma duplicate_name_is_minus_one_witness :
  init (scenarioA ++ [loneRecord]) !! "dcrd"%string = Some (-1) ∧
  main unit unit (λ _, ""%string) (λ _, ""%string) (λ _, inr "process does not exist"%string)
    "2019/08/01 12:00:00 " unit ∅ (λ _, inr "no agent"%string)
    (init (scenarioA ++ [loneRecord])) ["dcrps"; "dcrd"]%string []
  = (Exited 1,
     [Stderr ("2019/08/01 12:00:00 Cannot read process info: process does not exist" +:+ nl)]).
Proof.
  destruct (duplicate_name_is_minus_one unit unit (λ _, ""%string) (λ _, ""%string)
              (λ _, inr "process does not exist"%string) "2019/08/01 12:00:00 "
              unit ∅ (λ _, inr "no agent"%string)
              (scenarioA ++ [loneRecord]) "dcrd" "dcrps" [])
    as (Hinit & _ & _ & Hrun); [reflexivity|vm_compute; lia|reflexivity|].
  split; [exact Hinit|exact Hrun].
Defined.

(** * Further properties of the renderer *)

(** ** The keys of a render *)

Lemma renderLoop_closed fuel pstree l s s' :
  renderLoop fuel pstree l s = Some (tt, s') → closed pstree s → closed pstree s'.
Proof.
  intros Hrun Hs. unfold renderLoop in Hrun.
  refine (forEach_inv (closed pstree) _ _ _ s s' Hs Hrun).
  intros p s1 s2 _ Hs1 Hbody. simpl in Hbody.
  destruct (negb (HasPrefix (Exec p) dcrPrefix)).
  - by injection Hbody as <-.
  - eapply expands_closed; [|exact Hs1]. by eapply construct_expands.
Qed.

Lemma renderLoop_marks_parents fuel pstree l :
  ∀ s s', renderLoop fuel pstree l s = Some (tt, s') →
    ∀ r, r ∈ l → HasPrefix (Exec r) dcrPrefix = true → seen_of s' (PPID r) = true.
Proof.
  unfold renderLoop. induction l as [|p l IH]; intros s s' Hrun r Hr Hfam.
  - by apply elem_of_nil in Hr.
  - rewrite forEach_cons in Hrun.
    match type of Hrun with
    | match ?b with _ => _ end = _ => destruct b as [[[] s1]|] eqn:Hbody
    end; [|discriminate].
    apply elem_of_cons in Hr as [->|Hr]; [|by apply (IH s1 s' Hrun)].
    rewrite Hfam in Hbody. change (negb true) with false in Hbody.
    cbv beta iota in Hbody.
    destruct (construct_expands _ _ _ _ _ _ _ Hbody) as (_ & Hseen & _).
    by apply (renderLoop_seen_sub fuel pstree l s1 s' Hrun).
Qed.

(** In every snapshot the render expands exactly the identifiers of the
    family records. *)
Lemma renderRun_keys fuel ps s :
  renderRun fuel ps = Some s →
  ∀ k, k ∈ (visits s).*1 ↔ k ∈ keysOf ps.
Proof.
  intros Hrun k.
  pose proof (renderRun_consistent _ _ _ Hrun) as [_ Hseen _].
  pose proof (renderRun_visitOf _ _ _ Hrun) as Hvis.
  unfold renderRun in Hrun.
  destruct (renderLoop fuel (buildIndex ps) ps initRSt) as [[[] s']|] eqn:Hl;
    [|discriminate].
  injection Hrun as ->.
  assert (closed (buildIndex ps) s) as Hclosed.
  { eapply renderLoop_closed; [exact Hl|].
    intros k' Hk'. unfold seen_of in Hk'. simpl in Hk'. by rewrite lookup_empty in Hk'. }
  pose proof (renderLoop_marks_parents _ _ _ _ _ Hl) as Hpar.
  unfold keysOf. rewrite elem_of_list_to_set, elem_of_app. split.
  - intros ([k' p] & -> & Hc)%list_elem_of_fmap.
    rewrite Forall_forall in Hvis. destruct (Hvis _ Hc) as [Hp [Hk|Hk]]; simpl in *.
    + right. apply list_elem_of_fmap. eauto.
    + left. apply list_elem_of_fmap. eauto.
  - assert (∀ r, r ∈ dcrOnly ps → seen_of s (PPID r) = true) as Hpp.
    { intros r [Hr Hfam]%elem_of_dcrOnly. by apply Hpar. }
    intros [(r & -> & Hr)%list_elem_of_fmap|(r & -> & Hr)%list_elem_of_fmap];
      apply Hseen.
    + apply (Hclosed (PPID r)); [by apply Hpp|]. by apply elem_of_bucket.
    + by apply Hpp.
Qed.

(** X1. In every snapshot the render returns with one node below the top
    node for each identifier that occurs as PID or as parent identifier of
    a family record, and with no other node: the keys of the logged calls
    are these identifiers, each once. *)
Theorem one_node_per_identifier (fuel : nat) (ps : list P) :
  (treeFuel ps ≤ fuel)%nat →
  ∃ s, renderRun fuel ps = Some s ∧
    (∀ k, k ∈ (visits s).*1 ↔ k ∈ keysOf ps) ∧
    NoDup (visits s).*1 ∧
    length (tail (heap s)) = size (keysOf ps).
Proof.
  intros Hfuel. destruct (renderRun_total ps fuel Hfuel) as (s & Hs & _).
  exists s. split; [done|].
  pose proof (renderRun_keys _ _ _ Hs) as Hkeys.
  pose proof (renderRun_consistent _ _ _ Hs) as Hcons.
  pose proof (visits_nodup _ Hcons) as Hnd.
  split; [done|]. split; [done|].
  assert (keysOf ps = list_to_set (visits s).*1) as ->.
  { apply set_eq. intros k. by rewrite elem_of_list_to_set, Hkeys. }
  rewrite size_list_to_set by done.
  pose proof (consistent_length _ Hcons) as Hlen.
  rewrite length_fmap. destruct (heap s); simpl in *; lia.
Qed.

Lemma one_node_per_identifier_witness :
  ∃ s, renderRun 7 cyclicPair = Some s ∧
    (∀ k, k ∈ (visits s).*1 ↔ k ∈ keysOf cyclicPair) ∧
    NoDup (visits s).*1 ∧
    length (tail (heap s)) = size (keysOf cyclicPair).
Proof. apply (one_node_per_identifier 7 cyclicPair). vm_compute. lia. Defined.

(** X2. Processes outside the family do not show in tree mode: the render
    of a snapshot is the render of its family records, and with no family
    record the tree is the top node alone. *)
Theorem render_ignores_foreign (fuel : nat) (ps : list P) :
  renderRun fuel ps = renderRun fuel (dcrOnly ps) ∧
  (dcrOnly ps = [] → renderRun fuel ps = Some initRSt).
Proof.
  assert (renderRun fuel ps = renderRun fuel (dcrOnly ps)) as Heq.
  { unfold renderRun. by rewrite buildIndex_dcrOnly, renderLoop_dcrOnly. }
  split; [done|]. intros Hnil. by rewrite Heq, Hnil.
Qed.

Lemma render_ignores_foreign_witness :
  renderRun 3 [mkP 9 1 "bash" "/bin/bash" "" false] = Some initRSt.
Proof. apply (render_ignores_foreign 3 [mkP 9 1 "bash" "/bin/bash" "" false]). reflexivity. Defined.

(** ** The shape of the store *)

Lemma filter_ext_in {A} (P Q : A → Prop) `{!∀ x, Decision (P x)} `{!∀ x, Decision (Q x)}
    (l : list A) :
  (∀ x, x ∈ l → (P x ↔ Q x)) → filter P l = filter Q l.
Proof.
  induction l as [|x l IH]; intros Hl; [done|].
  rewrite !filter_cons, IH by (intros y Hy; apply Hl; by right).
  pose proof (Hl x (list_elem_of_here _ _)) as Hx.
  repeat case_decide; tauto.
Qed.

Lemma filter_none {A} (P : A → Prop) `{!∀ x, Decision (P x)} (l : list A) :
  (∀ x, x ∈ l → ¬ P x) → filter P l = [].
Proof.
  induction l as [|x l IH]; intros Hl; [done|].
  rewrite filter_cons, IH by (intros y Hy; apply Hl; by right).
  pose proof (Hl x (list_elem_of_here _ _)). by case_decide.
Qed.

Lemma root_of_alter b t (h : list node) j :
  alter (addChild b) t h !! j ≫= Root = h !! j ≫= Root.
Proof.
  rewrite list_lookup_alter. case_decide as Htj; [|done].
  subst j. by destruct (h !! t).
Qed.

Lemma root_after_enter k p t s j :
  heap (enter k p t s) !! j ≫= Root =
  if decide (j = length (heap s)) then Some t
  else heap s !! j ≫= Root.
Proof.
  rewrite heap_enter.
  destruct (decide (j = length (heap s))) as [->|Hne].
  - rewrite lookup_app_r by (by rewrite length_alter).
    by rewrite length_alter, Nat.sub_diag.
  - destruct (decide (j < length (heap s))%nat) as [Hlt|Hge].
    + rewrite lookup_app_l by (by rewrite length_alter). apply root_of_alter.
    + rewrite !lookup_ge_None_2; [done|lia|].
      rewrite length_app, length_alter. simpl. lia.
Qed.

Lemma storeWf_root_lt h j par :
  storeWf h → h !! j ≫= Root = Some par → (par < j)%nat.
Proof.
  intros Hwf Hj. destruct (h !! j) as [nd|] eqn:Hnd; [|done]. simpl in Hj.
  destruct (Hwf j nd Hnd) as [Hroot _]. by rewrite Hj in Hroot.
Qed.

Lemma storeWf_enter k p t s :
  (t < length (heap s))%nat → storeWf (heap s) → storeWf (heap (enter k p t s)).
Proof.
  intros Ht Hwf i nd Hi.
  assert (length (heap (enter k p t s)) = S (length (heap s))) as Hlen
    by (rewrite heap_enter, length_app, length_alter; simpl; lia).
  rewrite Hlen, seq_S, filter_app. simpl "+".
  assert (∀ j, j ∈ seq 0 (length (heap s)) →
            (heap (enter k p t s) !! j ≫= Root = Some i ↔
             heap s !! j ≫= Root = Some i)) as Hold.
  { intros j [_ Hj]%elem_of_seq. rewrite root_after_enter.
    by rewrite decide_False by lia. }
  rewrite (filter_ext_in _ _ _ Hold). clear Hold.
  assert (heap (enter k p t s) !! length (heap s) ≫= Root = Some t) as Hnew
    by (by rewrite root_after_enter, decide_True).
  change (0 + length (heap s))%nat with (length (heap s)).
  rewrite filter_cons, filter_nil. cbv beta.
  rewrite heap_enter in Hi.
  destruct (decide (i < length (heap s))%nat) as [Hlt|Hge].
  - rewrite lookup_app_l in Hi by (by rewrite length_alter).
    rewrite list_lookup_alter in Hi. case_decide as Hti.
    + subst i. destruct (heap s !! t) as [nd0|] eqn:Hnd0; [|done].
      injection Hi as <-. destruct (Hwf t nd0 Hnd0) as [Hroot Hnodes].
      split; [done|]. simpl. rewrite Hnodes.
      case_decide as Hd; [done|]. exfalso. apply Hd. exact Hnew.
    + destruct (Hwf i nd Hi) as [Hroot Hnodes]. split; [done|].
      case_decide as Hd; [|by rewrite app_nil_r]. exfalso.
      pose proof (eq_trans (eq_sym Hnew) Hd) as Heq. congruence.
  - assert (i = length (heap s)) as ->.
    { apply lookup_lt_Some in Hi. rewrite length_app, length_alter in Hi.
      simpl in Hi. lia. }
    rewrite lookup_app_r in Hi by (by rewrite length_alter).
    rewrite length_alter, Nat.sub_diag in Hi. injection Hi as <-. simpl.
    split; [done|].
    case_decide as Hd.
    { exfalso. pose proof (eq_trans (eq_sym Hnew) Hd) as Heq.
      injection Heq as ->. lia. }
    rewrite app_nil_r. symmetry. apply filter_none.
    intros j [_ Hj]%elem_of_seq Hroot.
    apply (storeWf_root_lt _ _ _ Hwf) in Hroot. lia.
Qed.

Lemma storeWf_newTree : storeWf newTree.
Proof.
  intros [|i] nd Hi; [|done]. injection Hi as <-. done.
Qed.

Lemma construct_storeWf pstree fuel k p t s s' :
  constructProcessTree fuel pstree k p t s = Some (tt, s') →
  (t < length (heap s))%nat → storeWf (heap s) →
  storeWf (heap s') ∧ (length (heap s) ≤ length (heap s'))%nat.
Proof.
  revert fuel k p t s s'.
  apply (construct_rule pstree
           (λ _ _ t s s', (t < length (heap s))%nat → storeWf (heap s) →
                          storeWf (heap s') ∧ (length (heap s) ≤ length (heap s'))%nat)).
  - done.
  - intros k p t s s' _ Hloop Ht Hwf.
    pose proof (storeWf_enter k p t s Ht Hwf) as Hwf0.
    assert (length (heap s) < length (heap (enter k p t s)))%nat as Hb
      by (rewrite heap_enter, length_app, length_alter; simpl; lia).
    assert (storeWf (heap s') ∧ (length (heap (enter k p t s)) ≤ length (heap s'))%nat)
      as [? ?]; [|split; [done|lia]].
    revert Hloop Hwf0 Hb. generalize (enter k p t s). generalize (length (heap s)).
    induction (pstree !!! k) as [|c l IH]; intros b s0 Hloop Hwf0 Hb; simpl in Hloop.
    + by subst s'.
    + destruct Hloop as (s1 & Hc & Hloop). destruct (Hc Hb Hwf0) as [Hwf1 Hle].
      destruct (IH b s1 Hloop Hwf1) as [? ?]; [lia|]. split; [done|lia].
Qed.

Lemma renderRun_storeWf fuel ps s : renderRun fuel ps = Some s → storeWf (heap s).
Proof.
  unfold renderRun. intros Hrun.
  destruct (renderLoop fuel (buildIndex ps) ps initRSt) as [[[] s']|] eqn:Hl;
    [|discriminate].
  injection Hrun as <-. unfold renderLoop in Hl.
  refine (proj1 (forEach_inv (λ s, storeWf (heap s) ∧ (0 < length (heap s))%nat)
                   _ _ _ initRSt s' _ Hl)).
  - intros p s1 s2 _ [Hwf Hpos] Hbody. simpl in Hbody.
    destruct (negb (HasPrefix (Exec p) dcrPrefix)).
    + by injection Hbody as <-.
    + destruct (construct_storeWf _ _ _ _ _ _ _ Hbody Hpos Hwf). split; [done|lia].
  - split; [apply storeWf_newTree|simpl; lia].
Qed.

Lemma storeWf_reaches_top h :
  storeWf h → ∀ i, (i < length h)%nat → ∃ n, (n ≤ i)%nat ∧ ancestorAt n h i = Some 0%nat.
Proof.
  intros Hwf i. induction i as [i IH] using lt_wf_ind. intros Hi.
  destruct (lookup_lt_is_Some_2 h i Hi) as [nd Hnd].
  destruct (Hwf i nd Hnd) as [Hroot _].
  destruct (Root nd) as [par|] eqn:Hpar.
  - destruct (IH par Hroot) as (n & Hn & Hanc); [lia|].
    exists (S n). split; [lia|]. cbn [ancestorAt]. rewrite Hnd. simpl.
    by rewrite Hpar.
  - subst i. exists 0%nat. done.
Qed.

(** X3. The store that the render leaves is a tree below the top node:
    the top node alone has no parent, the parent of every other node is a
    node added before it, the children list of every node holds exactly
    the nodes that name it as their parent, in the order they were added,
    and from every node the top node is reached by going to the parent. *)
Theorem store_is_tree (fuel : nat) (ps : list P) :
  (treeFuel ps ≤ fuel)%nat →
  ∃ s, renderRun fuel ps = Some s ∧
    storeWf (heap s) ∧
    ∀ i, (i < length (heap s))%nat →
      ∃ n, (n ≤ i)%nat ∧ ancestorAt n (heap s) i = Some 0%nat.
Proof.
  intros Hfuel. destruct (renderRun_total ps fuel Hfuel) as (s & Hs & _).
  exists s. split; [done|].
  pose proof (renderRun_storeWf _ _ _ Hs) as Hwf.
  split; [done|]. by apply storeWf_reaches_top.
Qed.

Lemma store_is_tree_witness :
  ∃ s, renderRun 7 cyclicPair = Some s ∧
    storeWf (heap s) ∧
    ∀ i, (i < length (heap s))%nat →
      ∃ n, (n ≤ i)%nat ∧ ancestorAt n (heap s) i = Some 0%nat.
Proof. apply (store_is_tree 7 cyclicPair). vm_compute. lia. Defined.

(** ** Where the nodes hang *)

Lemma roots_enter k p t s :
  Root <$> heap (enter k p t s) = (Root <$> heap s) ++ [Some t].
Proof.
  rewrite heap_enter, fmap_app. f_equal.
  rewrite (list_fmap_alter Root (addChild (length (heap s))) id).
  - by apply list_alter_id.
  - by apply Forall_true.
Qed.

Lemma hangsRight_enter k p t s :
  consistent s → seen_of s k = false → calledFor k p t s →
  hangsRight s → hangsRight (enter k p t s).
Proof.
  intros Hcons Hk Hcall Hhang i k' p' r Hi Hr.
  pose proof (consistent_length s Hcons) as Hlen.
  rewrite visits_enter in Hi. rewrite roots_enter in Hr.
  destruct (decide (i < length (visits s))%nat) as [Hlt|Hge].
  - rewrite lookup_app_l in Hi by done.
    rewrite lookup_app_l in Hr by (rewrite length_fmap; lia).
    destruct (Hhang i k' p' r Hi Hr) as [?|(j & kp & pp & ? & Hj & ?)]; [by left|].
    right. exists j, kp, pp. split; [done|]. split; [|done].
    rewrite visits_enter. by apply lookup_app_l_Some.
  - assert (i = length (visits s)) as ->.
    { apply lookup_lt_Some in Hi. rewrite length_app in Hi. simpl in Hi. lia. }
    rewrite lookup_app_r, Nat.sub_diag in Hi by done. injection Hi as <- <-.
    rewrite lookup_app_r in Hr by (rewrite length_fmap; lia).
    rewrite length_fmap, Hlen, Nat.sub_diag in Hr. injection Hr as <-.
    destruct Hcall as [[-> ->]|(j & kp & pp & -> & Hj & Hkp & -> & Hseen)].
    + by left.
    + right. exists j, kp, pp. split; [done|]. split.
      * rewrite visits_enter. by apply lookup_app_l_Some.
      * split; [done|]. split; [done|]. intros Heq. rewrite Heq in Hk. congruence.
Qed.

Section Edges.

Variable pstree : gmap Z (list P).
Hypothesis bucket_parent : ∀ k c, c ∈ pstree !!! k → PPID c = k.

Lemma construct_hangs fuel k p t s s' :
  constructProcessTree fuel pstree k p t s = Some (tt, s') →
  consistent s → calledFor k p t s → hangsRight s →
  hangsRight s' ∧ consistent s' ∧ visits s `prefix_of` visits s' ∧ seen_sub s s'.
Proof.
  revert fuel k p t s s'.
  apply (construct_rule pstree
           (λ k p t s s', consistent s → calledFor k p t s → hangsRight s →
              hangsRight s' ∧ consistent s' ∧
              visits s `prefix_of` visits s' ∧ seen_sub s s')).
  - intros k p t s _ Hcons _ Hhang. split; [done|]. split; [done|].
    split; [done|apply seen_sub_refl].
  - intros k p t s s' Hk Hloop Hcons Hcall Hhang.
    pose proof (consistent_enter k p t s Hk Hcons) as Hcons0.
    pose proof (hangsRight_enter k p t s Hcons Hk Hcall Hhang) as Hhang0.
    pose proof (consistent_length s Hcons) as Hlen.
    assert (visits (enter k p t s) !! length (visits s) = Some (k, p)) as Hat
      by (by rewrite visits_enter, lookup_app_r, Nat.sub_diag).
    assert (seen_of (enter k p t s) k = true) as Hseen
      by (rewrite seen_of_enter; by case_decide).
    assert (visits s `prefix_of` visits (enter k p t s)) as Hpre
      by (rewrite visits_enter; by apply prefix_app_r).
    pose proof (seen_sub_enter k p t s) as Hsub.
    assert (∀ c, c ∈ pstree !!! k → PPID c = k) as Hl by (intros; by apply bucket_parent).
    assert (hangsRight s' ∧ consistent s' ∧
            visits (enter k p t s) `prefix_of` visits s' ∧
            seen_sub (enter k p t s) s') as (? & ? & ? & ?).
    2:{ split; [done|]. split; [done|]. split; [by etrans|by eapply seen_sub_trans]. }
    rewrite Hlen in Hloop. clear Hpre Hsub Hk Hcall Hhang Hcons.
    revert Hloop Hcons0 Hhang0 Hat Hseen Hl. generalize (enter k p t s).
    generalize (length (visits s)). clear Hlen.
    induction (pstree !!! k) as [|c l IH]; intros j0 s0 Hloop Hcons0 Hhang0 Hat Hseen Hl;
      simpl in Hloop.
    + subst s'. split; [done|]. split; [done|]. split; [done|apply seen_sub_refl].
    + destruct Hloop as (s1 & Hc & Hloop).
      destruct (Hc Hcons0) as (Hhang1 & Hcons1 & Hpre1 & Hsub1); [|done|].
      { right. exists j0, k, p. split; [done|]. split; [done|].
        split; [symmetry; apply Hl; by left|]. done. }
      destruct (IH j0 s1 Hloop Hcons1 Hhang1) as (? & ? & ? & ?).
      * by eapply prefix_lookup_Some.
      * by apply Hsub1.
      * intros c' Hc'. apply Hl. by right.
      * split; [done|]. split; [done|]. split; [by etrans|by eapply seen_sub_trans].
Qed.

End Edges.

Lemma renderLoop_hangs fuel ps l s :
  renderLoop fuel (buildIndex ps) l initRSt = Some (tt, s) → hangsRight s.
Proof.
  intros Hl. unfold renderLoop in Hl.
  refine (proj1 (forEach_inv (λ s, hangsRight s ∧ consistent s)
                   _ _ _ initRSt s _ Hl)).
  - intros p s1 s2 _ [Hhang Hcons] Hbody. simpl in Hbody.
    destruct (negb (HasPrefix (Exec p) dcrPrefix)).
    + by injection Hbody as <-.
    + destruct (construct_hangs (buildIndex ps)
                  (λ k c Hc, proj2 (proj1 (elem_of_bucket ps k c) Hc))
                  _ _ _ _ _ _ Hbody Hcons) as (? & ? & _); [by left|done|done].
  - split; [|apply consistent_init]. by intros i k p r ?.
Qed.

Lemma renderRun_hangs fuel ps s : renderRun fuel ps = Some s → hangsRight s.
Proof.
  unfold renderRun. intros Hrun.
  destruct (renderLoop fuel (buildIndex ps) ps initRSt) as [[[] s']|] eqn:Hl;
    [|discriminate].
  injection Hrun as <-. unfold renderLoop in Hl.
  refine (proj1 (forEach_inv (λ s, hangsRight s ∧ consistent s)
                   _ _ _ initRSt s' _ Hl)).
  - intros p s1 s2 _ [Hhang Hcons] Hbody. simpl in Hbody.
    destruct (negb (HasPrefix (Exec p) dcrPrefix)).
    + by injection Hbody as <-.
    + destruct (construct_hangs (buildIndex ps)
                  (λ k c Hc, proj2 (proj1 (elem_of_bucket ps k c) Hc))
                  _ _ _ _ _ _ Hbody Hcons) as (? & ? & _); [by left|done|done].
  - split; [|apply consistent_init]. by intros i k p r ?.
Qed.

(** X4. The edges of the rendered tree follow the parent references. The
    children of the top node are exactly the bare nodes, one for the
    parent identifier of the record of a top-level call. Every other node
    is the labelled node of a record that is not its own parent, and it
    hangs under the node whose key is the parent identifier of the record.
    So a record that is its own parent never gets a labelled node. *)
Theorem edges_follow_parents (fuel : nat) (ps : list P) :
  (treeFuel ps ≤ fuel)%nat →
  ∃ s, renderRun fuel ps = Some s ∧
    ∀ i k p, visits s !! i = Some (k, p) →
      ∃ nd, heap s !! S i = Some nd ∧
        ((Root nd = Some 0%nat ∧ k = PPID p ∧ Val nd = VInt k) ∨
         (∃ j kp pp, Root nd = Some (S j) ∧ visits s !! j = Some (kp, pp) ∧
                     kp = PPID p ∧ k = PID p ∧ PID p ≠ PPID p ∧
                     Val nd = VStr (output k p))).
Proof.
  intros Hfuel. destruct (renderRun_total ps fuel Hfuel) as (s & Hs & _).
  exists s. split; [done|]. intros i k p Hi.
  pose proof (renderRun_consistent _ _ _ Hs) as Hcons.
  pose proof (renderRun_hangs _ _ _ Hs) as Hhang.
  destruct (consistent_node s i (k, p) Hcons Hi) as (nd & Hnd & _ & Hval).
  exists nd. split; [done|]. simpl in Hval. unfold nodeValue in Hval.
  assert ((Root <$> heap s) !! S i = Some (Root nd)) as Hr
    by (by rewrite list_lookup_fmap, Hnd).
  destruct (Hhang i k p _ Hi Hr) as [[Hroot ->]|(j & kp & pp & Hroot & Hj & -> & -> & Hne)].
  - left. rewrite Z.eqb_refl in Hval. done.
  - right. exists j, (PPID p), pp.
    destruct (Z.eqb_spec (PID p) (PPID p)); [done|]. done.
Qed.

Lemma edges_follow_parents_witness :
  ∃ s, renderRun 5 scenarioA = Some s ∧
    ∀ i k p, visits s !! i = Some (k, p) →
      ∃ nd, heap s !! S i = Some nd ∧
        ((Root nd = Some 0%nat ∧ k = PPID p ∧ Val nd = VInt k) ∨
         (∃ j kp pp, Root nd = Some (S j) ∧ visits s !! j = Some (kp, pp) ∧
                     kp = PPID p ∧ k = PID p ∧ PID p ≠ PPID p ∧
                     Val nd = VStr (output k p))).
Proof. apply (edges_follow_parents 5 scenarioA). vm_compute. lia. Defined.

(** * Further properties of the name table and of the command line *)

Lemma init_from (l : list P) (m : gmap string Z) (name : string) :
  foldl (λ nameToPid p,
           if negb (HasPrefix (Exec p) dcrPrefix) then nameToPid
           else match nameToPid !! Exec p with
                | Some _ => <[Exec p := -1]> nameToPid
                | None => <[Exec p := PID p]> nameToPid
                end) m l !! name =
  match filter (λ p, Exec p = name) (dcrOnly l) with
  | [] => m !! name
  | p :: others =>
    match m !! name, others with
    | None, [] => Some (PID p)
    | _, _ => Some (-1)
    end
  end.
Proof.
  revert m. induction l as [|p l IH]; intros m; [done|].
  simpl foldl. rewrite IH, dcrOnly_cons. clear IH.
  destruct (HasPrefix (Exec p) dcrPrefix) eqn:Hfam; simpl negb; cbv iota; [|done].
  rewrite filter_cons. case_decide as Hp.
  - rewrite Hp. destruct (m !! name) eqn:Hm; rewrite lookup_insert_eq;
      by destruct (filter _ (dcrOnly l)).
  - destruct (m !! Exec p); by rewrite lookup_insert_ne.
Qed.

(** X5. The name table of a snapshot: a name that no family process has
    is not in the table (so no name without the prefix is); the name of
    exactly one family process is mapped to the PID of this process; a
    name that several family processes have is mapped to -1. *)
Theorem name_table_lookup (ps : list P) (name : string) :
  init ps !! name =
    match filter (λ p, Exec p = name) (dcrOnly ps) with
    | [] => None
    | [p] => Some (PID p)
    | _ => Some (-1)
    end ∧
  (HasPrefix name dcrPrefix = false → init ps !! name = None) ∧
  (∀ pid, init ps !! name = Some pid →
     ∃ p, p ∈ ps ∧ Exec p = name ∧ HasPrefix name dcrPrefix = true ∧
          (pid = PID p ∨ pid = -1)).
Proof.
  assert (init ps !! name =
          match filter (λ p, Exec p = name) (dcrOnly ps) with
          | [] => None
          | [p] => Some (PID p)
          | _ => Some (-1)
          end) as Hinit.
  { unfold init. rewrite init_from, lookup_empty.
    by destruct (filter _ (dcrOnly ps)) as [|p [|q others]]. }
  assert (∀ p, p ∈ filter (λ p, Exec p = name) (dcrOnly ps) →
            p ∈ ps ∧ Exec p = name ∧ HasPrefix name dcrPrefix = true) as Hin.
  { intros p [Hp [Hps Hfam]%elem_of_dcrOnly]%list_elem_of_filter.
    by rewrite <- Hp. }
  split; [done|]. split.
  - intros Hno. rewrite Hinit.
    destruct (filter _ (dcrOnly ps)) as [|p others] eqn:Hf; [done|].
    destruct (Hin p) as (_ & _ & Hfam); [left|congruence].
  - intros pid. rewrite Hinit.
    destruct (filter _ (dcrOnly ps)) as [|p [|q others]] eqn:Hf; [done|..];
      intros [= <-]; exists p;
      (destruct (Hin p) as (? & ? & ?); [left|]); eauto 6.
Qed.

Lemma name_table_lookup_witness :
  init scenarioA !! "dcrwallet"%string = Some 2 ∧
  init cyclicPair !! "bash"%string = None.
Proof.
  split.
  - rewrite (proj1 (name_table_lookup scenarioA "dcrwallet")). reflexivity.
  - apply (proj1 (proj2 (name_table_lookup cyclicPair "bash"))). reflexivity.
Defined.

Section MoreMain.

Variable float32 float64 : Type.
Variable fmt3f32 : float32 → string.
Variable fmt3f64 : float64 → string.
Variable NewProcess : Z → Process float32 float64 + string.
Variable logPrefix : string.
Variable Addr : Type.
Variable cmds : gmap string (Addr → list string → option string).
Variable targetToAddr : string → Addr + string.
Variable nameToPid : gmap string Z.

(** X6. [main] ends with status 0 or with status 1 and with no other:
    [processInfo] returns or ends the program with status 1, and the call
    of a handler that is nil, which would end the program with a panic, is
    never reached, because [usage] does not return. *)
Theorem main_status_0_or_1 (Args : list string) (t : list (event Addr)) :
  (main float32 float64 fmt3f32 fmt3f64 NewProcess logPrefix Addr cmds targetToAddr nameToPid
     Args t).1 = Done tt ∨
  (main float32 float64 fmt3f32 fmt3f64 NewProcess logPrefix Addr cmds targetToAddr nameToPid
     Args t).1 = Exited 1.
Proof.
  assert (∀ cmd fn t', (dispatch Addr targetToAddr cmd (Some fn) Args t').1 = Done tt ∨
                       (dispatch Addr targetToAddr cmd (Some fn) Args t').1 = Exited 1)
    as Hdispatch.
  { intros cmd fn t'. unfold dispatch, mbind, IO_bind, mret, IO_ret, emit, os_Exit.
    destruct (Z.of_nat (length Args) <? 3).
    - rewrite usage_run. by right.
    - destruct (targetToAddr _) as [addr|err]; [|by right].
      destruct (fn addr (drop 3 Args)); [by right|by left]. }
  assert (∀ pid,
            (processInfo float32 float64 fmt3f32 fmt3f64 NewProcess logPrefix Addr pid t).1
              = Done tt ∨
            (processInfo float32 float64 fmt3f32 fmt3f64 NewProcess logPrefix Addr pid t).1
              = Exited 1) as Hinfo.
  { intros pid. destruct (NewProcess (int32 pid)) as [p|err] eqn:Hnew.
    - destruct (processInfo_returns float32 float64 fmt3f32 fmt3f64 NewProcess logPrefix
                  Addr pid p t Hnew) as (out & -> & _). by left.
    - rewrite (processInfo_exits float32 float64 fmt3f32 fmt3f64 NewProcess logPrefix
                 Addr pid err t Hnew). by right. }
  unfold main. destruct (Z.of_nat (length Args) <? 2); [by left|].
  destruct (Atoi _); [apply Hinfo|].
  unfold mbind, IO_bind, mret, IO_ret.
  destruct (String.eqb _ "help"); [rewrite usage_run; by right|].
  destruct (String.eqb _ "tree"); [by left|].
  destruct (cmds !! _) as [fn|]; [apply Hdispatch|].
  destruct (nameToPid !! _); [apply Hinfo|].
  rewrite usage_run. by right.
Qed.

(** The first argument is read as a number before anything else: when
    [strconv.Atoi] accepts it, [main] runs [processInfo] with the number,
    whatever the tables [cmds] and [nameToPid] hold and whatever arguments
    follow. *)
Lemma main_number_first (prog cmd : string) (rest : list string) (pid : Z)
    (t : list (event Addr)) :
  Atoi cmd = Some pid →
  main float32 float64 fmt3f32 fmt3f64 NewProcess logPrefix Addr cmds targetToAddr nameToPid
    (prog :: cmd :: rest) t
  = processInfo float32 float64 fmt3f32 fmt3f64 NewProcess logPrefix Addr pid t.
Proof.
  intros Hnum. unfold main. rewrite two_args. simpl. by rewrite Hnum.
Qed.

(** X7. A command of [cmds] (not a number, not ["help"], not ["tree"]):
    without a target [main] writes ["dcrps: Missing PID or address."] and
    the help text and ends with status 1; with a target that
    [targetToAddr] rejects it reports the target and the error on standard
    error and ends with status 1; in both cases the handler is not called.
    Otherwise the handler is called once, with the address of the target
    and the arguments after the target, and [main] ends with status 0 when
    the handler succeeds, and with the error of the handler on standard
    error and status 1 when it fails. *)
Theorem main_command (prog cmd : string)
    (fn : Addr → list string → option string) :
  Atoi cmd = None → cmd ≠ "help"%string → cmd ≠ "tree"%string →
  cmds !! cmd = Some fn →
  main float32 float64 fmt3f32 fmt3f64 NewProcess logPrefix Addr cmds targetToAddr nameToPid
    [prog; cmd] []
    = (Exited 1, [Stdout ("dcrps: Missing PID or address." +:+ nl);
                  Stderr (helpText +:+ nl)]) ∧
  ∀ (target : string) (params : list string),
    main float32 float64 fmt3f32 fmt3f64 NewProcess logPrefix Addr cmds targetToAddr nameToPid
      (prog :: cmd :: target :: params) [] =
    match targetToAddr target with
    | inr err =>
      (Exited 1, [Stderr ("Couldn't resolve addr or pid " +:+ target
                          +:+ " to TCPAddress: " +:+ err +:+ nl)])
    | inl addr =>
      match fn addr params with
      | None => (Done tt, [CallCmd cmd addr params])
      | Some err => (Exited 1, [CallCmd cmd addr params; Stderr (err +:+ nl)])
      end
    end.
Proof.
  intros Hnum Hhelp Htree Hcmd.
  apply String.eqb_neq in Hhelp, Htree. split.
  - unfold main. rewrite two_args. simpl. rewrite Hnum, Hhelp, Htree, Hcmd.
    unfold mbind, IO_bind, mret, IO_ret, dispatch. simpl.
    unfold mbind, IO_bind. by rewrite usage_run.
  - intros target params. unfold main. rewrite two_args. simpl.
    rewrite Hnum, Hhelp, Htree, Hcmd.
    unfold mbind, IO_bind, mret, IO_ret, dispatch.
    assert ((Z.of_nat (length (prog :: cmd :: target :: params)) <? 3) = false) as ->
      by (apply Z.ltb_ge; simpl length; lia).
    simpl. unfold mbind, IO_bind, mret, IO_ret, emit, os_Exit.
    destruct (targetToAddr target) as [addr|err]; [|done].
    rewrite drop_0. by destruct (fn addr params).
Qed.

(** X8. The name of exactly one family process, when it is not a command
    of [cmds], stands for the PID of this process: [main] does what
    [processInfo] does with this PID, and so it ends with status 1 when
    [process.NewProcess] fails for it and returns otherwise. *)
Theorem main_unique_name (ps : list P) (p : P) (prog : string) (rest : list string)
    (t : list (event Addr)) :
  filter (λ q, Exec q = Exec p) (dcrOnly ps) = [p] →
  cmds !! Exec p = None →
  main float32 float64 fmt3f32 fmt3f64 NewProcess logPrefix Addr cmds targetToAddr (init ps)
    (prog :: Exec p :: rest) t
  = processInfo float32 float64 fmt3f32 fmt3f64 NewProcess logPrefix Addr (PID p) t.
Proof.
  intros Hone Hcmd.
  assert (init ps !! Exec p = Some (PID p)) as Hinit.
  { unfold init. by rewrite init_from, lookup_empty, Hone. }
  assert (HasPrefix (Exec p) dcrPrefix = true) as Hfam.
  { assert (p ∈ filter (λ q, Exec q = Exec p) (dcrOnly ps)) as Hp
      by (rewrite Hone; left).
    by apply list_elem_of_filter in Hp as [_ [_ ?]%elem_of_dcrOnly]. }
  destruct (has_dcrPrefix _ Hfam) as (tl & Hname). rewrite Hname in *.
  unfold main. rewrite two_args. simpl. rewrite Hcmd, Hinit. reflexivity.
Qed.

End MoreMain.

Lemma main_status_0_or_1_witness :
  (main unit unit (λ _, ""%string) (λ _, ""%string) (λ _, inr "no process"%string) ""
     unit ∅ (λ _, inr "no agent"%string) ∅ ["dcrps"; "4242"]%string []).1 = Exited 1.
Proof.
  destruct (main_status_0_or_1 unit unit (λ _, ""%string) (λ _, ""%string)
              (λ _, inr "no process"%string) "" unit ∅ (λ _, inr "no agent"%string) ∅
              ["dcrps"; "4242"]%string []) as [H|H]; [discriminate H|exact H].
Defined.

Lemma main_number_first_witness :
  main unit unit (λ _, ""%string) (λ _, ""%string) (λ _, inr "no process"%string) ""
    unit ∅ (λ _, inr "no agent"%string) ∅ ["dcrps"; "-12"; "x"]%string []
  = processInfo unit unit (λ _, ""%string) (λ _, ""%string) (λ _, inr "no process"%string) ""
      unit (-12) [].
Proof. apply main_number_first. reflexivity. Defined.

Lemma main_command_witness :
  main unit unit (λ _, ""%string) (λ _, ""%string) (λ _, inr "no process"%string) ""
    unit {["gc"%string := λ _ _, None]} (λ s, inl tt) ∅
    ["dcrps"; "gc"; "4242"]%string []
  = (Done tt, [CallCmd "gc" tt []]).
Proof.
  apply (proj2 (main_command unit unit (λ _, ""%string) (λ _, ""%string)
                  (λ _, inr "no process"%string) ""
                  unit {["gc"%string := λ _ _, None]} (λ s, inl tt) ∅
                  "dcrps" "gc" (λ _ _, None) eq_refl
                  ltac:(discriminate) ltac:(discriminate) ltac:(reflexivity))
           "4242"%string []).
Defined.

Lemma main_unique_name_witness :
  main unit unit (λ _, ""%string) (λ _, ""%string)
    (λ _, inl (mkProcess unit unit (Some 1) (Some 9) None None None None None)) ""
    unit ∅ (λ _, inr "no agent"%string) (init scenarioA) ["dcrps"; "dcrwallet"]%string []
  = processInfo unit unit (λ _, ""%string) (λ _, ""%string)
      (λ _, inl (mkProcess unit unit (Some 1) (Some 9) None None None None None)) ""
      unit 2 [].
Proof.
  apply (main_unique_name unit unit (λ _, ""%string) (λ _, ""%string)
           (λ _, inl (mkProcess unit unit (Some 1) (Some 9) None None None None None)) ""
           unit ∅ (λ _, inr "no agent"%string) scenarioA
           (mkP 2 1 "dcrwallet" "/usr/bin/dcrwallet" "v1.4.0" true) "dcrps" [] []);
    reflexivity.
Defined.

(** * Further properties of list mode *)

(** X9. The rows of list mode are aligned, for names and versions in
    ASCII and widths below 10^6. The row of the [i]-th family
    process is made of cells of a total width that is the same in every
    row, followed by the path and a line end; so the path starts at the
    same place in every row. The mark of the agent stands at the same
    place in every row: [*] for a process with the agent, a blank for one
    without. *)
Theorem list_rows_aligned (ps : list P) (i : nat) (p : P) :
  let w := columnWidths (dcrOnly ps) in
  maxPID w < 1000000 → maxPPID w < 1000000 →
  maxExec w < 1000000 → maxVersion w < 1000000 →
  (∀ q, q ∈ dcrOnly ps → isAscii (Exec q) = true ∧ isAscii (BuildVersion q) = true) →
  dcrOnly ps !! i = Some p →
  ∃ cells,
    processes ps !! i = Some (cells +:+ Path p +:+ nl) ∧
    len cells = maxPID w + maxPPID w + maxExec w + maxVersion w + 6 ∧
    String.get (Z.to_nat (maxPID w + maxPPID w + maxExec w + 3)) cells
      = Some (if Agent p then "*"%char else " "%char).
Proof.
  intros w B1 B2 B3 B4 Hascii Hi.
  pose proof (widths_accepted (dcrOnly ps) B1 B2 B3 B4) as Hok. fold w in Hok.
  pose proof (list_elem_of_lookup_2 _ _ _ Hi) as Hp.
  pose proof (columnWidths_fit (dcrOnly ps) p Hp) as (F1 & F2 & F3 & F4).
  fold w in F1, F2, F3, F4.
  destruct (Hascii p Hp) as [Hexec Hversion].
  set (c1 := padLeft (maxPID w) (Itoa (PID p))).
  set (c2 := padLeft (maxPPID w) (Itoa (PPID p))).
  set (c3 := padLeft (maxExec w) (Exec p)).
  set (star := if Agent p then "*"%char else " "%char).
  set (c5 := padLeft (maxVersion w) (BuildVersion p)).
  assert (len c1 = maxPID w) as L1 by (apply len_padLeft; [apply RuneCount_Itoa|done]).
  assert (len c2 = maxPPID w) as L2 by (apply len_padLeft; [apply RuneCount_Itoa|done]).
  assert (len c3 = maxExec w) as L3 by (apply len_padLeft; [by apply RuneCount_ascii|done]).
  assert (len c5 = maxVersion w) as L5
    by (apply len_padLeft; [by apply RuneCount_ascii|done]).
  set (front := c1 +:+ " " +:+ c2 +:+ " " +:+ c3 +:+ " ").
  set (back := String star EmptyString +:+ " " +:+ c5 +:+ " ").
  assert (len front = maxPID w + maxPPID w + maxExec w + 3) as Lfront.
  { unfold front. rewrite !len_app, L1, L2, L3.
    change (len " ") with 1. lia. }
  exists (front +:+ back). split; [|split].
  - unfold processes. fold w. rewrite list_lookup_fmap, Hi. simpl. f_equal.
    rewrite (printRow_cells w p Hok). fold c1 c2 c3 c5.
    assert (padLeft 1 (if Agent p then "*"%string else " "%string)
            = String star EmptyString) as ->
      by (unfold star; by destruct (Agent p)).
    unfold front, back. rewrite !string_app_assoc. reflexivity.
  - rewrite len_app, Lfront. unfold back. rewrite !len_app, L5.
    change (len (String star EmptyString)) with 1. change (len " ") with 1. lia.
  - rewrite <- Lfront. unfold len. rewrite Nat2Z.id.
    apply (get_after front star (" " +:+ c5 +:+ " ")).
Qed.

Lemma list_rows_aligned_witness :
  ∃ cells,
    processes scenarioA !! 1%nat
      = Some (cells +:+ "/usr/bin/dcrwallet" +:+ nl) ∧
    len cells = 1 + 1 + 9 + 6 + 6 ∧
    String.get 14 cells = Some "*"%char.
Proof.
  destruct (list_rows_aligned scenarioA 1
              (mkP 2 1 "dcrwallet" "/usr/bin/dcrwallet" "v1.4.0" true))
    as (cells & Hrow & Hlen & Hstar).
  - reflexivity.
  - reflexivity.
  - reflexivity.
  - reflexivity.
  - intros q Hq. apply elem_of_dcrOnly in Hq as [Hq _].
    apply elem_of_cons in Hq as [->|Hq]; [split; reflexivity|].
    apply list_elem_of_singleton in Hq as ->. split; reflexivity.
  - reflexivity.
  - exists cells. split; [exact Hrow|]. split; [exact Hlen|exact Hstar].
Defined.

Lemma columnWidths_perm (l l' : list P) :
  l ≡ₚ l' → columnWidths l = columnWidths l'.
Proof.
  unfold columnWidths. generalize {| maxPID := 0; maxPPID := 0; maxExec := 0; maxVersion := 0 |}.
  intros w Hperm. revert w.
  induction Hperm as [|x l l' _ IH|x y l|l1 l2 l3 _ IH1 _ IH2]; intros w.
  - done.
  - simpl. apply IH.
  - simpl. f_equal. f_equal; rewrite !max_spec; lia.
  - by rewrite IH1.
Qed.

(** X10. The order in which the processes are enumerated changes list
    mode only in the order of the rows: the column widths are the same
    and the rows are the same up to their order. *)
Theorem list_mode_order (ps ps' : list P) :
  ps ≡ₚ ps' →
  columnWidths (dcrOnly ps) = columnWidths (dcrOnly ps') ∧
  processes ps ≡ₚ processes ps'.
Proof.
  intros Hperm.
  assert (dcrOnly ps ≡ₚ dcrOnly ps') as Hfam by (unfold dcrOnly; by rewrite Hperm).
  pose proof (columnWidths_perm _ _ Hfam) as Hw.
  split; [done|]. unfold processes. rewrite Hw. by apply fmap_Permutation.
Qed.

Lemma list_mode_order_witness :
  processes scenarioA ≡ₚ processes (reverse scenarioA).
Proof.
  apply (list_mode_order scenarioA (reverse scenarioA)).
  symmetry. apply reverse_Permutation.
Defined.

(** * Numbers on the command line *)

Lemma parseDigits_acc (d : Decimal.uint) (acc : positive) :
  parseDigits (NilEmpty.string_of_uint d) (Z.pos acc)
  = Some (Z.pos (Pos.of_uint_acc d acc)).
Proof.
  revert acc. induction d as [|d IH|d IH|d IH|d IH|d IH|d IH|d IH|d IH|d IH|d IH];
    intros acc; [done|..];
    cbn [NilEmpty.string_of_uint parseDigits Pos.of_uint_acc];
    match goal with
    | |- context [digitValue ?c] =>
      let v := eval vm_compute in (digitValue c) in
      change (digitValue c) with v
    end; cbv iota; rewrite <- IH; f_equal; lia.
Qed.

Lemma parseDigits_zero (d : Decimal.uint) :
  parseDigits (NilEmpty.string_of_uint d) 0 = Some (Z.of_N (Pos.of_uint d)).
Proof.
  induction d as [|d IH|d IH|d IH|d IH|d IH|d IH|d IH|d IH|d IH|d IH];
    [done|exact IH|..];
    cbn [NilEmpty.string_of_uint parseDigits Pos.of_uint];
    match goal with
    | |- context [digitValue ?c] =>
      let v := eval vm_compute in (digitValue c) in
      change (digitValue c) with v
    end; cbv iota; cbn [Z.of_N]; rewrite <- parseDigits_acc; f_equal.
Qed.

Lemma parseDigits_print (p : positive) :
  ∃ c rest,
    NilZero.string_of_uint (Pos.to_uint p) = String c rest ∧
    Ascii.eqb c "-" = false ∧ Ascii.eqb c "+" = false ∧
    parseDigits (String c rest) 0 = Some (Z.pos p).
Proof.
  pose proof (parseDigits_zero (Pos.to_uint p)) as Hparse.
  rewrite DecimalPos.Unsigned.of_to in Hparse. cbn [Z.of_N] in Hparse.
  pose proof (Unsigned.to_uint_nonnil p) as Hnil.
  destruct (Pos.to_uint p) as [|d|d|d|d|d|d|d|d|d|d]; [done|..];
    cbn [NilZero.string_of_uint NilEmpty.string_of_uint] in *;
    eexists _, _; (split; [reflexivity|]); (split; [reflexivity|]);
    (split; [reflexivity|]); exact Hparse.
Qed.

(** [strconv.Atoi] reads back what [strconv.Itoa] writes, for the numbers
    of the type [int]; the decimal text of a number outside this range is
    rejected. *)
Lemma Atoi_Itoa (n : Z) :
  Atoi (Itoa n) =
  if (- 2 ^ 63 <=? n) && (n <=? 2 ^ 63 - 1) then Some n else None.
Proof.
  unfold Itoa. destruct n as [|p|p].
  - reflexivity.
  - cbn [Z.to_int NilZero.string_of_int].
    destruct (parseDigits_print p) as (c & rest & -> & Hm & Hp & Hparse).
    unfold Atoi. rewrite Hm, Hp. cbn [orb]. cbv iota. by rewrite Hparse.
  - cbn [Z.to_int NilZero.string_of_int].
    destruct (parseDigits_print p) as (c & rest & -> & Hm & Hp & Hparse).
    unfold Atoi. change (Ascii.eqb "-" "-") with true. cbn [orb]. cbv iota.
    by rewrite Hparse.
Qed.

(** X11. The decimal text of a number of the type [int] as first argument
    makes [main] do what [processInfo] does with this number, whatever
    follows; the decimal text of a number outside the range of [int] is
    not taken as a number. *)
Theorem main_reads_pid (float32 float64 : Type)
    (fmt3f32 : float32 → string) (fmt3f64 : float64 → string)
    (NewProcess : Z → Process float32 float64 + string) (logPrefix : string)
    (Addr : Type)
    (cmds : gmap string (Addr → list string → option string))
    (targetToAddr : string → Addr + string) (nameToPid : gmap string Z)
    (prog : string) (rest : list string) (n : Z) (t : list (event Addr)) :
  (- 2 ^ 63 ≤ n ≤ 2 ^ 63 - 1 →
   Atoi (Itoa n) = Some n ∧
   main float32 float64 fmt3f32 fmt3f64 NewProcess logPrefix Addr cmds targetToAddr nameToPid
     (prog :: Itoa n :: rest) t
   = processInfo float32 float64 fmt3f32 fmt3f64 NewProcess logPrefix Addr n t) ∧
  (¬ (- 2 ^ 63 ≤ n ≤ 2 ^ 63 - 1) → Atoi (Itoa n) = None).
Proof.
  pose proof (Atoi_Itoa n) as Hround. split.
  - intros [Hlo Hhi].
    apply Z.leb_le in Hlo, Hhi. rewrite Hlo, Hhi in Hround.
    split; [done|]. unfold main. rewrite two_args. simpl. by rewrite Hround.
  - intros Hout. rewrite Hround.
    destruct (Z.leb_spec (- 2 ^ 63) n); [|done].
    destruct (Z.leb_spec n (2 ^ 63 - 1)); [lia|done].
Qed.

Lemma main_reads_pid_witness :
  Atoi (Itoa 31337) = Some 31337 ∧
  main unit unit (λ _, ""%string) (λ _, ""%string) (λ _, inr "no process"%string) ""
    unit ∅ (λ _, inr "no agent"%string) ∅ ["dcrps"; Itoa 31337] []
  = processInfo unit unit (λ _, ""%string) (λ _, ""%string) (λ _, inr "no process"%string) ""
      unit 31337 [].
Proof.
  apply (proj1 (main_reads_pid unit unit (λ _, ""%string) (λ _, ""%string)
                  (λ _, inr "no process"%string) "" unit ∅ (λ _, inr "no agent"%string) ∅
                  "dcrps" [] 31337 [])).
  vm_compute. split; discriminate.
Defined.

(** * The inspector of one process *)

Section ProcessInfoProperties.

Variable float32 float64 : Type.
Variable fmt3f32 : float32 → string.
Variable fmt3f64 : float64 → string.
Variable NewProcess : Z → Process float32 float64 + string.
Variable logPrefix : string.
Variable Addr : Type.

(** X12. [processInfo] fails in one way only: when [process.NewProcess]
    gives an error, it writes nothing to standard output, logs the error
    and ends the program with status 1. Otherwise it returns, having
    written to standard output only, one line for each query that has a
    value and one line for each connection; a query that fails costs its
    line and nothing else. *)
Theorem processInfo_outcome (pid : Z) (t : list (event Addr)) :
  match NewProcess (int32 pid) with
  | inr err =>
    processInfo float32 float64 fmt3f32 fmt3f64 NewProcess logPrefix Addr pid t
    = (Exited 1, t ++ [Stderr (logPrefix +:+ "Cannot read process info: " +:+ err +:+ nl)])
  | inl p =>
    ∃ out,
      processInfo float32 float64 fmt3f32 fmt3f64 NewProcess logPrefix Addr pid t
      = (Done tt, t ++ out) ∧
      Forall isStdout out ∧
      length out = answers float32 float64 p
  end.
Proof.
  destruct (NewProcess (int32 pid)) as [p|err] eqn:Hnew.
  - by apply processInfo_returns.
  - by apply processInfo_exits.
Qed.

(** X13. [processInfo] asks for the process whose PID is the argument cut
    to 32 bits: a PID in the range of [int32] is asked for as it is, and
    two arguments that differ by a multiple of 2^32 inspect the same
    process. *)
Theorem processInfo_cuts_pid (pid k : Z) :
  (- 2 ^ 31 ≤ pid < 2 ^ 31 → int32 pid = pid) ∧
  int32 (pid + k * 2 ^ 32) = int32 pid ∧
  processInfo float32 float64 fmt3f32 fmt3f64 NewProcess logPrefix Addr (pid + k * 2 ^ 32)
  = processInfo float32 float64 fmt3f32 fmt3f64 NewProcess logPrefix Addr pid.
Proof.
  assert (int32 (pid + k * 2 ^ 32) = int32 pid) as Hcut.
  { unfold int32. f_equal.
    replace (pid + k * 2 ^ 32 + 2 ^ 31) with (pid + 2 ^ 31 + k * 2 ^ 32) by lia.
    by rewrite Z.mod_add. }
  split; [|split; [done|]].
  - intros Hrange. unfold int32. rewrite Z.mod_small; lia.
  - unfold processInfo. by rewrite Hcut.
Qed.

End ProcessInfoProperties.

Lemma processInfo_outcome_witness :
  ∃ out,
    processInfo unit unit (λ _, "0.500"%string) (λ _, "1.250"%string)
      (λ pid, inl (mkProcess unit unit (Some 1) None (Some tt) None (Some "root"%string) None
                     (Some [mkConnectionStat (mkNetAddr "127.0.0.1" 9109)
                                              (mkNetAddr "127.0.0.1" 51000) "ESTABLISHED"])))
      "" unit 4242 []
    = (Done tt, [] ++ out) ∧
    Forall isStdout out ∧ length out = 4%nat.
Proof.
  exact (processInfo_outcome unit unit (λ _, "0.500"%string) (λ _, "1.250"%string)
           (λ pid, inl (mkProcess unit unit (Some 1) None (Some tt) None (Some "root"%string) None
                          (Some [mkConnectionStat (mkNetAddr "127.0.0.1" 9109)
                                                   (mkNetAddr "127.0.0.1" 51000) "ESTABLISHED"])))
           "" unit 4242 []).
Defined.

Lemma processInfo_cuts_pid_witness : int32 4294967297 = 1 ∧ int32 (-1) = -1.
Proof.
  split.
  - change 4294967297 with (1 + 1 * 2 ^ 32).
    rewrite (proj1 (proj2 (processInfo_cuts_pid unit unit (λ _, ""%string) (λ _, ""%string)
                             (λ _, inr ""%string) "" unit 1 1))).
    reflexivity.
  - apply (proj1 (processInfo_cuts_pid unit unit (λ _, ""%string) (λ _, ""%string)
                    (λ _, inr ""%string) "" unit (-1) 0)).
    vm_compute. split; [discriminate|reflexivity].
Defined.

(** * The order of the children *)

Lemma kidsOf_app m (a b : list ((Z * P) * option ptr)) :
  kidsOf m (a ++ b) = kidsOf m a ++ kidsOf m b.
Proof. unfold kidsOf. by rewrite filter_app, fmap_app. Qed.

Lemma kidsOf_cons m e (ext : list ((Z * P) * option ptr)) :
  kidsOf m (e :: ext) = (if decide (e.2 = Some m) then [e.1] else []) ++ kidsOf m ext.
Proof. unfold kidsOf. rewrite filter_cons. by repeat case_decide. Qed.

Lemma kidsOf_none m (ext : list ((Z * P) * option ptr)) :
  (∀ q e, ext !! q = Some e → e.2 ≠ Some m) → kidsOf m ext = [].
Proof.
  intros Hno. unfold kidsOf. rewrite filter_none; [done|].
  intros e [q Hq]%list_elem_of_lookup. by eapply Hno.
Qed.

Lemma pairs_length s :
  consistent s → length (pairs s) = length (visits s) ∧
                 length (heap s) = S (length (pairs s)).
Proof.
  intros Hcons. pose proof (consistent_length s Hcons) as Hlen.
  unfold pairs. rewrite length_zip.
  destruct (heap s) as [|n h]; simpl in *; [lia|].
  rewrite length_fmap. lia.
Qed.

Lemma pairs_enter k p t s :
  consistent s → pairs (enter k p t s) = pairs s ++ [((k, p), Some t)].
Proof.
  intros Hcons. pose proof (consistent_length s Hcons) as Hlen.
  unfold pairs. rewrite visits_enter, roots_enter.
  assert (tail ((Root <$> heap s) ++ [Some t]) = tail (Root <$> heap s) ++ [Some t]) as ->
    by (destruct (heap s); [simpl in Hlen; lia|done]).
  apply (zip_with_app pair (visits s) [(k, p)] (tail (Root <$> heap s)) [Some t]).
  destruct (heap s); simpl in *; [lia|]. rewrite length_fmap. lia.
Qed.

Lemma pairs_lookup s j c :
  consistent s → visits s !! j = Some c → ∃ r, pairs s !! j = Some (c, r).
Proof.
  intros Hcons Hj. pose proof (consistent_length s Hcons) as Hlen.
  assert (j < length (tail (Root <$> heap s)))%nat as Hlt.
  { apply lookup_lt_Some in Hj. destruct (heap s); simpl in *; [lia|].
    rewrite length_fmap. lia. }
  destruct (lookup_lt_is_Some_2 _ _ Hlt) as [r Hr].
  exists r. unfold pairs. apply lookup_zip_Some. done.
Qed.

Lemma sublist_of_fmap {A B} (f : A → B) (l : list A) (k : list B) :
  k `sublist_of` (f <$> l) → ∃ cs, cs `sublist_of` l ∧ k = f <$> cs.
Proof.
  revert k. induction l as [|x l IH]; intros k Hk.
  - apply sublist_nil_r in Hk as ->. by exists [].
  - rewrite fmap_cons in Hk. apply sublist_cons_r in Hk as [Hk|(k' & -> & Hk)].
    + destruct (IH _ Hk) as (cs & ? & ->). exists cs. split; [by apply sublist_cons|done].
    + destruct (IH _ Hk) as (cs & ? & ->). exists (x :: cs).
      split; [by apply sublist_skip|done].
Qed.

Lemma loopRel_callsRel Q l b s s' :
  loopRel Q l b s s' → callsRel Q ((λ c, (PID c, c)) <$> l) b s s'.
Proof.
  revert s. induction l as [|c l IH]; intros s Hl; simpl in *; [done|].
  destruct Hl as (s1 & Hc & Hl). exists s1. split; [done|by apply IH].
Qed.

(** [lia] after the pointers have been read as numbers. *)
Ltac plia := unfold ptr in *; lia.

Lemma calls_outcome pstree calls b :
  ∀ s s',
    callsRel (λ k p t s s', consistent s → (t < length (heap s))%nat →
                            callOutcome pstree k p t s s') calls b s s' →
    consistent s → (b < length (heap s))%nat → callsOutcome pstree calls b s s'.
Proof.
  induction calls as [|c calls IH]; intros s s' Hrel Hcons Hb; simpl in Hrel.
  - subst s'. exists []. rewrite app_nil_r. split; [done|]. split; [done|].
    split; [by intros q e ?|]. split; [done|]. split; [apply sublist_nil_l|].
    by intros i c r ?.
  - destruct Hrel as (s1 & Hc & Hrel).
    destruct (Hc Hcons Hb) as (ext1 & Hp1 & Hcons1 & Hhead & HR1 & HF1 & HN1).
    assert (length (heap s1) = length (heap s) + length ext1)%nat as Hlen.
    { destruct (pairs_length s Hcons) as [_ ->].
      destruct (pairs_length s1 Hcons1) as [_ ->].
      rewrite Hp1, length_app. plia. }
    destruct (IH s1 s' Hrel Hcons1) as (ext2 & Hp2 & Hcons' & HR2 & HF2 & HB2 & HN2);
      [plia|].
    exists (ext1 ++ ext2). split; [by rewrite Hp2, Hp1, app_assoc|].
    split; [done|]. split; [|split; [|split]].
    + intros q e [Hq|[Hge Hq]]%lookup_app_Some; [by apply HR1|].
      destruct (HR2 _ _ Hq) as (m & ? & ?). exists m. split; [done|plia].
    + intros m Hm Hmb. rewrite kidsOf_app, HF1, HF2 by plia.
      by rewrite decide_False.
    + rewrite kidsOf_app, HF1 by done. rewrite decide_True by done.
      destruct Hhead as [->|(rest & ->)].
      * simpl. by apply sublist_cons.
      * simpl. destruct c as [k p]. by apply sublist_skip.
    + intros i c' r [Hi|[Hge Hi]]%lookup_app_Some.
      * destruct (HN1 _ _ _ Hi) as (cs & Hcs & Hkids). exists cs. split; [done|].
        rewrite kidsOf_app, Hkids, HF2; [by rewrite app_nil_r| |plia].
        apply lookup_lt_Some in Hi. plia.
      * destruct (HN2 _ _ _ Hi) as (cs & Hcs & Hkids). exists cs. split; [done|].
        rewrite kidsOf_app.
        replace (length (heap s1) + (i - length ext1))%nat
          with (length (heap s) + i)%nat in Hkids by plia.
        rewrite Hkids, kidsOf_none; [done|].
        intros q e Hq Heq. destruct (HR1 _ _ Hq) as (m & Hm & Hlt).
        apply lookup_lt_Some in Hq. rewrite Hm in Heq. injection Heq as ->. plia.
Qed.

Lemma construct_outcome pstree fuel k p t s s' :
  constructProcessTree fuel pstree k p t s = Some (tt, s') →
  consistent s → (t < length (heap s))%nat → callOutcome pstree k p t s s'.
Proof.
  revert fuel k p t s s'.
  apply (construct_rule pstree
           (λ k p t s s', consistent s → (t < length (heap s))%nat →
                          callOutcome pstree k p t s s')).
  - intros k p t s _ Hcons Ht. exists []. rewrite app_nil_r.
    split; [done|]. split; [done|]. split; [by left|]. split; [by intros q e ?|].
    split; [|by intros i c r ?]. intros m _. by case_decide.
  - intros k p t s s' Hk Hloop Hcons Ht.
    pose proof (consistent_enter k p t s Hk Hcons) as Hcons0.
    assert (length (heap (enter k p t s)) = S (length (heap s))) as Hlen0
      by (rewrite heap_enter, length_app, length_alter; simpl; plia).
    apply loopRel_callsRel in Hloop.
    destruct (calls_outcome pstree _ _ _ _ Hloop Hcons0)
      as (ext & Hp & Hcons' & HR & HF & HB & HN); [plia|].
    rewrite Hlen0 in HR, HF, HN.
    exists (((k, p), Some t) :: ext). split.
    { rewrite Hp, pairs_enter by done. by rewrite <- app_assoc. }
    split; [done|]. split; [right; by eexists|]. split; [|split].
    + intros [|q] e Hq; simpl in Hq.
      * injection Hq as <-. exists t. split; [done|plia].
      * destruct (HR _ _ Hq) as (m & ? & ?). exists m. split; [done|plia].
    + intros m Hm. rewrite kidsOf_cons, HF by plia. simpl.
      rewrite app_nil_r.
      repeat case_decide; try reflexivity; exfalso; unfold ptr in *; congruence.
    + intros [|i] c r Hi; simpl in Hi.
      * injection Hi as <- <-. simpl.
        apply sublist_of_fmap in HB as (cs & Hcs & Hkids).
        exists cs. split; [done|].
        rewrite Nat.add_0_r, kidsOf_cons, Hkids. simpl.
        rewrite decide_False; [done|]. intros [= ->]. plia.
      * destruct (HN _ _ _ Hi) as (cs & Hcs & Hkids). exists cs. split; [done|].
        replace (length (heap s) + S i)%nat with (S (length (heap s)) + i)%nat by plia.
        rewrite kidsOf_cons, Hkids. simpl.
        rewrite decide_False; [done|]. intros [= ->]. plia.
Qed.

Lemma renderLoop_callsRel fuel pstree l :
  ∀ s s',
    (∀ r, r ∈ l → HasPrefix (Exec r) dcrPrefix = true) →
    renderLoop fuel pstree l s = Some (tt, s') →
    callsRel (λ k p t s s', consistent s → (t < length (heap s))%nat →
                            callOutcome pstree k p t s s')
             ((λ r, (PPID r, r)) <$> l) rootPtr s s'.
Proof.
  unfold renderLoop. induction l as [|r l IH]; intros s s' Hfam Hrun.
  - simpl in *. by injection Hrun as <-.
  - rewrite forEach_cons, (Hfam r (list_elem_of_here _ _)) in Hrun.
    change (negb true) with false in Hrun. cbv beta iota in Hrun.
    destruct (constructProcessTree fuel pstree (PPID r) r rootPtr s)
      as [[[] s1]|] eqn:Hcall; [|discriminate].
    rewrite fmap_cons. exists s1. split.
    + intros Hcons Ht. by eapply construct_outcome.
    + apply IH; [|done]. intros r' Hr'. apply Hfam. by right.
Qed.

Lemma renderRun_outcome fuel ps s :
  renderRun fuel ps = Some s →
  callsOutcome (buildIndex ps) ((λ r, (PPID r, r)) <$> dcrOnly ps) rootPtr initRSt s.
Proof.
  unfold renderRun. rewrite <- renderLoop_dcrOnly. intros Hrun.
  destruct (renderLoop fuel (buildIndex ps) (dcrOnly ps) initRSt) as [[[] s']|] eqn:Hl;
    [|discriminate].
  injection Hrun as <-.
  apply calls_outcome; [|apply consistent_init|unfold rootPtr; simpl; lia].
  eapply renderLoop_callsRel; [|exact Hl].
  by intros r [_ ?]%elem_of_dcrOnly.
Qed.

Lemma filter_seq_zip {A} (V : list A) (R : list (option nat)) (m o : nat) :
  length V = length R →
  (λ idx, V !! (idx - o)%nat)
    <$> filter (λ j, R !! (j - o)%nat = Some (Some m)) (seq o (length V))
  = Some <$> (filter (λ e, e.2 = Some m) (zip V R)).*1.
Proof.
  revert R o. induction V as [|v V IH]; intros [|r R] o Hlen; try done.
  simpl in Hlen. injection Hlen as Hlen.
  cbn [length seq]. rewrite filter_cons, Nat.sub_diag. cbn [lookup list_lookup].
  assert (filter (λ j, (r :: R) !! (j - o)%nat = Some (Some m)) (seq (S o) (length V))
          = filter (λ j, R !! (j - S o)%nat = Some (Some m)) (seq (S o) (length V))) as ->.
  { apply filter_ext_in. intros j [Hj _]%elem_of_seq.
    by replace (j - o)%nat with (S (j - S o)) by lia. }
  assert (∀ l, Forall (λ j, S o ≤ j)%nat l →
            (λ idx, (v :: V) !! (idx - o)%nat) <$> l
            = (λ idx, V !! (idx - S o)%nat) <$> l) as Hmap.
  { intros l Hl. apply Forall_fmap_ext. eapply Forall_impl; [exact Hl|].
    intros j Hj. cbv beta in *. by replace (j - o)%nat with (S (j - S o)) by lia. }
  assert (Forall (λ j, S o ≤ j)%nat
            (filter (λ j, R !! (j - S o)%nat = Some (Some m)) (seq (S o) (length V))))
    as Hge.
  { apply Forall_forall. intros j [_ [Hj _]%elem_of_seq]%list_elem_of_filter. done. }
  change (zip (v :: V) (r :: R)) with ((v, r) :: zip V R).
  rewrite filter_cons. cbn [snd].
  destruct (decide (r = Some m)) as [->|Hne]; repeat case_decide; try congruence.
  - rewrite !fmap_cons, Nat.sub_diag. cbn [lookup list_lookup fst]. f_equal.
    rewrite (Hmap _ Hge). by apply IH.
  - rewrite (Hmap _ Hge). by apply IH.
Qed.

(** The calls of the nodes in the children list of a node. *)
Lemma nodes_kids s m nd :
  consistent s → storeWf (heap s) → heap s !! m = Some nd →
  (λ idx, visits s !! (idx - 1)%nat) <$> Nodes nd = Some <$> kidsOf m (pairs s).
Proof.
  intros Hcons Hwf Hnd.
  pose proof (consistent_length s Hcons) as Hlen.
  destruct (Hwf m nd Hnd) as [_ ->].
  destruct (heap s) as [|n0 h] eqn:Hheap; [done|].
  assert (Root n0 = None) as Hroot0.
  { destruct (Hwf 0%nat n0) as [H0 _]; [done|].
    destruct (Root n0); [lia|done]. }
  simpl in Hlen. injection Hlen as Hlen.
  cbn [length seq]. rewrite filter_cons. cbn [lookup list_lookup mbind option_bind].
  rewrite Hroot0, decide_False by done.
  unfold kidsOf, pairs. rewrite Hheap. cbn [fmap list_fmap tail].
  rewrite Hlen.
  rewrite <- (filter_seq_zip (visits s) (Root <$> h) m 1)
    by (by rewrite length_fmap).
  f_equal. apply filter_ext_in. intros j [Hj _]%elem_of_seq.
  destruct j as [|j]; [lia|]. simpl. rewrite Nat.sub_0_r, list_lookup_fmap.
  destruct (h !! j); simpl; split; congruence.
Qed.

(** X14. The children of a node stand in the order of the loop that made
    them. The children of the top node are the bare nodes of the
    top-level calls that got past the guard, in the order of the
    enumeration. The children of the node of a call with key [k] are the
    nodes of the calls, with their own PID as key, of records taken from
    the bucket of [k] in the order of the bucket. *)
Theorem children_in_bucket_order (fuel : nat) (ps : list P) :
  (treeFuel ps ≤ fuel)%nat →
  ∃ s, renderRun fuel ps = Some s ∧
    (∃ top rs,
       heap s !! 0%nat = Some top ∧ rs `sublist_of` dcrOnly ps ∧
       (λ idx, visits s !! (idx - 1)%nat) <$> Nodes top
       = Some <$> ((λ r, (PPID r, r)) <$> rs)) ∧
    (∀ j k p, visits s !! j = Some (k, p) →
       ∃ nd cs,
         heap s !! S j = Some nd ∧ cs `sublist_of` (buildIndex ps !!! k) ∧
         (λ idx, visits s !! (idx - 1)%nat) <$> Nodes nd
         = Some <$> ((λ c, (PID c, c)) <$> cs)).
Proof.
  intros Hfuel. destruct (renderRun_total ps fuel Hfuel) as (s & Hs & _).
  exists s. split; [done|].
  pose proof (renderRun_consistent _ _ _ Hs) as Hcons.
  pose proof (renderRun_storeWf _ _ _ Hs) as Hwf.
  destruct (renderRun_outcome _ _ _ Hs) as (ext & Hp & _ & _ & _ & HB & HN).
  change (pairs initRSt) with (@nil ((Z * P) * option ptr)) in Hp.
  rewrite app_nil_l in Hp. subst ext. split.
  - destruct (heap s) as [|top h] eqn:Hheap.
    { pose proof (consistent_length s Hcons) as Hlen. by rewrite Hheap in Hlen. }
    apply sublist_of_fmap in HB as (rs & Hrs & Hkids).
    exists top, rs. split; [done|]. split; [done|].
    rewrite <- Hkids. rewrite <- Hheap in *. apply nodes_kids; [done..|].
    by rewrite Hheap.
  - intros j k p Hj.
    destruct (consistent_node s j (k, p) Hcons Hj) as (nd & Hnd & _).
    destruct (pairs_lookup s j (k, p) Hcons Hj) as (r & Hr).
    destruct (HN j (k, p) r Hr) as (cs & Hcs & Hkids).
    exists nd, cs. split; [done|]. split; [done|].
    rewrite <- Hkids. by apply nodes_kids.
Qed.

Lemma children_in_bucket_order_witness :
  ∃ s, renderRun 5 scenarioA = Some s ∧
    (∃ top rs,
       heap s !! 0%nat = Some top ∧ rs `sublist_of` dcrOnly scenarioA ∧
       (λ idx, visits s !! (idx - 1)%nat) <$> Nodes top
       = Some <$> ((λ r, (PPID r, r)) <$> rs)) ∧
    (∀ j k p, visits s !! j = Some (k, p) →
       ∃ nd cs,
         heap s !! S j = Some nd ∧ cs `sublist_of` (buildIndex scenarioA !!! k) ∧
         (λ idx, visits s !! (idx - 1)%nat) <$> Nodes nd
         = Some <$> ((λ c, (PID c, c)) <$> cs)).
Proof. apply (children_in_bucket_order 5 scenarioA). vm_compute. lia. Defined.

(** * Two top-level records with the same parent *)

(** The first element with a property is the same in two splits of a
    list. *)
Lemma first_with_unique {A} (Q : A → Prop) (d1 l1 : list A) (x a : A) (d2 r2 : list A) :
  d1 ++ x :: d2 = l1 ++ a :: r2 → Q x → Q a →
  (∀ r, r ∈ d1 → ¬ Q r) → (∀ r, r ∈ l1 → ¬ Q r) → x = a.
Proof.
  revert l1. induction d1 as [|y d1 IH]; intros [|z l1] Heq Hx Ha Hd Hl; simpl in Heq.
  - by injection Heq.
  - injection Heq as -> _. exfalso. apply (Hl z); [left|done].
  - injection Heq as -> _. exfalso. apply (Hd a); [left|done].
  - injection Heq as -> Heq. apply (IH l1 Heq Hx Ha).
    + intros r Hr. apply Hd. by right.
    + intros r Hr. apply Hl. by right.
Qed.

Lemma firstOf_snoc done r c : firstOf done c → firstOf (done ++ [r]) c.
Proof.
  intros [Hc|(d1 & d2 & -> & Hk & Hd)]; [by left|].
  right. exists d1, (d2 ++ [r]). by rewrite <- app_assoc.
Qed.

(** The key of a top-level call that passes the guard is logged by the
    first record of the enumeration with this parent identifier. *)
Lemma renderLoop_first fuel pstree todo :
  ∀ done s s',
    (∀ r, r ∈ todo → HasPrefix (Exec r) dcrPrefix = true) →
    (∀ r, r ∈ done → seen_of s (PPID r) = true) →
    Forall (firstOf done) (visits s) →
    renderLoop fuel pstree todo s = Some (tt, s') →
    Forall (firstOf (done ++ todo)) (visits s').
Proof.
  unfold renderLoop.
  induction todo as [|r todo IH]; intros done s s' Hfam Hdone Hvis Hrun; simpl in Hrun.
  - injection Hrun as <-. by rewrite app_nil_r.
  - rewrite (Hfam r (list_elem_of_here _ _)) in Hrun. simpl in Hrun.
    unfold mbind, M_bind in Hrun.
    destruct (constructProcessTree _ _ _ _ _ _) as [[[] s1]|] eqn:Hc; [|discriminate].
    destruct (construct_expands _ _ _ _ _ _ _ Hc) as (Hsub & Hk & _).
    replace (done ++ r :: todo) with ((done ++ [r]) ++ todo) by (by rewrite <- app_assoc).
    apply (IH (done ++ [r]) s1 s'); [| | |done].
    + intros r' Hr'. apply Hfam. by right.
    + intros r' [Hr'|Hr']%elem_of_app;
        [by apply Hsub, Hdone|apply list_elem_of_singleton in Hr'; by subst r'].
    + eapply construct_visits; [|exact Hc| |].
      * intros k c _. by left.
      * intros Hunseen. right. exists done, []. split; [done|]. split; [done|].
        simpl. intros r' Hr' Heq. specialize (Hdone r' Hr'). congruence.
      * eapply Forall_impl; [exact Hvis|]. intros c. apply firstOf_snoc.
Qed.

Lemma renderRun_first fuel ps s :
  renderRun fuel ps = Some s → Forall (firstOf (dcrOnly ps)) (visits s).
Proof.
  unfold renderRun. rewrite <- renderLoop_dcrOnly. intros Hrun.
  destruct (renderLoop fuel (buildIndex ps) (dcrOnly ps) initRSt) as [[[] s']|] eqn:Hl;
    [|discriminate].
  injection Hrun as <-.
  apply (renderLoop_first fuel (buildIndex ps) (dcrOnly ps) [] initRSt s'); [| |done|done].
  - by intros r [_ ?]%elem_of_dcrOnly.
  - by intros r ?%elem_of_nil.
Qed.

Section Siblings.

Variable ps : list P.
Variable done : list P.
Variable s : RSt.
Hypothesis pids_distinct : NoDup (PID <$> dcrOnly ps).
Hypothesis parents_first : parentFirst (dcrOnly ps) = true.
Hypothesis inv : topInv (buildIndex ps) (dcrOnly ps) done s.
Hypothesis hangs : hangsRight s.
Hypothesis firsts : Forall (firstOf done) (visits s).

(** A family record whose parent identifier is marked has its own logged
    call. *)
Lemma marked_parent_logged c :
  c ∈ dcrOnly ps → seen_of s (PPID c) = true → (PID c, c) ∈ visits s.
Proof.
  intros Hc Hpp. destruct inv as [[_ Hseen _] Hclosed _ Hvis].
  assert (seen_of s (PID c) = true) as Hpid
    by (apply (Hclosed (PPID c)); [done|by apply elem_of_bucket]).
  apply Hseen in Hpid. apply list_elem_of_fmap in Hpid as ([k x] & Hk & Hx).
  simpl in Hk. subst k.
  rewrite Forall_forall in Hvis. destruct (Hvis _ Hx) as [Hxin [Hk|[_ Hroot]]]; simpl in *.
  - assert (c = x) as -> by (by eapply NoDup_PID_inj). done.
  - exfalso. apply Hroot. apply list_elem_of_fmap. eauto.
Qed.

(** Such a record has its labelled node, under the node whose key is its
    parent identifier. *)
Lemma record_under_parent c :
  c ∈ dcrOnly ps → seen_of s (PPID c) = true →
  ∃ i nc m pm,
    visits s !! i = Some (PID c, c) ∧ heap s !! S i = Some nc ∧
    content nc = recordContent c ∧
    Root nc = Some (S m) ∧ visits s !! m = Some (PPID c, pm).
Proof.
  intros Hc Hpp.
  pose proof (top_consistent _ _ _ _ inv) as Hcons.
  pose proof (marked_parent_logged c Hc Hpp) as Hlog.
  apply list_elem_of_lookup in Hlog as [i Hi].
  destruct (consistent_node s i _ Hcons Hi) as (nc & Hnode & Hmeta & Hval).
  assert ((Root <$> heap s) !! S i = Some (Root nc)) as Hr
    by (by rewrite list_lookup_fmap, Hnode).
  pose proof (parentFirst_not_self _ _ parents_first Hc) as Hne.
  destruct (hangs i _ _ _ Hi Hr)
    as [[_ Heq]|(m & kp & pm & Hroot & Hm & -> & _)]; [done|].
  exists i, nc, m, pm. split; [done|]. split; [done|]. split; [|done].
  rewrite <- (callContent_own ps parents_first c Hc). unfold content, callContent.
  by rewrite Hmeta, Hval.
Qed.

(** Below a marked identifier every parent identifier is marked. *)
Lemma below_marked k c :
  seen_of s k = true → below (dcrOnly ps) k c →
  c ∈ dcrOnly ps ∧ seen_of s (PPID c) = true.
Proof.
  intros Hk. induction 1 as [c Hc Hpp|c d _ [Hc IH] Hd Hpp].
  - split; [done|congruence].
  - split; [done|]. rewrite Hpp.
    apply (top_closed _ _ _ _ inv (PPID c)); [done|by apply elem_of_bucket].
Qed.

(** The node of a parent identifier that is not the PID of a family
    record, once the first record with it has had its top-level call: a
    bare node under the top node, logged by this call, with the labelled
    nodes of all the records of its bucket under it, and with the
    labelled node of every record below the identifier in its place. *)
Lemma shared_parent_branch l1 a rest :
  done = l1 ++ a :: rest →
  (∀ r, r ∈ l1 → PPID r ≠ PPID a) →
  PPID a ∉ PID <$> dcrOnly ps →
  ∃ j nk,
    visits s !! j = Some (PPID a, a) ∧ heap s !! S j = Some nk ∧
    Root nk = Some 0%nat ∧ content nk = bareContent (PPID a) ∧
    (∀ c, c ∈ dcrOnly ps → PPID c = PPID a →
       ∃ i nc, visits s !! i = Some (PID c, c) ∧ heap s !! S i = Some nc ∧
               Root nc = Some (S j) ∧ content nc = recordContent c) ∧
    (∀ c, below (dcrOnly ps) (PPID a) c →
       ∃ i nc m pm, visits s !! i = Some (PID c, c) ∧ heap s !! S i = Some nc ∧
                    content nc = recordContent c ∧
                    Root nc = Some (S m) ∧ visits s !! m = Some (PPID c, pm)).
Proof.
  intros Hdone Hfirst Hroot.
  pose proof (top_consistent _ _ _ _ inv) as Hcons.
  assert (seen_of s (PPID a) = true) as Hseen
    by (apply (top_done _ _ _ _ inv); rewrite Hdone, elem_of_app; right; left).
  pose proof Hseen as Hkey. apply (visits_seen _ Hcons) in Hkey.
  apply list_elem_of_fmap in Hkey as ([k x] & Hk & Hx). simpl in Hk. subst k.
  apply list_elem_of_lookup in Hx as [j Hj].
  assert (x ∈ dcrOnly ps) as Hxin.
  { pose proof (top_visits _ _ _ _ inv) as Hvis. rewrite Forall_forall in Hvis.
    by destruct (Hvis _ (list_elem_of_lookup_2 _ _ _ Hj)) as [? _]. }
  assert (x = a) as ->.
  { pose proof firsts as Hf. rewrite Forall_forall in Hf.
    destruct (Hf _ (list_elem_of_lookup_2 _ _ _ Hj)) as [Hpid|(d1 & d2 & Hd & Hpp & Hd1)];
      simpl in *.
    - exfalso. apply Hroot. rewrite Hpid. apply list_elem_of_fmap. eauto.
    - rewrite Hdone in Hd. symmetry in Hd.
      by apply (first_with_unique (λ r, PPID r = PPID a) d1 l1 x a d2 rest Hd). }
  destruct (consistent_node s j _ Hcons Hj) as (nk & Hnode & Hmeta & Hval).
  simpl in Hmeta, Hval. unfold nodeMeta in Hmeta. unfold nodeValue in Hval.
  rewrite Z.eqb_refl in Hmeta, Hval. simpl in Hmeta, Hval.
  assert ((Root <$> heap s) !! S j = Some (Root nk)) as Hr
    by (by rewrite list_lookup_fmap, Hnode).
  exists j, nk. split; [done|]. split; [done|]. split; [|split; [|split]].
  - destruct (hangs j _ _ _ Hj Hr)
      as [[Htop _]|(m & kp & pm & _ & _ & _ & Heq & _)]; [done|].
    exfalso. apply Hroot. rewrite Heq. by apply list_elem_of_fmap_2.
  - unfold content, bareContent. by rewrite Hmeta, Hval.
  - intros c Hc Hpp.
    destruct (record_under_parent c Hc) as (i & nc & m & pm & Hi & Hnc & Hcont & Hrc & Hm);
      [congruence|].
    assert (m = j) as ->.
    { eapply (NoDup_lookup _ m j (PPID a)); [exact (visits_nodup _ Hcons)|..];
        rewrite list_lookup_fmap; [by rewrite Hm, Hpp|by rewrite Hj]. }
    by exists i, nc.
  - intros c Hbelow. destruct (below_marked _ _ Hseen Hbelow) as [Hc Hpp].
    by apply record_under_parent.
Qed.

(** Before the first record with a parent identifier that is no PID has
    had its top-level call, the identifier is not marked. *)
Lemma parent_unmarked_before a :
  (∀ r, r ∈ done → PPID r ≠ PPID a) →
  PPID a ∉ PID <$> dcrOnly ps →
  seen_of s (PPID a) = false.
Proof.
  intros Hfirst Hroot.
  destruct (seen_of s (PPID a)) eqn:Hseen; [exfalso|done].
  apply (visits_seen _ (top_consistent _ _ _ _ inv)) in Hseen.
  apply list_elem_of_fmap in Hseen as ([k x] & Hk & Hx). simpl in Hk. subst k.
  pose proof (top_visits _ _ _ _ inv) as Hvis. rewrite Forall_forall in Hvis.
  destruct (Hvis _ Hx) as [Hxin _]. simpl in Hxin.
  pose proof firsts as Hf. rewrite Forall_forall in Hf.
  destruct (Hf _ Hx) as [Hpid|(d1 & d2 & Hd & Hpp & _)]; simpl in *.
  - apply Hroot. rewrite Hpid. apply list_elem_of_fmap. eauto.
  - apply (Hfirst x); [|done]. rewrite Hd, elem_of_app. right. left.
Qed.

End Siblings.

(** X15. In a snapshot whose family records have distinct PIDs and stand
    after their parents, let [a] be the first
    family record with a parent identifier that is not the PID of a family
    record, and [b] a later family record with the same parent identifier.
    Before the top-level call of [a] the identifier is not marked. This
    call returns, and after it the identifier has its node, a bare branch
    under the top node, logged for this call; every record of the bucket,
    [a] and [b] among them, has its labelled node under this branch; and
    every record below the identifier, so every record of the subtrees of
    [a] and of [b], has its labelled node under the node of its own parent
    identifier. The top-level call of [b] finds the identifier marked and
    returns the state as it is. The same nodes are in the store when the
    render ends.
    For the snapshot of two such records alone, the store is written out:
    the bare branch and under it the two labelled nodes, both leaves.
    In any snapshot, the top-level call for a record that has its parent
    identifier in common with an earlier family record adds no node. *)
Theorem shared_parent_siblings :
  (∀ (fuel : nat) (ps l1 l2 l3 : list P) (a b : P),
     NoDup (PID <$> dcrOnly ps) →
     parentFirst (dcrOnly ps) = true →
     (treeFuel ps ≤ fuel)%nat →
     dcrOnly ps = l1 ++ a :: l2 ++ b :: l3 →
     PPID b = PPID a →
     (∀ r, r ∈ l1 → PPID r ≠ PPID a) →
     PPID a ∉ PID <$> dcrOnly ps →
     ∃ s0 sa sb s,
       renderLoop fuel (buildIndex ps) l1 initRSt = Some (tt, s0) ∧
       seen_of s0 (PPID a) = false ∧
       constructProcessTree fuel (buildIndex ps) (PPID a) a rootPtr s0 = Some (tt, sa) ∧
       renderLoop fuel (buildIndex ps) (l1 ++ a :: l2) initRSt = Some (tt, sb) ∧
       constructProcessTree fuel (buildIndex ps) (PPID b) b rootPtr sb = Some (tt, sb) ∧
       renderRun fuel ps = Some s ∧
       ∀ s', s' = sa ∨ s' = s →
         ∃ j nk,
           visits s' !! j = Some (PPID a, a) ∧ heap s' !! S j = Some nk ∧
           Root nk = Some 0%nat ∧ content nk = bareContent (PPID a) ∧
           (∀ c, c ∈ dcrOnly ps → PPID c = PPID a →
              ∃ i nc, visits s' !! i = Some (PID c, c) ∧ heap s' !! S i = Some nc ∧
                      Root nc = Some (S j) ∧ content nc = recordContent c) ∧
           (∀ c, below (dcrOnly ps) (PPID a) c →
              ∃ i nc m pm, visits s' !! i = Some (PID c, c) ∧ heap s' !! S i = Some nc ∧
                           content nc = recordContent c ∧
                           Root nc = Some (S m) ∧ visits s' !! m = Some (PPID c, pm))) ∧
  (∀ (a b : P) (fuel : nat),
     HasPrefix (Exec a) dcrPrefix = true →
     HasPrefix (Exec b) dcrPrefix = true →
     PPID a = PPID b → PID a ≠ PPID a → PID b ≠ PPID b → PID a ≠ PID b →
     (2 ≤ fuel)%nat →
     ∃ s1,
       constructProcessTree fuel (buildIndex [a; b]) (PPID a) a rootPtr initRSt
         = Some (tt, s1) ∧
       constructProcessTree fuel (buildIndex [a; b]) (PPID b) b rootPtr s1
         = Some (tt, s1) ∧
       renderRun fuel [a; b] = Some s1 ∧
       visits s1 = [(PPID a, a); (PID a, a); (PID b, b)] ∧
       heap s1 =
         [ {| Root := None; Meta := None; Val := VStr "..."; Nodes := [1%nat] |};
           {| Root := Some 0%nat; Meta := None; Val := VInt (PPID a);
              Nodes := [2%nat; 3%nat] |};
           {| Root := Some 1%nat; Meta := if Agent a then Some "*"%string else None;
              Val := VStr (output (PID a) a); Nodes := [] |};
           {| Root := Some 1%nat; Meta := if Agent b then Some "*"%string else None;
              Val := VStr (output (PID b) b); Nodes := [] |} ]) ∧
  (∀ (fuel : nat) (ps l1 l2 : list P) (a b : P) (s : RSt),
     HasPrefix (Exec a) dcrPrefix = true → PPID a = PPID b → (1 ≤ fuel)%nat →
     renderLoop fuel (buildIndex ps) (l1 ++ a :: l2) initRSt = Some (tt, s) →
     constructProcessTree fuel (buildIndex ps) (PPID b) b rootPtr s = Some (tt, s)).
Proof.
  split; [|split].
  - intros fuel ps l1 l2 l3 a b Hnd Hpf Hfuel Hfs Hpp Hfirst Hroot.
    destruct (renderRun_total ps fuel Hfuel) as (s & Hrun & _).
    assert (a ∈ dcrOnly ps) as Ha by (rewrite Hfs, elem_of_app; right; left).
    pose proof Ha as [_ Hfam]%elem_of_dcrOnly.
    (* the states of the loop *)
    pose proof Hrun as Hloop. unfold renderRun in Hloop.
    rewrite <- renderLoop_dcrOnly, Hfs in Hloop.
    destruct (renderLoop fuel (buildIndex ps) (l1 ++ a :: l2 ++ b :: l3) initRSt)
      as [[[] s']|] eqn:Hall; [|discriminate].
    injection Hloop as ->.
    pose proof Hall as Hsplit. unfold renderLoop in Hsplit.
    rewrite forEach_app in Hsplit.
    destruct (forEach l1 _ initRSt) as [[[] s0]|] eqn:H0; [|discriminate].
    rewrite forEach_cons, Hfam in Hsplit. change (negb true) with false in Hsplit.
    cbv beta iota in Hsplit.
    destruct (constructProcessTree fuel (buildIndex ps) (PPID a) a rootPtr s0)
      as [[[] sa]|] eqn:Hcall; [|discriminate].
    rewrite forEach_app in Hsplit.
    destruct (forEach l2 _ sa) as [[[] sb]|] eqn:H2; [|discriminate].
    assert (renderLoop fuel (buildIndex ps) (l1 ++ [a]) initRSt = Some (tt, sa)) as Hsa.
    { unfold renderLoop. rewrite forEach_app, H0, forEach_cons, Hfam.
      change (negb true) with false. cbv beta iota. by rewrite Hcall. }
    assert (renderLoop fuel (buildIndex ps) (l1 ++ a :: l2) initRSt = Some (tt, sb)) as Hsb.
    { unfold renderLoop. rewrite forEach_app, H0, forEach_cons, Hfam.
      change (negb true) with false. cbv beta iota. by rewrite Hcall. }
    (* the invariants *)
    assert (∀ l : list P, (∀ r, r ∈ l → r ∈ dcrOnly ps) →
              ∀ r, r ∈ l → HasPrefix (Exec r) dcrPrefix = true) as Hfams
      by (intros l Hl r Hr; by destruct (proj1 (elem_of_dcrOnly _ _) (Hl r Hr))).
    assert (∀ r, r ∈ l1 → r ∈ dcrOnly ps) as Hl1
      by (intros r Hr; rewrite Hfs, elem_of_app; by left).
    assert (∀ r, r ∈ l1 ++ [a] → r ∈ dcrOnly ps) as Hl1a.
    { intros r [Hr|Hr]%elem_of_app; [by apply Hl1|].
      apply list_elem_of_singleton in Hr. by subst r. }
    pose proof (topInv_prefix ps Hpf fuel l1 [] (a :: l2 ++ b :: l3) initRSt s0
                  Hfs (topInv_init ps) H0) as Hinv0.
    pose proof (topInv_prefix ps Hpf fuel (l1 ++ [a]) [] (l2 ++ b :: l3) initRSt sa
                  ltac:(by rewrite Hfs, <- app_assoc) (topInv_init ps) Hsa) as Hinva.
    pose proof (renderLoop_first fuel (buildIndex ps) l1 [] initRSt s0
                  (Hfams l1 Hl1) ltac:(by intros r ?%elem_of_nil) (Forall_nil_2 _) H0)
      as Hfirst0.
    pose proof (renderLoop_first fuel (buildIndex ps) (l1 ++ [a]) [] initRSt sa
                  (Hfams _ Hl1a) ltac:(by intros r ?%elem_of_nil) (Forall_nil_2 _) Hsa)
      as Hfirsta.
    pose proof (renderLoop_hangs fuel ps _ _ Hsa) as Hhanga.
    exists s0, sa, sb, s.
    split; [done|]. split.
    { by apply (parent_unmarked_before ps l1 s0 Hinv0 Hfirst0). }
    split; [done|]. split; [done|]. split.
    { apply (later_sibling_skipped fuel (buildIndex ps) l1 a l2 b initRSt sb);
        [done|done|unfold treeFuel in Hfuel; lia|done]. }
    split; [done|].
    intros s' [->| ->].
    + apply (shared_parent_branch ps (l1 ++ [a]) sa Hnd Hpf Hinva Hhanga Hfirsta l1 a []);
        [done|done|done].
    + apply (shared_parent_branch ps (dcrOnly ps) s Hnd Hpf
               (renderRun_topInv ps Hpf fuel s Hrun) (renderRun_hangs _ _ _ Hrun)
               (renderRun_first _ _ _ Hrun) l1 a (l2 ++ b :: l3)); [done|done|done].
  - exact two_siblings_render.
  - intros fuel ps l1 l2 a b s. apply later_sibling_skipped.
Qed.

Lemma shared_parent_siblings_witness :
  ∃ s j nk,
    renderRun 7 siblingsWithChild = Some s ∧
    visits s !! j = Some (0, mkP 1 0 "dcrd" "/usr/bin/dcrd" "v1.4.0" false) ∧
    heap s !! S j = Some nk ∧ Root nk = Some 0%nat ∧ content nk = bareContent 0.
Proof.
  destruct (proj1 shared_parent_siblings 7%nat siblingsWithChild []
              [mkP 3 1 "dcrctl" "/usr/bin/dcrctl" "v1.4.0" false] []
              (mkP 1 0 "dcrd" "/usr/bin/dcrd" "v1.4.0" false)
              (mkP 2 0 "dcrwallet" "/usr/bin/dcrwallet" "v1.4.0" true))
    as (s0 & sa & sb & s & _ & _ & _ & _ & _ & Hrun & Hboth).
  - apply (bool_decide_unpack _). vm_compute. exact I.
  - vm_compute. reflexivity.
  - vm_compute. lia.
  - reflexivity.
  - reflexivity.
  - intros r Hr. exfalso. revert Hr. apply not_elem_of_nil.
  - apply (bool_decide_unpack _). vm_compute. exact I.
  - destruct (Hboth s (or_intror eq_refl)) as (j & nk & Hj & Hnk & Htop & Hbare & _).
    exists s, j, nk. split; [exact Hrun|]. split; [exact Hj|].
    split; [exact Hnk|]. split; [exact Htop|exact Hbare].
Defined.

(** C5 at a snapshot that lists a child before its parent, which has the
    parent identifier 0 in common with another record. The render has four
    nodes below the top node: the bare node 1 with the labelled node of
    the child, and the bare node 0 with the labelled node of the other
    record alone. The two records with the parent identifier 0 are not
    siblings: the parent record gets no labelled node, because its PID 1
    had been marked as the parent identifier of its child before the
    bucket of 0 was expanded. *)
Lemma siblings_rendered_fails :
  renderRun (treeFuel childBeforeSiblings) childBeforeSiblings
    = Some (finalState childBeforeSiblings) ∧
  content <$> tail (heap (finalState childBeforeSiblings)) =
    [(None, VInt 1); (None, VStr "3 (dcrctl) {v1.4.0}");
     (None, VInt 0); (Some "*"%string, VStr "2 (dcrwallet) {v1.4.0}")] ∧
  ¬ siblings_rendered childBeforeSiblings (finalState childBeforeSiblings).
Proof.
  split; [vm_compute; reflexivity|]. split; [vm_compute; reflexivity|].
  intros Hsib.
  destruct (Hsib (mkP 1 0 "dcrd" "/usr/bin/dcrd" "v1.4.0" false)
                 (mkP 2 0 "dcrwallet" "/usr/bin/dcrwallet" "v1.4.0" true))
    as (j & ia & ib & nk & na & nb & _ & _ & Hna & Hca & _).
  - change (dcrOnly childBeforeSiblings) with childBeforeSiblings. right. left.
  - change (dcrOnly childBeforeSiblings) with childBeforeSiblings. right. right. left.
  - discriminate.
  - reflexivity.
  - apply (bool_decide_unpack _). vm_compute. exact I.
  - destruct ia as [|[|[|[|[|ia]]]]]; vm_compute in Hna;
      try discriminate Hna; injection Hna as <-; vm_compute in Hca; discriminate Hca.
Qed.
